(** * Event ingestion and commitment lifecycle of parket-integrations

    A shallow embedding of the services that admit webhook events, resolve
    and merge leads, track SLA timers, escalate breaches and run follow-up
    sequences, together with the properties stated about them.

    Conventions used throughout:
    - instants ([Date]) are milliseconds since the epoch, in [Z];
    - a table is the list of its rows in insertion order; primary keys
      ([uuid_generate_v4()]) are drawn from a counter kept in the store;
    - every outbound call (WhatsApp, Slack) is appended to a trace, tagged
      with the row on whose behalf it was made, and succeeds or throws as an
      oracle over the history decides;
    - one top-level call reads the clock once: every [new Date()] and
      [Date.now()] inside it sees the same instant;
    - statements against the store succeed, with two exceptions: the
      insert into [webhook_logs], whose failures the idempotency guard
      tells apart, and a select that names a column the schema of
      [db/migrate.ts] does not create, which the store rejects;
    - a NUMERIC column is read back by the driver as a decimal string, so
      that a stored number is truthy whenever it is not NULL;
    - names and keys of form fields are followed for ASCII text, where
      [toLowerCase] and the class [\s] are the ASCII ones. *)

From Stdlib Require Import ZArith List String Ascii Bool Arith Lia.
Import ListNotations.

Local Open Scope string_scope.
Local Open Scope list_scope.
Local Open Scope Z_scope.

(** ** connectors/whatsapp/client.ts : normalizePhone *)

Module Phone.

(** The character class [\d] of a JavaScript regular expression. *)
Definition is_digit (c : ascii) : bool :=
  let n := nat_of_ascii c in (48 <=? n)%nat && (n <=? 57)%nat.

(** [phone.replace(/\D/g, "")] *)
Fixpoint strip_non_digits (s : string) : string :=
  match s with
  | EmptyString => EmptyString
  | String c rest =>
      if is_digit c then String c (strip_non_digits rest)
      else strip_non_digits rest
  end.

(** [s.startsWith(p)] *)
Definition startsWith (s p : string) : bool := String.prefix p s.

(** [s.substring(a, b)] for [a <= b]; [s.substring(a)] runs to the end. *)
Definition substring (s : string) (a b : nat) : string :=
  String.substring a (b - a) s.
Definition substring_from (s : string) (a : nat) : string :=
  String.substring a (String.length s - a) s.

Definition normalizePhone (phone : string) : string :=
  (* Remove everything except digits *)
  let digits := strip_non_digits phone in
  (* Add country code if missing *)
  let digits :=
    if (String.length digits =? 10)%nat || (String.length digits =? 11)%nat
    then ("55" ++ digits)%string else digits in
  (* Add 9th digit for mobile if missing *)
  if (String.length digits =? 12)%nat && startsWith digits "55" then
    let ddd := substring digits 2 4 in
    let number := substring_from digits 4 in
    if (String.length number =? 8)%nat && negb (startsWith number "0")
    then ("55" ++ ddd ++ "9" ++ number)%string
    else digits
  else digits.

End Phone.

Import Phone.

(** ** db/schemas/types.ts and db/migrate.ts : rows and tables *)

Definition Id := nat.
Definition Instant := Z.

Inductive Source :=
  src_meta_ads | src_google_ads | src_website | src_instagram
| src_whatsapp | src_referral | src_architect.

Inductive Funnel := fn_architects | fn_end_client | fn_developers.

Inductive Stage :=
  triagem | qualificado | reuniao | proposta | negociacao | fechado | perdido.

Inductive ClientType := ct_architect | ct_end_client | ct_developer | ct_contractor.
Inductive ProjectType := residential | commercial | corporate.
Inductive ProjectStage := planta | obra_iniciada | acabamentos.

Record Lead := mkLead {
  lead_id : Id;
  external_id : option string;
  source : Source;
  funnel : Funnel;
  stage : Stage;
  name : string;
  email : option string;
  phone : string;
  phone_normalized : string;
  client_type : option ClientType;
  project_type : option ProjectType;
  project_stage : option ProjectStage;
  location : option string;
  estimated_deadline : option string;
  estimated_ticket : option Z;          (* amounts in whole reais *)
  score : Z;
  utm_source : option string;
  utm_medium : option string;
  utm_campaign : option string;
  utm_content : option string;
  pipedrive_deal_id : option Z;
  pipedrive_person_id : option Z;
  created_at : Instant;
  updated_at : Instant;
  qualified_at : option Instant;
  closed_at : option Instant
}.

Inductive SlaType :=
  response_5min | qualification_15min | meeting_48h | proposal_72h | handoff_24h.

Record SlaEvent := mkSla {
  sla_id : Id;
  sla_lead_id : Id;
  sla_type : SlaType;
  started_at : Instant;
  deadline_at : Instant;
  completed_at : option Instant;
  breached : bool;
  notified : bool
}.

(** [activities.type] is a TEXT column: besides the members of the
    TypeScript union it receives the two escalation tags, which the
    escalation service writes through a cast. *)
Inductive ActivityType :=
  sla_start | sla_met | sla_breach | follow_up | act_call | act_meeting
| proposal_sent | note | stage_change | whatsapp_sent | whatsapp_received
| escalation_slack | escalation_critical.

Inductive Channel := ch_whatsapp | ch_email.

(** The JSON objects the services store in [activities.metadata]. *)
Inductive Metadata :=
| MetaLeadReceived (src : Source) (campaign : option string)
| MetaMerged (src : Source) (merged_fields : list string)
| MetaSlaBreach (ty : SlaType) (deadline : Instant)
| MetaEscalation (sla : Id) (escalated_at : Instant)
| MetaFollowUp (sequence : Id) (step_order : Z) (channel : Channel).

(** The template literals the services store in [activities.description]. *)
Inductive Description :=
| DescLeadReceived (src : Source)
| DescDuplicateMerged (src : Source)
| DescSlaBreached (label : string)
| DescEscalation (ty : ActivityType)
| DescSequenceStep (step_order : Z) (message : string).

(** The generated columns [id] and [created_at] of an activity are never
    read by the services below and are left out. *)
Record Activity := mkActivity {
  act_lead_id : Id;
  act_type : ActivityType;
  act_description : Description;
  act_metadata : Metadata
}.

Inductive WebhookStatus := received | processed | failed | duplicate.

Record WebhookLog := mkWebhookLog {
  wh_source : string;
  wh_event_type : string;
  wh_payload : string;                  (* opaque JSON blob *)
  wh_status : WebhookStatus;
  wh_idempotency_key : string;
  wh_error : option string
}.

Record FollowUpStep := mkStep {
  step_sequence_id : Id;
  step_order : Z;
  delay_minutes : Z;
  step_channel : Channel;
  template : string
}.

Inductive ExecStatus := active | completed | cancelled | responded.

Record FollowUpExecution := mkExec {
  exec_id : Id;
  exec_lead_id : Id;
  exec_sequence_id : Id;
  current_step : Z;
  exec_status : ExecStatus;
  next_run_at : option Instant;
  exec_completed_at : option Instant
}.

Record Db := mkDb {
  leads : list Lead;
  activities : list Activity;
  sla_events : list SlaEvent;
  webhook_logs : list WebhookLog;
  follow_up_steps : list FollowUpStep;
  follow_up_executions : list FollowUpExecution;
  next_id : Id                          (* uuid_generate_v4() *)
}.

Definition empty_db : Db := mkDb [] [] [] [] [] [] 0%nat.

Definition with_leads (f : list Lead -> list Lead) (d : Db) : Db :=
  mkDb (f (leads d)) (activities d) (sla_events d) (webhook_logs d)
       (follow_up_steps d) (follow_up_executions d) (next_id d).
Definition with_activities (f : list Activity -> list Activity) (d : Db) : Db :=
  mkDb (leads d) (f (activities d)) (sla_events d) (webhook_logs d)
       (follow_up_steps d) (follow_up_executions d) (next_id d).
Definition with_sla_events (f : list SlaEvent -> list SlaEvent) (d : Db) : Db :=
  mkDb (leads d) (activities d) (f (sla_events d)) (webhook_logs d)
       (follow_up_steps d) (follow_up_executions d) (next_id d).
Definition with_webhook_logs (f : list WebhookLog -> list WebhookLog) (d : Db) : Db :=
  mkDb (leads d) (activities d) (sla_events d) (f (webhook_logs d))
       (follow_up_steps d) (follow_up_executions d) (next_id d).
Definition with_executions
  (f : list FollowUpExecution -> list FollowUpExecution) (d : Db) : Db :=
  mkDb (leads d) (activities d) (sla_events d) (webhook_logs d)
       (follow_up_steps d) (f (follow_up_executions d)) (next_id d).
Definition with_next_id (n : Id) (d : Db) : Db :=
  mkDb (leads d) (activities d) (sla_events d) (webhook_logs d)
       (follow_up_steps d) (follow_up_executions d) n.

(** [UPDATE t SET ... WHERE id = k]: every row whose key is [k] is rewritten. *)
Definition update_where {A : Type} (key : A -> Id) (k : Id) (f : A -> A)
  : list A -> list A :=
  map (fun r => if (key r =? k)%nat then f r else r).

(** [SELECT ... FROM a INNER JOIN b ON b.id = a.fk]. *)
Definition inner_join {A B : Type} (fk : A -> Id) (pk : B -> Id)
  (la : list A) (lb : list B) : list (A * B) :=
  flat_map (fun a => map (pair a) (filter (fun b => (pk b =? fk a)%nat) lb)) la.

(** JavaScript truthiness of nullable columns. *)
Definition truthy_str (o : option string) : bool :=
  match o with Some s => negb (s =? "")%string | None => false end.
Definition truthy_num (o : option Z) : bool :=
  match o with Some n => negb (n =? 0) | None => false end.
Definition truthy_opt {A : Type} (o : option A) : bool :=
  match o with Some _ => true | None => false end.

(** ** Outbound connector calls and the effect monad *)

Inductive Severity := sev_info | sev_warning | sev_critical.

(** [EscalationContext] of services/escalation.ts. *)
Record EscalationContext := mkCtx {
  leadId : Id;
  leadName : string;
  slaType : SlaType;
  minutesSinceBreach : Z
}.

(** Message texts, kept as the template and the values spliced into it. *)
Inductive Text :=
| TNewLead (nm ph : string) (src : Source)
           (pt : option ProjectType) (loc : option string)
| TSlaBreach (lead_name lead_phone : string) (ty : SlaType) (deadline : Instant)
| TEscalation (ctx : EscalationContext)
| TCritical (ctx : EscalationContext) (ticket : option Z)
| TRendered (message : string).

(** Calls into the capabilities of the messaging and alert connectors. *)
Inductive Call :=
| SendGroupMessage (groupId : string) (text : Text)
| SendTextMessage (number : string) (text : Text)
| SendSlackAlert (sev : Severity) (text : Text).

(** A trace entry: the call, the row it was made for, and whether the
    connector returned ([true]) or threw ([false]). *)
Record Sent := mkSent { origin : Id; call : Call; delivered : bool }.

Inductive Err :=
| PgError (code : string)               (* error of the store, with its SQLSTATE *)
| ConnectorError (c : Call)
| ApiError (service : string)
| RenderError (tpl : string)
| NoResultError.

(** [err instanceof Error ? err.message : "Unknown error"] *)
Definition err_message (e : Err) : string :=
  match e with
  | PgError c => c
  | ConnectorError _ => "connector"
  | ApiError s => s
  | RenderError t => t
  | NoResultError => "no result"
  end.

(** [(err as { code?: string }).code] *)
Definition err_code (e : Err) : option string :=
  match e with PgError c => Some c | _ => None end.

Record World := mkWorld { db : Db; sent : list Sent }.

Inductive Result (A : Type) :=
| Ok (a : A)
| Threw (e : Err).
Arguments Ok {A} a.
Arguments Threw {A} e.

(** Stateful computations that may throw; effects made before a throw stay. *)
Definition M (A : Type) : Type := World -> Result A * World.

Definition ret {A} (a : A) : M A := fun w => (Ok a, w).
Definition throw {A} (e : Err) : M A := fun w => (Threw e, w).
Definition bind {A B} (m : M A) (k : A -> M B) : M B :=
  fun w => match m w with
           | (Ok a, w') => k a w'
           | (Threw e, w') => (Threw e, w')
           end.
Definition try_catch {A} (m : M A) (handler : Err -> M A) : M A :=
  fun w => match m w with
           | (Ok a, w') => (Ok a, w')
           | (Threw e, w') => handler e w'
           end.

Notation "x <- m ;; k" := (bind m (fun x => k))
  (at level 61, m at next level, right associativity).
Notation "m ;;; k" := (bind m (fun _ => k))
  (at level 61, right associativity).

Definition query {A} (f : Db -> A) : M A := fun w => (Ok (f (db w)), w).
Definition execute (f : Db -> Db) : M unit :=
  fun w => (Ok tt, mkWorld (f (db w)) (sent w)).
Definition fresh_id : M Id :=
  fun w => (Ok (next_id (db w)),
            mkWorld (with_next_id (S (next_id (db w))) (db w)) (sent w)).

(** [for (const x of xs) { await body(x) }] *)
Fixpoint for_each {A} (xs : list A) (body : A -> M unit) : M unit :=
  match xs with
  | [] => ret tt
  | x :: rest => body x ;;; for_each rest body
  end.

(** A loop whose body adds to a local counter. *)
Fixpoint for_each_count {A} (xs : list A) (body : A -> M Z) (acc : Z) : M Z :=
  match xs with
  | [] => ret acc
  | x :: rest => n <- body x ;; for_each_count rest body (acc + n)
  end.

Definition run {A} (m : M A) (w : World) : World := snd (m w).
Definition result {A} (m : M A) (w : World) : Result A := fst (m w).

(** ** The environment of the services *)

(** [MetaLeadData] of connectors/meta/client.ts (the fields that are read). *)
Record MetaLeadData := mkMetaLead {
  field_data : list (string * list string);
  ad_id : option string;
  campaign_id : option string
}.

(** What the handlebars template receives. *)
Record TemplateData := mkTemplateData {
  td_name : string;
  td_location : option string;
  td_project_type : option ProjectType;
  td_funnel : Funnel
}.

Record Env := mkEnv {
  (** [process.env] *)
  WHATSAPP_SDR_GROUP : option string;
  WHATSAPP_OPS_GROUP : option string;
  SLACK_WEBHOOK_URL : option string;
  (** whether a connector call made after the given history returns *)
  connector_ok : list Sent -> Call -> bool;
  (** the failure, if any, with which the store rejects an insert into
      [webhook_logs] for a reason other than its unique index *)
  store_fault : WebhookLog -> Db -> option Err;
  (** the Pipedrive connector: person id and deal id, or a throw *)
  pipedrive : Lead -> option (Z * Z);
  (** the Meta Graph API: the lead behind a leadgen id, or a throw *)
  fetchLeadData : string -> option MetaLeadData;
  (** [Handlebars.compile(template)(data)], or a throw *)
  handlebars : string -> TemplateData -> option string
}.

(** [if (groupId)] on an environment variable. *)
Definition configured (v : option string) : option string :=
  match v with
  | Some g => if (g =? "")%string then None else Some g
  | None => None
  end.

Definition SlaType_eq_dec (a b : SlaType) : {a = b} + {a <> b}.
Proof. decide equality. Defined.

Definition is_null {A : Type} (o : option A) : bool :=
  match o with None => true | Some _ => false end.

(** [RawLeadInput] of services/lead-ingestion.ts. *)
Record RawLeadInput := mkInput {
  in_name : string;
  in_email : option string;
  in_phone : string;
  in_source : Source;
  in_client_type : option ClientType;
  in_project_type : option ProjectType;
  in_project_stage : option ProjectStage;
  in_location : option string;
  in_estimated_deadline : option string;
  in_estimated_ticket : option Z;
  in_utm_source : option string;
  in_utm_medium : option string;
  in_utm_campaign : option string;
  in_utm_content : option string;
  in_external_id : option string
}.

Record IngestionResult := mkResult {
  res_lead : Lead;
  isNew : bool;
  pipedriveDealId : option Z
}.

(** The [updates] object of [mergeLead]: [updated_at] is always present,
    the other keys only when assigned. *)
Record LeadUpdates := mkUpdates {
  up_updated_at : Instant;
  up_email : option string;
  up_client_type : option ClientType;
  up_project_type : option ProjectType;
  up_project_stage : option ProjectStage;
  up_location : option string;
  up_estimated_ticket : option Z
}.

(** One element of [entry.changes] in the body Meta posts. *)
Record Change := mkChange {
  change_field : string;
  leadgen_id : option string;           (* change.value?.leadgen_id *)
  change_value : string                 (* change.value, an opaque JSON blob *)
}.

(** [s.toLowerCase()], followed on ASCII text: the letters A to Z are
    folded and every other character is kept.  On text with characters
    outside ASCII the JavaScript method folds more (see [ascii_only]). *)
Definition lower_ascii (c : ascii) : ascii :=
  let n := nat_of_ascii c in
  if (65 <=? n)%nat && (n <=? 90)%nat then ascii_of_nat (n + 32) else c.

Fixpoint toLowerCase (s : string) : string :=
  match s with
  | EmptyString => EmptyString
  | String c rest => String (lower_ascii c) (toLowerCase rest)
  end.

(** [s.includes(sub)] *)
Fixpoint includes (s sub : string) : bool :=
  String.prefix sub s
  || match s with
     | EmptyString => false
     | String _ rest => includes rest sub
     end.

Section Services.

Variable E : Env.

(** A call into a connector, recorded whether it returns or throws. *)
Definition connector (o : Id) (c : Call) : M unit :=
  fun w =>
    let ok := connector_ok E (sent w) c in
    let w' := mkWorld (db w) (sent w ++ [mkSent o c ok]) in
    if ok then (Ok tt, w') else (Threw (ConnectorError c), w').

(** *** services/sla-monitor.ts *)

Definition SLA_DURATIONS (t : SlaType) : Z :=
  match t with
  | response_5min => 5 * 60 * 1000
  | qualification_15min => 15 * 60 * 1000
  | meeting_48h => 48 * 60 * 60 * 1000
  | proposal_72h => 72 * 60 * 60 * 1000
  | handoff_24h => 24 * 60 * 60 * 1000
  end.

Definition SLA_LABELS (t : SlaType) : string :=
  match t with
  | response_5min => "Resposta (5 min)"
  | qualification_15min => "Qualificacao (15 min)"
  | meeting_48h => "Reuniao (48h)"
  | proposal_72h => "Proposta (72h)"
  | handoff_24h => "Handoff Obras (24h)"
  end.

Definition startSla (now : Instant) (leadId : Id) (slaType : SlaType) : M unit :=
  let deadline := now + SLA_DURATIONS slaType in
  id <- fresh_id ;;
  execute (with_sla_events (fun rows =>
    rows ++ [mkSla id leadId slaType now deadline None false false])).

Definition set_completed_at (t : option Instant) (s : SlaEvent) : SlaEvent :=
  mkSla (sla_id s) (sla_lead_id s) (sla_type s) (started_at s) (deadline_at s)
        t (breached s) (notified s).
Definition set_breached (b : bool) (s : SlaEvent) : SlaEvent :=
  mkSla (sla_id s) (sla_lead_id s) (sla_type s) (started_at s) (deadline_at s)
        (completed_at s) b (notified s).
Definition set_notified (b : bool) (s : SlaEvent) : SlaEvent :=
  mkSla (sla_id s) (sla_lead_id s) (sla_type s) (started_at s) (deadline_at s)
        (completed_at s) (breached s) b.

Definition completeSla (now : Instant) (leadId : Id) (slaType : SlaType) : M unit :=
  execute (with_sla_events (map (fun s =>
    if (sla_lead_id s =? leadId)%nat
       && (if SlaType_eq_dec (sla_type s) slaType then true else false)
       && is_null (completed_at s)
    then set_completed_at (Some now) s else s))).

(** The rows of [sla_events] joined with their lead. *)
Definition sla_with_lead (d : Db) : list (SlaEvent * Lead) :=
  inner_join sla_lead_id lead_id (sla_events d) (leads d).

(** Find open SLAs past deadline *)
Definition selectBreached (now : Instant) (d : Db) : list (SlaEvent * Lead) :=
  filter (fun row =>
            is_null (completed_at (fst row))
            && Bool.eqb (breached (fst row)) false
            && (deadline_at (fst row) <? now))
         (sla_with_lead d).

(** The body of the loop of [checkSlaBreaches]; [row] is the snapshot
    the select returned. *)
Definition markBreached (row : SlaEvent * Lead) : M unit :=
  let sla := fst row in
  let lead := snd row in
  (* Mark as breached *)
  execute (with_sla_events (update_where sla_id (sla_id sla) (set_breached true))) ;;;
  (* Log activity *)
  execute (with_activities (fun rows => rows ++
    [mkActivity (sla_lead_id sla) sla_breach
                (DescSlaBreached (SLA_LABELS (sla_type sla)))
                (MetaSlaBreach (sla_type sla) (deadline_at sla))])) ;;;
  (* Notify if not yet notified *)
  if negb (notified sla) then
    try_catch
      (match configured (WHATSAPP_SDR_GROUP E) with
       | Some groupId =>
           connector (sla_id sla)
             (SendGroupMessage groupId
                (TSlaBreach (name lead) (phone lead) (sla_type sla) (deadline_at sla)))
       | None => ret tt
       end ;;;
       execute (with_sla_events
                  (update_where sla_id (sla_id sla) (set_notified true))))
      (fun _ => ret tt)
  else ret tt.

Definition processBreached (rows : list (SlaEvent * Lead)) : M Z :=
  if (List.length rows =? 0)%nat then ret 0
  else for_each rows markBreached ;;; ret (Z.of_nat (List.length rows)).

Definition checkSlaBreaches (now : Instant) : M Z :=
  rows <- query (selectBreached now) ;;
  processBreached rows.

(** *** services/escalation.ts *)

(** db/migrate.ts, migration 003: the columns of [sla_events].  No later
    migration alters the table. *)
Definition sla_events_columns : list string :=
  ["id"; "lead_id"; "sla_type"; "started_at"; "deadline_at"; "completed_at";
   "breached"; "notified"; "created_at"].

Definition has_column (columns : list string) (c : string) : bool :=
  existsb (String.eqb c) columns.

(** A select from [sla_events]: PostgreSQL rejects a statement that names
    a column the table does not have (SQLSTATE 42703, undefined_column)
    without reading a row. *)
Definition select_from_sla_events {A : Type} (columns : list string) (f : Db -> A)
  : M A :=
  if forallb (has_column sla_events_columns) columns then query f
  else throw (PgError "42703").

Definition selectBreachedOpen (d : Db) : list (SlaEvent * Lead) :=
  filter (fun row => Bool.eqb (breached (fst row)) true
                     && is_null (completed_at (fst row)))
         (sla_with_lead d).

(** [metadata @> {"sla_id": k}] *)
Definition metadata_has_sla_id (m : Metadata) (k : Id) : bool :=
  match m with
  | MetaEscalation sla _ => (sla =? k)%nat
  | _ => false
  end.

Definition is_escalation_slack (t : ActivityType) : bool :=
  match t with escalation_slack => true | _ => false end.
Definition is_escalation_critical (t : ActivityType) : bool :=
  match t with escalation_critical => true | _ => false end.

(** Check existing escalation activities for this SLA *)
Definition escalationActivities (sla : SlaEvent) (d : Db) : list ActivityType :=
  map act_type
    (filter (fun a =>
               (act_lead_id a =? sla_lead_id sla)%nat
               && (is_escalation_slack (act_type a)
                   || is_escalation_critical (act_type a))
               && metadata_has_sla_id (act_metadata a) (sla_id sla))
            (activities d)).

(** connectors/slack/client.ts: [sendSlackAlert] goes through
    [sendSlackMessage], which returns without posting when
    [SLACK_WEBHOOK_URL] is not set. *)
Definition sendSlackAlert (o : Id) (sev : Severity) (text : Text) : M unit :=
  match configured (SLACK_WEBHOOK_URL E) with
  | None => ret tt
  | Some _ => connector o (SendSlackAlert sev text)
  end.

Definition escalateToSlack (o : Id) (ctx : EscalationContext) : M unit :=
  sendSlackAlert o sev_warning (TEscalation ctx).

(** [estimatedTicket] comes from the NUMERIC column [leads.estimated_ticket]
    and is tested as read: any stored number, 0 included, is truthy. *)
Definition escalateToCritical (o : Id) (ctx : EscalationContext)
  (estimatedTicket : option Z) : M unit :=
  let ticketInfo := if truthy_opt estimatedTicket then estimatedTicket else None in
  (* Critical Slack alert *)
  sendSlackAlert o sev_critical (TCritical ctx ticketInfo) ;;;
  (* Also WhatsApp to ops group *)
  match configured (WHATSAPP_OPS_GROUP E) with
  | Some opsGroup => connector o (SendGroupMessage opsGroup (TCritical ctx ticketInfo))
  | None => ret tt
  end.

Definition logEscalation (now : Instant) (leadId slaId : Id) (ty : ActivityType)
  : M unit :=
  execute (with_activities (fun rows => rows ++
    [mkActivity leadId ty (DescEscalation ty) (MetaEscalation slaId now)])).

(** The body of the loop of [runEscalationCheck], returning what it adds
    to [escalated].  The [try] block is split where [escalated] is first
    incremented, so that a throw in its second half keeps the increment,
    as the mutable local does. *)
Definition escalateRow (now : Instant) (row : SlaEvent * Lead) : M Z :=
  let sla := fst row in
  let lead := snd row in
  let minutes := (now - deadline_at sla) / 60000 in
  let context := mkCtx (sla_lead_id sla) (name lead) (sla_type sla) minutes in
  escalationActivities <- query (escalationActivities sla) ;;
  let hasSlackEscalation := existsb is_escalation_slack escalationActivities in
  let hasCriticalEscalation := existsb is_escalation_critical escalationActivities in
  first <- try_catch
    ((* Level 2: Slack (after 15 min) *)
     if (minutes >=? 15) && negb hasSlackEscalation then
       escalateToSlack (sla_id sla) context ;;;
       logEscalation now (sla_lead_id sla) (sla_id sla) escalation_slack ;;;
       ret (Some 1)
     else ret (Some 0))
    (fun _ => ret None) ;;
  match first with
  | None => ret 0
  | Some n =>
      try_catch
        ((* Level 3: Critical (after 30 min) *)
         if (minutes >=? 30) && negb hasCriticalEscalation then
           escalateToCritical (sla_id sla) context (estimated_ticket lead) ;;;
           logEscalation now (sla_lead_id sla) (sla_id sla) escalation_critical ;;;
           ret (n + 1)
         else ret n)
        (fun _ => ret n)
  end.

(** The columns of [sla_events] that the select of [runEscalationCheck]
    names. *)
Definition escalation_select_columns : list string :=
  ["id"; "lead_id"; "sla_type"; "deadline_at"; "notified"; "metadata"].

(** The select names [sla_events.metadata], which no migration creates:
    the store rejects the statement before the loop is entered, and
    nothing around the select catches the throw. *)
Definition runEscalationCheck (now : Instant) : M Z :=
  breachedSlas <- select_from_sla_events escalation_select_columns selectBreachedOpen ;;
  for_each_count breachedSlas (escalateRow now) 0.

(** *** services/follow-up-sequences.ts *)

Definition set_exec (step : Z) (st : ExecStatus) (next : option Instant)
  (done : option Instant) (e : FollowUpExecution) : FollowUpExecution :=
  mkExec (exec_id e) (exec_lead_id e) (exec_sequence_id e) step st next done.

Definition is_active (s : ExecStatus) : bool :=
  match s with active => true | _ => false end.

(** [next_run_at <= now]; a NULL [next_run_at] never compares true. *)
Definition is_due (now : Instant) (e : FollowUpExecution) : bool :=
  match next_run_at e with Some t => t <=? now | None => false end.

(** Find executions due for next step *)
Definition selectDue (now : Instant) (d : Db) : list (FollowUpExecution * Lead) :=
  filter (fun row => is_active (exec_status (fst row)) && is_due now (fst row))
         (inner_join exec_lead_id lead_id (follow_up_executions d) (leads d)).

(** [selectFrom("follow_up_steps") ... executeTakeFirst()] *)
Definition find_step (sequence : Id) (order : Z) (d : Db) : option FollowUpStep :=
  find (fun st => (step_sequence_id st =? sequence)%nat && (step_order st =? order))
       (follow_up_steps d).

Definition render (tpl : string) (lead : Lead) : M string :=
  match handlebars E tpl
          (mkTemplateData (name lead) (location lead) (project_type lead) (funnel lead))
  with
  | Some message => ret message
  | None => throw (RenderError tpl)
  end.

(** [sendTextMessage] of the WhatsApp connector posts to the normalized number. *)
Definition sendTextMessage (o : Id) (ph : string) (text : string) : M unit :=
  connector o (SendTextMessage (normalizePhone ph) (TRendered text)).

(** The body of the loop of [processDueFollowUps], returning what it adds
    to [processed]. *)
Definition processExecution (now : Instant) (row : FollowUpExecution * Lead) : M Z :=
  let exec := fst row in
  let lead := snd row in
  try_catch
    (let nextStepOrder := current_step exec + 1 in
     (* Get the step to execute *)
     step <- query (find_step (exec_sequence_id exec) nextStepOrder) ;;
     match step with
     | None =>
         (* No more steps: sequence completed *)
         execute (with_executions (update_where exec_id (exec_id exec)
           (fun e => set_exec (current_step e) completed (next_run_at e) (Some now) e))) ;;;
         ret 0
     | Some step =>
         (* Render template with lead data *)
         message <- render (template step) lead ;;
         (* Send message *)
         match step_channel step with
         | ch_whatsapp => sendTextMessage (exec_id exec) (phone_normalized lead) message
         | _ => ret tt
         end ;;;
         (* Log activity *)
         execute (with_activities (fun rows => rows ++
           [mkActivity (exec_lead_id exec) follow_up
              (DescSequenceStep nextStepOrder (String.substring 0 200 message))
              (MetaFollowUp (exec_sequence_id exec) nextStepOrder (step_channel step))])) ;;;
         (* Check if there's a next step *)
         nextStep <- query (find_step (exec_sequence_id exec) (nextStepOrder + 1)) ;;
         match nextStep with
         | Some nextStep =>
             (* Schedule next step *)
             let nextRunAt := now + delay_minutes nextStep * 60000 in
             execute (with_executions (update_where exec_id (exec_id exec)
               (fun e => set_exec nextStepOrder (exec_status e) (Some nextRunAt)
                                  (exec_completed_at e) e)))
         | None =>
             (* No more steps *)
             execute (with_executions (update_where exec_id (exec_id exec)
               (fun e => set_exec nextStepOrder completed None (Some now) e)))
         end ;;;
         ret 1
     end)
    (fun _ => ret 0).

Definition processDueFollowUps (now : Instant) : M Z :=
  dueExecutions <- query (selectDue now) ;;
  if (List.length dueExecutions =? 0)%nat then ret 0
  else for_each_count dueExecutions (processExecution now) 0.

(** Cancel all active sequences for a lead. *)
Definition cancelSequencesForLead (now : Instant) (leadId : Id) (reason : ExecStatus)
  : M unit :=
  execute (with_executions (map (fun e =>
    if (exec_lead_id e =? leadId)%nat && is_active (exec_status e)
    then set_exec (current_step e) reason (next_run_at e) (Some now) e else e))).

(** *** services/webhook-guard.ts *)

(** [insertInto("webhook_logs")]: the unique index on [idempotency_key]
    rejects a second row with SQLSTATE 23505. *)
Definition insert_webhook_log (row : WebhookLog) : M unit :=
  fun w =>
    match store_fault E row (db w) with
    | Some e => (Threw e, w)
    | None =>
        if existsb (fun r => (wh_idempotency_key r =? wh_idempotency_key row)%string)
                   (webhook_logs (db w))
        then (Threw (PgError "23505"), w)
        else (Ok tt, mkWorld (with_webhook_logs (fun rows => rows ++ [row]) (db w))
                             (sent w))
    end.

Definition code_is (e : Err) (c : string) : bool :=
  match err_code e with Some c' => (c' =? c)%string | None => false end.

Definition isNewWebhookEvent (src eventType idempotencyKey payload : string) : M bool :=
  try_catch
    (insert_webhook_log
       (mkWebhookLog src eventType payload received idempotencyKey None) ;;;
     ret true)
    (fun err =>
       (* Unique constraint violation = duplicate *)
       if code_is err "23505" then ret false else throw err).

Definition markWebhookStatus (idempotencyKey : string) (status : WebhookStatus)
  (error : option string) : M unit :=
  execute (with_webhook_logs (map (fun r =>
    if (wh_idempotency_key r =? idempotencyKey)%string
    then mkWebhookLog (wh_source r) (wh_event_type r) (wh_payload r) status
                      (wh_idempotency_key r) error
    else r))).

(** *** services/lead-scoring.ts *)

Definition sourceScores (s : Source) : option Z :=
  match s with
  | src_architect => Some 25
  | src_referral => Some 20
  | src_website => Some 15
  | src_instagram => Some 12
  | src_meta_ads => Some 10
  | src_google_ads => Some 10
  | src_whatsapp => Some 8
  end.

(** [Math.round(n / d)] for [d > 0]: the nearest integer, halves upwards. *)
Definition math_round_div (n d : Z) : Z := (2 * n + d) / (2 * d).

Definition count_true (l : list bool) : Z :=
  Z.of_nat (List.length (filter (fun b => b) l)).

Definition scoreLead (input : RawLeadInput) : Z :=
  let score := 0 in
  (* Source quality (max 25) *)
  let score := score + match sourceScores (in_source input) with
                       | Some v => v
                       | None => 5
                       end in
  (* Client type (max 20) *)
  let score := match in_client_type input with
               | Some ct_architect => score + 20
               | Some ct_developer => score + 15
               | Some ct_end_client => score + 10
               | _ => score
               end in
  (* Project stage (max 20) *)
  let score := match in_project_stage input with
               | Some acabamentos => score + 20
               | Some obra_iniciada => score + 12
               | Some planta => score + 5
               | None => score
               end in
  (* Estimated ticket (max 20) *)
  let score := match in_estimated_ticket input with
               | Some t =>
                   if truthy_num (Some t) then
                     if t >=? 100000 then score + 20
                     else if t >=? 50000 then score + 15
                     else if t >=? 20000 then score + 10
                     else score + 5
                   else score
               | None => score
               end in
  (* Data completeness (max 15) *)
  let fields := [ truthy_str (in_email input);
                  truthy_opt (in_client_type input);
                  truthy_opt (in_project_type input);
                  truthy_opt (in_project_stage input);
                  truthy_str (in_location input);
                  truthy_str (in_estimated_deadline input);
                  truthy_num (in_estimated_ticket input) ] in
  let filled := count_true fields in
  let score := score + math_round_div (filled * 15) (Z.of_nat (List.length fields)) in
  Z.min score 100.

(** What each block of [scoreLead] adds to [score], in the order of the
    function. *)
Definition source_points (input : RawLeadInput) : Z :=
  match sourceScores (in_source input) with
  | Some v => v
  | None => 5
  end.

Definition client_points (input : RawLeadInput) : Z :=
  match in_client_type input with
  | Some ct_architect => 20
  | Some ct_developer => 15
  | Some ct_end_client => 10
  | _ => 0
  end.

Definition stage_points (input : RawLeadInput) : Z :=
  match in_project_stage input with
  | Some acabamentos => 20
  | Some obra_iniciada => 12
  | Some planta => 5
  | None => 0
  end.

Definition ticket_points (input : RawLeadInput) : Z :=
  match in_estimated_ticket input with
  | Some t =>
      if truthy_num (Some t) then
        if t >=? 100000 then 20
        else if t >=? 50000 then 15
        else if t >=? 20000 then 10
        else 5
      else 0
  | None => 0
  end.

Definition completeness_points (input : RawLeadInput) : Z :=
  let fields := [ truthy_str (in_email input);
                  truthy_opt (in_client_type input);
                  truthy_opt (in_project_type input);
                  truthy_opt (in_project_stage input);
                  truthy_str (in_location input);
                  truthy_str (in_estimated_deadline input);
                  truthy_num (in_estimated_ticket input) ] in
  math_round_div (count_true fields * 15) (Z.of_nat (List.length fields)).

(** *** services/lead-ingestion.ts *)

Definition inferFunnel (clientType : option ClientType) : Funnel :=
  match clientType with
  | Some ct_architect => fn_architects
  | Some ct_developer => fn_developers
  | Some ct_contractor => fn_developers
  | _ => fn_end_client
  end.

Definition or_else {A : Type} (new old : option A) : option A :=
  match new with Some v => Some v | None => old end.

(** [UPDATE leads SET ...updates]: the keys present in [updates] are written. *)
Definition apply_updates (u : LeadUpdates) (l : Lead) : Lead :=
  mkLead (lead_id l) (external_id l) (source l) (funnel l) (stage l) (name l)
         (or_else (up_email u) (email l)) (phone l) (phone_normalized l)
         (or_else (up_client_type u) (client_type l))
         (or_else (up_project_type u) (project_type l))
         (or_else (up_project_stage u) (project_stage l))
         (or_else (up_location u) (location l))
         (estimated_deadline l)
         (or_else (up_estimated_ticket u) (estimated_ticket l))
         (score l) (utm_source l) (utm_medium l) (utm_campaign l) (utm_content l)
         (pipedrive_deal_id l) (pipedrive_person_id l)
         (created_at l) (up_updated_at u) (qualified_at l) (closed_at l).

Definition key_if {A : Type} (k : string) (o : option A) : list string :=
  match o with Some _ => [k] | None => [] end.

(** [Object.keys(updates)] *)
Definition update_keys (u : LeadUpdates) : list string :=
  ["updated_at"] ++ key_if "email" (up_email u)
  ++ key_if "client_type" (up_client_type u)
  ++ key_if "project_type" (up_project_type u)
  ++ key_if "project_stage" (up_project_stage u)
  ++ key_if "location" (up_location u)
  ++ key_if "estimated_ticket" (up_estimated_ticket u).

(** [if (!existing.f && input.f) updates.f = input.f]; [stored] is the
    truthiness of the column as the driver returns it, [truthy] that of the
    incoming value. *)
Definition merge_field {A : Type} (stored truthy : option A -> bool)
  (existing incoming : option A) : option A :=
  if negb (stored existing) && truthy incoming then incoming else None.

Definition merge_updates (now : Instant) (existing : Lead) (input : RawLeadInput)
  : LeadUpdates :=
  mkUpdates now
    (merge_field truthy_str truthy_str (email existing) (in_email input))
    (merge_field truthy_opt truthy_opt (client_type existing) (in_client_type input))
    (merge_field truthy_opt truthy_opt (project_type existing) (in_project_type input))
    (merge_field truthy_opt truthy_opt (project_stage existing) (in_project_stage input))
    (merge_field truthy_str truthy_str (location existing) (in_location input))
    (* estimated_ticket is NUMERIC: the stored value is read back as a
       string, truthy unless NULL; the incoming one is a number *)
    (merge_field truthy_opt truthy_num (estimated_ticket existing)
                 (in_estimated_ticket input)).

(** Merge new data into existing lead (dedup merge) *)
Definition mergeLead (now : Instant) (existing : Lead) (input : RawLeadInput)
  : M IngestionResult :=
  (* Merge fields that were null *)
  let updates := merge_updates now existing input in
  (if (1 <? List.length (update_keys updates))%nat then
     execute (with_leads (update_where lead_id (lead_id existing) (apply_updates updates)))
   else ret tt) ;;;
  execute (with_activities (fun rows => rows ++
    [mkActivity (lead_id existing) note (DescDuplicateMerged (in_source input))
                (MetaMerged (in_source input) (update_keys updates))])) ;;;
  updated <- query (fun d =>
    find (fun l => (lead_id l =? lead_id existing)%nat) (leads d)) ;;
  match updated with
  | Some updated => ret (mkResult updated false None)
  | None => throw NoResultError
  end.

(** Create person + deal in Pipedrive *)
Definition syncToPipedrive (lead : Lead) : M Z :=
  match pipedrive E lead with
  | Some (person, deal) =>
      execute (with_leads (update_where lead_id (lead_id lead) (fun l =>
        mkLead (lead_id l) (external_id l) (source l) (funnel l) (stage l) (name l)
               (email l) (phone l) (phone_normalized l) (client_type l)
               (project_type l) (project_stage l) (location l)
               (estimated_deadline l) (estimated_ticket l) (score l)
               (utm_source l) (utm_medium l) (utm_campaign l) (utm_content l)
               (Some deal) (Some person)
               (created_at l) (updated_at l) (qualified_at l) (closed_at l)))) ;;;
      ret deal
  | None => throw (ApiError "pipedrive")
  end.

(** [notifyNewLead] of the WhatsApp connector: notify the SDR group. *)
Definition notifyNewLead (o : Id) (nm ph : string) (src : Source)
  (pt : option ProjectType) (loc : option string) : M unit :=
  match configured (WHATSAPP_SDR_GROUP E) with
  | None => ret tt
  | Some groupId =>
      connector o (SendGroupMessage groupId
                     (TNewLead nm ph src pt (if truthy_str loc then loc else None)))
  end.

Definition ingestLead (now : Instant) (input : RawLeadInput) : M IngestionResult :=
  let phoneNormalized := normalizePhone (in_phone input) in
  (* Dedup *)
  existing <- query (fun d =>
    find (fun l => (phone_normalized l =? phoneNormalized)%string) (leads d)) ;;
  match existing with
  | Some existing => mergeLead now existing input
  | None =>
      (* Determine funnel *)
      let funnel := inferFunnel (in_client_type input) in
      (* Score *)
      let score := scoreLead input in
      (* Insert *)
      id <- fresh_id ;;
      let lead :=
        mkLead id (in_external_id input) (in_source input) funnel triagem
               (in_name input) (in_email input) (in_phone input) phoneNormalized
               (in_client_type input) (in_project_type input)
               (in_project_stage input) (in_location input)
               (in_estimated_deadline input) (in_estimated_ticket input) score
               (in_utm_source input) (in_utm_medium input)
               (in_utm_campaign input) (in_utm_content input)
               None None now now None None in
      execute (with_leads (fun rows => rows ++ [lead])) ;;;
      (* Log activity *)
      execute (with_activities (fun rows => rows ++
        [mkActivity id sla_start (DescLeadReceived (in_source input))
           (MetaLeadReceived (in_source input) (in_utm_campaign input))])) ;;;
      (* Sync to Pipedrive (async-safe) *)
      pipedriveDealId <-
        try_catch (deal <- syncToPipedrive lead ;; ret (Some deal))
                  (fun _ => ret None) ;;
      (* Start SLA timer *)
      try_catch (startSla now (lead_id lead) response_5min) (fun _ => ret tt) ;;;
      (* Notify SDR *)
      try_catch (notifyNewLead (lead_id lead) (name lead) (phone lead) (source lead)
                               (project_type lead) (location lead))
                (fun _ => ret tt) ;;;
      ret (mkResult lead true pipedriveDealId)
  end.

(** *** api/webhooks/meta.ts : POST /webhooks/meta, after the acknowledgement *)

(** [fields[field.name.toLowerCase()] = field.values[0] ?? ""], for every
    field in turn; the object is kept as an association list whose most
    recent binding comes first.  [lookup_field] is the property read
    [fields[k]] for the keys a plain object does not inherit (see
    [own_key]). *)
Definition extractLeadFields (fieldData : list (string * list string))
  : list (string * string) :=
  fold_left (fun fields field =>
               (toLowerCase (fst field),
                match snd field with v :: _ => v | [] => "" end) :: fields)
            fieldData [].

Fixpoint lookup_field (k : string) (fields : list (string * string)) : option string :=
  match fields with
  | [] => None
  | (k', v) :: rest => if (k' =? k)%string then Some v else lookup_field k rest
  end.

(** Text made of ASCII characters only, on which [toLowerCase] and the
    class [\s] of JavaScript are the ones followed here. *)
Fixpoint ascii_only (s : string) : bool :=
  match s with
  | EmptyString => true
  | String c rest => (nat_of_ascii c <? 128)%nat && ascii_only rest
  end.

(** The property names every plain object inherits from
    [Object.prototype]: reading one of them finds the inherited member
    when the object has no such key of its own, and an assignment to
    [__proto__] stores nothing. *)
Definition object_prototype_names : list string :=
  ["constructor"; "__proto__"; "hasOwnProperty"; "isPrototypeOf";
   "propertyIsEnumerable"; "toLocaleString"; "toString"; "valueOf";
   "__defineGetter__"; "__defineSetter__"; "__lookupGetter__"; "__lookupSetter__"].

(** A key that is found on a plain object only when it was stored. *)
Definition own_key (k : string) : bool :=
  negb (existsb (String.eqb k) object_prototype_names).

Definition mapProjectType (value : option string) : option ProjectType :=
  match value with
  | None => None
  | Some value =>
      if (value =? "")%string then None else
      let v := toLowerCase value in
      if includes v "resid" then Some residential
      else if includes v "comerc" then Some commercial
      else if includes v "corp" then Some corporate
      else None
  end.

Definition from_some (o : option string) (default : string) : string :=
  match o with Some v => v | None => default end.

(** The body of the inner loop: one entry of [entry.changes]. *)
Definition processChange (now : Instant) (change : Change) : M unit :=
  if negb (change_field change =? "leadgen")%string then ret tt else
  match leadgen_id change with
  | None => ret tt
  | Some leadgenId =>
      if (leadgenId =? "")%string then ret tt else
      let idempotencyKey := ("meta_" ++ leadgenId)%string in
      (* Dedup at webhook level *)
      isNew <- isNewWebhookEvent "meta_ads" "leadgen" idempotencyKey
                                 (change_value change) ;;
      if negb isNew then ret tt else
      try_catch
        ((* Fetch full lead data from Meta *)
         leadData <- match fetchLeadData E leadgenId with
                     | Some data => ret data
                     | None => throw (ApiError "meta")
                     end ;;
         let fields := extractLeadFields (field_data leadData) in
         ingestLead now
           (mkInput
              (from_some (or_else (lookup_field "full_name" fields)
                                  (lookup_field "nome" fields)) "Sem nome")
              (lookup_field "email" fields)
              (from_some (or_else (lookup_field "phone_number" fields)
                                  (lookup_field "telefone" fields)) "")
              src_meta_ads
              None
              (mapProjectType (or_else (lookup_field "tipo_projeto" fields)
                                       (lookup_field "project_type" fields)))
              None
              (or_else (lookup_field "city" fields) (lookup_field "cidade" fields))
              None None
              (Some "facebook") (Some "paid")
              (campaign_id leadData) (ad_id leadData)
              (Some leadgenId)) ;;;
         markWebhookStatus idempotencyKey processed None)
        (fun err =>
           markWebhookStatus idempotencyKey failed (Some (err_message err)))
  end.

Definition metaWebhookPost (now : Instant) (entries : list (list Change)) : M unit :=
  try_catch
    (for_each entries (fun changes => for_each changes (processChange now)))
    (fun _ => ret tt).

End Services.

(** ** Vocabulary of the properties *)

(** Primary keys are unique and every SLA row and execution points to a
    lead (the PRIMARY KEY and REFERENCES constraints of the schema). *)
Definition wf_db (d : Db) : Prop :=
  NoDup (map lead_id (leads d))
  /\ NoDup (map sla_id (sla_events d))
  /\ NoDup (map exec_id (follow_up_executions d))
  /\ (forall s, In s (sla_events d) -> In (sla_lead_id s) (map lead_id (leads d)))
  /\ (forall e, In e (follow_up_executions d) ->
                In (exec_lead_id e) (map lead_id (leads d))).

Definition count_sent (p : Sent -> bool) (w : World) : nat :=
  List.length (filter p (sent w)).

(** ** Fixtures: concrete environments, inputs and stores *)

(** Both groups configured, every connector call returns, Pipedrive and the
    Meta API answer, templates render to themselves. *)
Definition env_up : Env :=
  mkEnv (Some "sdr-group") (Some "ops-group") (Some "slack-hook")
        (fun _ _ => true) (fun _ _ => None)
        (fun _ => Some (11, 22))
        (fun _ => Some (mkMetaLead [("full_name", ["Ana"]); ("phone_number", ["11999998888"])]
                                   None None))
        (fun tpl _ => Some tpl).

Definition world0 : World := mkWorld empty_db [].

(** The lead of the scenario: Meta Ads, finishing stage, ticket 150000. *)
Definition scenario_input : RawLeadInput :=
  mkInput "Maria" None "11999998888" src_meta_ads None None (Some acabamentos)
          None None (Some 150000) None None None None None.

(** A contact without any usable phone, as the Meta handler builds it when
    the form carries no phone field. *)
Definition no_phone_input : RawLeadInput :=
  mkInput "Sem nome" None "" src_meta_ads None None None
          None None None (Some "facebook") (Some "paid") None None None.

Ltac monad_simpl :=
  unfold bind, ret, throw, try_catch, query, execute, fresh_id, run, result in *;
  simpl in *.


(** What a merge does to a nullable column: a column that was NULL takes
    the incoming value when that value is truthy and stays NULL otherwise;
    a column whose stored value counts as [kept] is left as it is. *)
Definition merge_rule {A : Type} (kept truthy : option A -> bool)
  (old new result : option A) : Prop :=
  (old = None -> result = if truthy new then new else None)
  /\ (kept old = true -> result = old).

Definition richer_input : RawLeadInput :=
  mkInput "Ana" (Some "ana@example.com") "11999998888" src_google_ads None None None
          None None (Some 150000) None None None None None.

(** A stored lead with an e-mail, and a later contact with another one. *)
Definition known_lead : Lead :=
  mkLead 0%nat None src_meta_ads fn_end_client triagem "Ana" (Some "ana@old.example")
         "11999998888" "5511999998888" None None None None None None 10
         None None None None None None 500 500 None None.

Definition known_world : World :=
  mkWorld (mkDb [known_lead] [] [] [] [] [] 1%nat) [].

(** A later contact for the same phone whose location is the empty string
    and whose ticket is 0: both are set, neither is truthy. *)
Definition blank_input : RawLeadInput :=
  mkInput "Ana" None "11999998888" src_google_ads None None None
          (Some "") None (Some 0) None None None None None.

(** The dedup key already has a row in [webhook_logs]. *)
Definition key_logged (key : string) (d : Db) : bool :=
  existsb (fun r => (wh_idempotency_key r =? key)%string) (webhook_logs d).

(** The store drops the connection once its id counter reaches 7. *)
Definition env_flaky_store : Env :=
  mkEnv (Some "sdr-group") (Some "ops-group") (Some "slack-hook")
        (fun _ _ => true)
        (fun _ d => if (next_id d =? 7)%nat then Some (PgError "08006") else None)
        (fun _ => Some (11, 22))
        (fun _ => Some (mkMetaLead [("full_name", ["Ana"]); ("phone_number", ["11999998888"])]
                                   None None))
        (fun tpl _ => Some tpl).

Definition leadgen_change : Change := mkChange "leadgen" (Some "4242") "{}".

Definition seen_world : World :=
  mkWorld (mkDb [] [] [] [mkWebhookLog "meta_ads" "leadgen" "{}" processed "meta_4242" None]
                [] [] 0%nat) [].

Definition failing_world : World :=
  mkWorld (mkDb [] [] [] [] [] [] 7%nat) [].

(** *** Vocabulary for the SLA engine *)

(** The group message, if any, that the loop body of [checkSlaBreaches]
    sends for a selected row. *)
Definition breach_notice (E : Env) (row : SlaEvent * Lead) : option Call :=
  if negb (notified (fst row)) then
    match configured (WHATSAPP_SDR_GROUP E) with
    | Some groupId =>
        Some (SendGroupMessage groupId
                (TSlaBreach (name (snd row)) (phone (snd row))
                            (sla_type (fst row)) (deadline_at (fst row))))
    | None => None
    end
  else None.

(** Whether that loop body reaches its [notified: true] update. *)
Definition notify_flag (E : Env) (row : SlaEvent * Lead) (w : World) : bool :=
  negb (notified (fst row))
  && match breach_notice E row with
     | Some c => connector_ok E (sent w) c
     | None => true
     end.

Definition mark_row (flag : bool) (s : SlaEvent) : SlaEvent :=
  mkSla (sla_id s) (sla_lead_id s) (sla_type s) (started_at s) (deadline_at s)
        (completed_at s) true (notified s || flag).

(** How a row of [sla_events] may differ after breach checks that touched
    the rows with the ids [touched]. *)
Definition sla_step (touched : list Id) (s s' : SlaEvent) : Prop :=
  sla_id s' = sla_id s /\ sla_lead_id s' = sla_lead_id s
  /\ sla_type s' = sla_type s /\ started_at s' = started_at s
  /\ deadline_at s' = deadline_at s /\ completed_at s' = completed_at s
  /\ (breached s = true -> breached s' = true)
  /\ (notified s = true -> notified s' = true)
  /\ (~ In (sla_id s) touched -> s' = s)
  /\ (In (sla_id s) touched -> breached s' = true).

(** The ids of the rows a breach check at [now] selects. *)
Definition selected_ids (now : Instant) (d : Db) : list Id :=
  map (fun row => sla_id (fst row)) (selectBreached now d).

(** Successive breach checks, one per clock reading, with what each selected. *)
Fixpoint poll (E : Env) (times : list Instant) (w : World) : list (list Id) * World :=
  match times with
  | [] => ([], w)
  | now :: rest =>
      let selected := selected_ids now (db w) in
      let polled := poll E rest (run (checkSlaBreaches E now) w) in
      (selected :: fst polled, snd polled)
  end.

(** Two breach checks that overlap: both selects run before either loop. *)
Definition overlappingChecks (E : Env) (now1 now2 : Instant) : M unit :=
  rows1 <- query (selectBreached now1) ;;
  rows2 <- query (selectBreached now2) ;;
  processBreached E rows1 ;;;
  processBreached E rows2 ;;;
  ret tt.

(** Breach notices attempted for the SLA row [k]. *)
Definition is_breach_notice (k : Id) (e : Sent) : bool :=
  (origin e =? k)%nat
  && match call e with
     | SendGroupMessage _ (TSlaBreach _ _ _ _) => true
     | _ => false
     end.

(** Slack alerts of a given severity attempted for the SLA row [k]. *)
Definition is_alert (sev : Severity) (k : Id) (e : Sent) : bool :=
  (origin e =? k)%nat
  && match call e, sev with
     | SendSlackAlert sev_warning _, sev_warning => true
     | SendSlackAlert sev_critical _, sev_critical => true
     | SendSlackAlert sev_info _, sev_info => true
     | _, _ => false
     end.

Definition get_sla (k : Id) (d : Db) : option SlaEvent :=
  find (fun s => (sla_id s =? k)%nat) (sla_events d).

(** A store with one lead and three timers: one whose deadline is far
    ahead, one overdue and open, one already breached. *)
Definition timer_ahead : SlaEvent := mkSla 1%nat 0%nat meeting_48h 0 1000000 None false false.
Definition timer_overdue : SlaEvent := mkSla 2%nat 0%nat response_5min 0 100 None false false.
Definition timer_breached : SlaEvent := mkSla 3%nat 0%nat response_5min 0 50 None true false.

Definition sla_world : World :=
  mkWorld (mkDb [known_lead] [] [timer_ahead; timer_overdue; timer_breached] [] [] [] 4%nat) [].

(** A store with one lead and a single timer, overdue and open. *)
Definition lone_timer_world : World :=
  mkWorld (mkDb [known_lead] [] [timer_overdue] [] [] [] 3%nat) [].

Definition Id_eq_dec : forall a b : Id, {a = b} + {a <> b} := Nat.eq_dec.

(** How often the id [k] occurs in a list of ids. *)
Definition occurrences (k : Id) (l : list Id) : nat := count_occ Id_eq_dec l k.

Definition notice_count (o : option Call) : nat :=
  match o with Some _ => 1%nat | None => 0%nat end.

(** Like [env_up], but every connector call throws. *)
Definition env_down : Env :=
  mkEnv (Some "sdr-group") (Some "ops-group") (Some "slack-hook")
        (fun _ _ => false) (fun _ _ => None)
        (fun _ => Some (11, 22)) (fun _ => None) (fun tpl _ => Some tpl).

(** Like [env_up], but no SDR group is configured. *)
Definition env_no_group : Env :=
  mkEnv None (Some "ops-group") (Some "slack-hook")
        (fun _ _ => true) (fun _ _ => None)
        (fun _ => Some (11, 22)) (fun _ => None) (fun tpl _ => Some tpl).

(** Breach notices attempted so far for the SLA row [k]. *)
Definition notices (k : Id) (w : World) : nat := count_sent (is_breach_notice k) w.

(** *** Vocabulary for the escalation chain *)

(** An escalation of the given kind is already on record for the timer. *)
Definition escalated (kind : ActivityType -> bool) (s : SlaEvent) (d : Db) : bool :=
  existsb kind (escalationActivities s d).

(** Slack alerts of a severity attempted so far for the SLA row [k]. *)
Definition alerts (sev : Severity) (k : Id) (w : World) : nat :=
  count_sent (is_alert sev k) w.

(** Poll cycles: a breach check, then an escalation check, each with its
    clock reading. *)
Fixpoint cycles (E : Env) (times : list (Instant * Instant)) (w : World) : World :=
  match times with
  | [] => w
  | (t_breach, t_escalation) :: rest =>
      cycles E rest
        (run (runEscalationCheck E t_escalation) (run (checkSlaBreaches E t_breach) w))
  end.

(** *** Properties of computations *)

(** The computation returns a value, whatever the world. *)
Definition returns {A : Type} (m : M A) : Prop :=
  forall w, exists a, fst (m w) = Ok a.

(** The computation relates the world before to the world after by [R],
    whether it returns or throws. *)
Definition keeps (R : World -> World -> Prop) {A : Type} (m : M A) : Prop :=
  forall w, R w (snd (m w)).

(** *** Vocabulary for the sequencing engine *)

(** Successive runs of [processDueFollowUps], one per clock reading. *)
Fixpoint run_due (E : Env) (times : list Instant) (w : World) : World :=
  match times with
  | [] => w
  | now :: rest => run_due E rest (run (processDueFollowUps E now) w)
  end.

(** Text messages attempted so far for the execution [k]. *)
Definition is_text (k : Id) (e : Sent) : bool :=
  (origin e =? k)%nat
  && match call e with SendTextMessage _ _ => true | _ => false end.

Definition dispatched (k : Id) (w : World) : nat := count_sent (is_text k) w.

Definition template_data (lead : Lead) : TemplateData :=
  mkTemplateData (name lead) (location lead) (project_type lead) (funnel lead).

(** The execution stands at step [c] with [due] as its next run, the
    sequence has exactly [length times] further steps, each of which
    renders for the lead, and each clock reading is at or after the run
    scheduled for it (the first at [due], every later one at the previous
    reading plus the delay of its step). *)
Fixpoint on_schedule (E : Env) (d : Db) (lead : Lead) (sequence : Id)
  (c : Z) (due : Instant) (times : list Instant) : Prop :=
  match times with
  | [] => find_step sequence (c + 1) d = None
  | now :: rest =>
      due <= now
      /\ (exists st message,
            find_step sequence (c + 1) d = Some st
            /\ handlebars E (template st) (template_data lead) = Some message)
      /\ on_schedule E d lead sequence (c + 1)
           match find_step sequence (c + 1 + 1) d with
           | Some next => now + delay_minutes next * 60000
           | None => now
           end
           rest
  end.

(** How many of the steps [c+1 .. c+n] of the sequence go out by WhatsApp. *)
Fixpoint whatsapp_steps (d : Db) (sequence : Id) (c : Z) (n : nat) : nat :=
  match n with
  | O => 0%nat
  | S n' =>
      (match find_step sequence (c + 1) d with
       | Some st => match step_channel st with ch_whatsapp => 1 | ch_email => 0 end
       | None => 0
       end + whatsapp_steps d sequence (c + 1) n')%nat
  end.

(** What the loop body of [processDueFollowUps] for the execution [j] may
    change: nothing in the steps and leads, no id of an execution, no other
    execution, no other execution's messages. *)
Definition exec_touch (j : Id) (w w' : World) : Prop :=
  follow_up_steps (db w') = follow_up_steps (db w)
  /\ leads (db w') = leads (db w)
  /\ sla_events (db w') = sla_events (db w)
  /\ map exec_id (follow_up_executions (db w')) = map exec_id (follow_up_executions (db w))
  /\ map exec_lead_id (follow_up_executions (db w'))
     = map exec_lead_id (follow_up_executions (db w))
  /\ (forall x, In x (follow_up_executions (db w)) -> exec_id x <> j ->
                In x (follow_up_executions (db w')))
  /\ (forall k, k <> j -> dispatched k w' = dispatched k w).

(** A sequence of one e-mail step, and an execution about to run it. *)
Definition email_sequence_world : World :=
  mkWorld (mkDb [known_lead] [] [] []
                [mkStep 7%nat 1 60 ch_email "Ola {{name}}"]
                [mkExec 5%nat 0%nat 7%nat 0 active (Some 3600000) None] 8%nat) [].

(** A sequence of two WhatsApp steps, and an execution about to run the first. *)
Definition two_step_world : World :=
  mkWorld (mkDb [known_lead] [] [] []
                [mkStep 7%nat 1 60 ch_whatsapp "Ola {{name}}";
                 mkStep 7%nat 2 1440 ch_whatsapp "{{name}}, tudo bem?"]
                [mkExec 5%nat 0%nat 7%nat 0 active (Some 3600000) None] 8%nat) [].

(** What no loop body of [processDueFollowUps] changes. *)
Definition exec_shape (w w' : World) : Prop :=
  follow_up_steps (db w') = follow_up_steps (db w)
  /\ leads (db w') = leads (db w)
  /\ sla_events (db w') = sla_events (db w)
  /\ map exec_id (follow_up_executions (db w')) = map exec_id (follow_up_executions (db w))
  /\ map exec_lead_id (follow_up_executions (db w'))
     = map exec_lead_id (follow_up_executions (db w)).

(** What the loop bodies for other executions leave alone, seen from [e]. *)
Definition exec_frame (e : FollowUpExecution) (w w' : World) : Prop :=
  exec_shape w w'
  /\ (In e (follow_up_executions (db w)) -> In e (follow_up_executions (db w')))
  /\ dispatched (exec_id e) w' = dispatched (exec_id e) w.


(** *** Vocabulary for the further properties *)

(** Every character of the string is a decimal digit. *)
Fixpoint all_digits (s : string) : bool :=
  match s with
  | EmptyString => true
  | String c rest => is_digit c && all_digits rest
  end.

(** What [normalizePhone] does to the digits once the rest is stripped. *)
Definition normalize_digits (digits : string) : string :=
  let digits :=
    if (String.length digits =? 10)%nat || (String.length digits =? 11)%nat
    then ("55" ++ digits)%string else digits in
  if (String.length digits =? 12)%nat && startsWith digits "55" then
    let ddd := substring digits 2 4 in
    let number := substring_from digits 4 in
    if (String.length number =? 8)%nat && negb (startsWith number "0")
    then ("55" ++ ddd ++ "9" ++ number)%string
    else digits
  else digits.


(** The input with another estimated ticket. *)
Definition with_ticket (t : option Z) (i : RawLeadInput) : RawLeadInput :=
  mkInput (in_name i) (in_email i) (in_phone i) (in_source i) (in_client_type i)
          (in_project_type i) (in_project_stage i) (in_location i)
          (in_estimated_deadline i) t (in_utm_source i) (in_utm_medium i)
          (in_utm_campaign i) (in_utm_content i) (in_external_id i).

(** A WhatsApp contact with nothing but a name and a phone, and an
    architect's referral with every qualification field filled. *)
Definition bare_input : RawLeadInput :=
  mkInput "Rui" None "11999998888" src_whatsapp None None None
          None None None None None None None None.

Definition full_input : RawLeadInput :=
  mkInput "Lia" (Some "lia@example.com") "11999998888" src_architect
          (Some ct_architect) (Some residential) (Some acabamentos)
          (Some "Sao Paulo") (Some "2026-03") (Some 250000)
          None None None None None.

(** *** Vocabulary for the further properties of the SLA engine *)

(** A store with an overdue open timer and a timer completed in time. *)
Definition timer_closed : SlaEvent :=
  mkSla 4%nat 0%nat response_5min 0 100 (Some 60) false false.

Definition closed_world : World :=
  mkWorld (mkDb [known_lead] [] [timer_overdue; timer_closed] [] [] [] 5%nat) [].

(** *** Vocabulary for the further properties of ingestion *)

(** Every id in use was handed out before: the next id is not in use. *)
Definition ids_fresh (d : Db) : Prop :=
  (forall l, In l (leads d) -> (lead_id l < next_id d)%nat)
  /\ (forall s, In s (sla_events d) -> (sla_id s < next_id d)%nat)
  /\ (forall e, In e (follow_up_executions d) -> (exec_id e < next_id d)%nat).

Definition store_ok (d : Db) : Prop := wf_db d /\ ids_fresh d.

(** No two leads share a normalized phone. *)
Definition phones_unique (d : Db) : Prop := NoDup (map phone_normalized (leads d)).

(** The dedup lookup of [ingestLead]. *)
Definition lead_of_phone (p : string) (d : Db) : option Lead :=
  find (fun l => (phone_normalized l =? p)%string) (leads d).

(** The row [ingestLead] inserts for a contact that is not known yet. *)
Definition new_lead (now : Instant) (id : Id) (input : RawLeadInput) : Lead :=
  mkLead id (in_external_id input) (in_source input)
         (inferFunnel (in_client_type input)) triagem
         (in_name input) (in_email input) (in_phone input)
         (normalizePhone (in_phone input))
         (in_client_type input) (in_project_type input)
         (in_project_stage input) (in_location input)
         (in_estimated_deadline input) (in_estimated_ticket input) (scoreLead input)
         (in_utm_source input) (in_utm_medium input)
         (in_utm_campaign input) (in_utm_content input)
         None None now now None None.

(** The row after [syncToPipedrive] has stored the person and deal ids. *)
Definition with_pipedrive (person deal : Z) (l : Lead) : Lead :=
  mkLead (lead_id l) (external_id l) (source l) (funnel l) (stage l) (name l)
         (email l) (phone l) (phone_normalized l) (client_type l)
         (project_type l) (project_stage l) (location l)
         (estimated_deadline l) (estimated_ticket l) (score l)
         (utm_source l) (utm_medium l) (utm_campaign l) (utm_content l)
         (Some deal) (Some person)
         (created_at l) (updated_at l) (qualified_at l) (closed_at l).

(** The world [ingestLead] leaves behind for a contact that is not known yet. *)
Definition after_new_lead (E : Env) (now : Instant) (input : RawLeadInput) (w : World)
  : World :=
  let id := next_id (db w) in
  let lead := new_lead now id input in
  mkWorld
    (mkDb (match pipedrive E lead with
           | Some (person, deal) =>
               update_where lead_id id (with_pipedrive person deal) (leads (db w) ++ [lead])
           | None => leads (db w) ++ [lead]
           end)
          (activities (db w) ++
             [mkActivity id sla_start (DescLeadReceived (in_source input))
                         (MetaLeadReceived (in_source input) (in_utm_campaign input))])
          (sla_events (db w) ++
             [mkSla (S id) id response_5min now (now + 5 * 60 * 1000) None false false])
          (webhook_logs (db w)) (follow_up_steps (db w)) (follow_up_executions (db w))
          (S (S id)))
    (sent w ++
       match configured (WHATSAPP_SDR_GROUP E) with
       | Some g =>
           let c := SendGroupMessage g
                      (TNewLead (in_name input) (in_phone input) (in_source input)
                                (in_project_type input)
                                (if truthy_str (in_location input)
                                 then in_location input else None)) in
           [mkSent id c (connector_ok E (sent w) c)]
       | None => []
       end).

(** Like [env_up], but Pipedrive and every connector call throw. *)
Definition env_offline : Env :=
  mkEnv (Some "sdr-group") (Some "ops-group") (Some "slack-hook")
        (fun _ _ => false) (fun _ _ => None)
        (fun _ => None) (fun _ => None) (fun tpl _ => Some tpl).

(** ** api/webhooks/pipedrive.ts : completed activities *)

(** [where("pipedrive_deal_id", "=", dealId)] *)
Definition has_deal (dealId : Z) (l : Lead) : bool :=
  match pipedrive_deal_id l with Some k => k =? dealId | None => false end.

Definition handleActivityCompleted (now : Instant) (dealId : Z) (activityType : string)
  : M unit :=
  lead <- query (fun d => find (has_deal dealId) (leads d)) ;;
  match lead with
  | None => ret tt
  | Some lead =>
      (* Map Pipedrive activity types to SLA completions *)
      if (activityType =? "call")%string || (activityType =? "email")%string then
        completeSla now (lead_id lead) response_5min
      else if (activityType =? "meeting")%string then
        completeSla now (lead_id lead) meeting_48h ;;;
        (* Start proposal SLA *)
        startSla now (lead_id lead) proposal_72h
      else ret tt
  end.

(** ** services/follow-up-sequences.ts : starting a sequence *)

(** A row of [follow_up_sequences].  The services only read this table, so
    it is handed to them as the list of its rows. *)
Record FollowUpSequence := mkSequence {
  seq_id : Id;
  seq_name : string;
  seq_funnel : Funnel;
  seq_active : bool
}.

Definition Funnel_eq_dec (a b : Funnel) : {a = b} + {a <> b}.
Proof. decide equality. Defined.

(** Check for existing active sequence *)
Definition find_active (leadId : Id) (d : Db) : option FollowUpExecution :=
  find (fun e => (exec_lead_id e =? leadId)%nat && is_active (exec_status e))
       (follow_up_executions d).

(** Find the sequence for this funnel *)
Definition find_sequence (sequences : list FollowUpSequence) (f : Funnel)
  : option FollowUpSequence :=
  find (fun s => (if Funnel_eq_dec (seq_funnel s) f then true else false) && seq_active s)
       sequences.

Definition startSequenceForLead (sequences : list FollowUpSequence) (now : Instant)
  (lead : Lead) : M unit :=
  existing <- query (find_active (lead_id lead)) ;;
  match existing with
  | Some _ => ret tt
  | None =>
      match find_sequence sequences (funnel lead) with
      | None => ret tt
      | Some sequence =>
          (* Get first step to calculate next_run_at *)
          firstStep <- query (find_step (seq_id sequence) 1) ;;
          match firstStep with
          | None => ret tt
          | Some firstStep =>
              let nextRunAt := now + delay_minutes firstStep * 60000 in
              id <- fresh_id ;;
              execute (with_executions (fun rows => rows ++
                [mkExec id (lead_id lead) (seq_id sequence) 0 active (Some nextRunAt) None]))
          end
      end
  end.

(** *** Vocabulary for the invariants of the store *)

(** The computation step keeps the store consistent. *)
Definition ok_step (w w' : World) : Prop := store_ok (db w) -> store_ok (db w').

(** The primary and foreign keys of the store, and its id counter. *)
Definition same_keys (d d' : Db) : Prop :=
  map lead_id (leads d') = map lead_id (leads d)
  /\ map sla_id (sla_events d') = map sla_id (sla_events d)
  /\ map sla_lead_id (sla_events d') = map sla_lead_id (sla_events d)
  /\ map exec_id (follow_up_executions d') = map exec_id (follow_up_executions d)
  /\ map exec_lead_id (follow_up_executions d') = map exec_lead_id (follow_up_executions d)
  /\ next_id d' = next_id d.

(** How many active executions the lead has. *)
Definition active_count (leadId : Id) (d : Db) : nat :=
  List.length (filter (fun e => (exec_lead_id e =? leadId)%nat && is_active (exec_status e))
                      (follow_up_executions d)).

Definition one_active_per_lead (d : Db) : Prop :=
  forall leadId, (active_count leadId d <= 1)%nat.

(** Row by row, no execution changes its lead or becomes active. *)
Definition never_activates (w w' : World) : Prop :=
  Forall2 (fun e e' => exec_lead_id e' = exec_lead_id e
                       /\ (is_active (exec_status e') = true ->
                           is_active (exec_status e) = true))
          (follow_up_executions (db w)) (follow_up_executions (db w')).

(** The three sequences of the seed migration. *)
Definition seeded_sequences : list FollowUpSequence :=
  [ mkSequence 1%nat "Cliente Final" fn_end_client true;
    mkSequence 2%nat "Arquitetos" fn_architects true;
    mkSequence 3%nat "Incorporadores" fn_developers true ].

(** A lead, the first step of the end-client sequence, and no execution. *)
Definition seeded_world : World :=
  mkWorld (mkDb [known_lead] [] [] []
                [mkStep 1%nat 1 60 ch_whatsapp "Ola {{name}}!";
                 mkStep 1%nat 2 1440 ch_whatsapp "Ola {{name}}, tudo bem?"]
                [] 1%nat) [].

(** The step leaves the keys and the id counter of the store as they are. *)
Definition keys_kept (w w' : World) : Prop := same_keys (db w) (db w').

(** *** Vocabulary for the further properties of the Meta handler *)

(** The contact the handler builds from what the Graph API returned. *)
Definition meta_input (leadgenId : string) (leadData : MetaLeadData) : RawLeadInput :=
  let fields := extractLeadFields (field_data leadData) in
  mkInput
    (from_some (or_else (lookup_field "full_name" fields)
                        (lookup_field "nome" fields)) "Sem nome")
    (lookup_field "email" fields)
    (from_some (or_else (lookup_field "phone_number" fields)
                        (lookup_field "telefone" fields)) "")
    src_meta_ads
    None
    (mapProjectType (or_else (lookup_field "tipo_projeto" fields)
                             (lookup_field "project_type" fields)))
    None
    (or_else (lookup_field "city" fields) (lookup_field "cidade" fields))
    None None
    (Some "facebook") (Some "paid")
    (campaign_id leadData) (ad_id leadData)
    (Some leadgenId).

(** The log row of a leadgen change, with a status and an error text. *)
Definition leadgen_row (change : Change) (leadgenId : string) (st : WebhookStatus)
  (err : option string) : WebhookLog :=
  mkWebhookLog "meta_ads" "leadgen" (change_value change) st
               ("meta_" ++ leadgenId)%string err.

(** The world once the guard has logged the change. *)
Definition logged (change : Change) (leadgenId : string) (w : World) : World :=
  mkWorld (with_webhook_logs
             (fun rows => rows ++ [leadgen_row change leadgenId received None]) (db w))
          (sent w).

(** Like [env_up], but the Graph API throws. *)
Definition env_meta_down : Env :=
  mkEnv (Some "sdr-group") (Some "ops-group") (Some "slack-hook")
        (fun _ _ => true) (fun _ _ => None)
        (fun _ => Some (11, 22)) (fun _ => None) (fun tpl _ => Some tpl).

(** The store rejects every insert into [webhook_logs] with a
    connection failure. *)
Definition env_store_down : Env :=
  mkEnv (Some "sdr-group") (Some "ops-group") (Some "slack-hook")
        (fun _ _ => true) (fun _ _ => Some (PgError "08006"))
        (fun _ => Some (11, 22))
        (fun _ => Some (mkMetaLead [("full_name", ["Ana"]); ("phone_number", ["11999998888"])]
                                   None None))
        (fun tpl _ => Some tpl).

Definition other_change : Change := mkChange "leadgen" (Some "4343") "{}".

(** The activity the loop body of [checkSlaBreaches] logs for a selected row. *)
Definition breach_activity (row : SlaEvent * Lead) : Activity :=
  mkActivity (sla_lead_id (fst row)) sla_breach
             (DescSlaBreached (SLA_LABELS (sla_type (fst row))))
             (MetaSlaBreach (sla_type (fst row)) (deadline_at (fst row))).

(** Every stored lead carries the normalization of its own phone. *)
Definition phones_normalized (d : Db) : Prop :=
  forall l, In l (leads d) -> phone_normalized l = normalizePhone (phone l).

(** While the leads are [L], the step keeps them and only sends text
    messages, each to the number [sendTextMessage] derives from the
    normalized phone of one of them. *)
Definition texts_go_to (L : list Lead) (w w' : World) : Prop :=
  leads (db w) = L ->
  leads (db w') = L
  /\ exists tail,
       sent w' = sent w ++ tail
       /\ Forall (fun e => exists l text,
                    In l L
                    /\ call e = SendTextMessage (normalizePhone (phone_normalized l)) text)
                 tail.

(** ** connectors/google/client.ts and api/webhooks/google.ts *)

(** One element of [column_data]. *)
Record GoogleColumn := mkColumn {
  column_id : string;
  string_value : option string;
  column_name : option string
}.

(** [GoogleLeadPayload] (the fields that are read). *)
Record GoogleLeadPayload := mkGooglePayload {
  google_key : string;
  g_lead_id : option string;
  g_campaign_id : option string;
  g_creative_id : option string;
  column_data : list GoogleColumn;
  g_body : string                       (* the payload, an opaque JSON blob *)
}.

(** Verify Google Ads webhook secret via header token.  The comparison of
    the two buffers throws when their byte lengths differ; [None] is that
    throw. *)
Definition verifyGoogleWebhook (token : option string) (expectedSecret : string)
  : option bool :=
  match token with
  | None => Some false
  | Some token =>
      if (token =? "")%string || (expectedSecret =? "")%string then Some false
      else if (String.length token =? String.length expectedSecret)%nat
           then Some (token =? expectedSecret)%string
           else None
  end.

(** The class [\s], followed on ASCII text: space, tab, line feed,
    vertical tab, form feed, carriage return.  The JavaScript class also
    holds characters outside ASCII (see [ascii_only]). *)
Definition is_space (c : ascii) : bool :=
  let n := nat_of_ascii c in
  (n =? 32)%nat || ((9 <=? n)%nat && (n <=? 13)%nat).

(** [s.replace(/\s+/g, "_")]; [in_run] tells that the previous character
    was white space. *)
Fixpoint replace_spaces_from (in_run : bool) (s : string) : string :=
  match s with
  | EmptyString => EmptyString
  | String c rest =>
      if is_space c then
        if in_run then replace_spaces_from true rest
        else String "_"%char (replace_spaces_from true rest)
      else String c (replace_spaces_from false rest)
  end.

Definition replace_spaces (s : string) : string := replace_spaces_from false s.

(** [col.column_name ?? col.column_id] *)
Definition column_key (col : GoogleColumn) : string :=
  from_some (column_name col) (column_id col).

Definition google_field (col : GoogleColumn) : string * string :=
  (replace_spaces (toLowerCase (column_key col)),
   from_some (string_value col) "").

(** Extract fields from Google Lead Form extension data; the object is
    kept as an association list whose most recent binding comes first. *)
Definition extractGoogleLeadFields (columnData : list GoogleColumn)
  : list (string * string) :=
  fold_left (fun fields col => google_field col :: fields) columnData [].

(** How the route handler ends: it answers with a status, or it throws
    before it has answered. *)
Inductive Response := Status (code : Z) | ThrowsUnanswered.

Definition google_input (payload : GoogleLeadPayload) : RawLeadInput :=
  let fields := extractGoogleLeadFields (column_data payload) in
  mkInput
    (from_some (or_else (lookup_field "full_name" fields)
                        (lookup_field "nome" fields)) "Sem nome")
    (or_else (lookup_field "email" fields) (lookup_field "user_email" fields))
    (from_some (or_else (lookup_field "phone_number" fields)
                        (lookup_field "telefone" fields)) "")
    src_google_ads
    None None None
    (or_else (lookup_field "city" fields) (lookup_field "cidade" fields))
    None None
    (Some "google") (Some "paid")
    (g_campaign_id payload) (g_creative_id payload)
    (g_lead_id payload).

(** POST /webhooks/google.  [token] is the header or query token, [secret]
    the configured secret or the empty string. *)
Definition googleWebhookPost (E : Env) (now : Instant) (token : option string)
  (secret : string) (payload : GoogleLeadPayload) : M Response :=
  (* Verify token *)
  match verifyGoogleWebhook token secret with
  | None => ret ThrowsUnanswered
  | Some false => ret (Status 403)
  | Some true =>
      try_catch
        (let idempotencyKey :=
           ("google_" ++ from_some (g_lead_id payload) (google_key payload))%string in
         isNew <- isNewWebhookEvent E "google_ads" "lead_form" idempotencyKey
                                    (g_body payload) ;;
         if negb isNew then ret tt else
         ingestLead E now (google_input payload) ;;;
         markWebhookStatus idempotencyKey processed None)
        (fun _ => ret tt) ;;;
      ret (Status 200)
  end.

(** A payload of two columns, and the secret of the fixtures. *)
Definition google_payload : GoogleLeadPayload :=
  mkGooglePayload "gk-1" (Some "777") (Some "camp-9") None
    [mkColumn "FULL_NAME" (Some "Bia") None;
     mkColumn "c2" (Some "11988887777") (Some "Phone  Number")]
    "{}".

(** The log row of a Google lead form, with a status. *)
Definition google_row (payload : GoogleLeadPayload) (st : WebhookStatus) : WebhookLog :=
  mkWebhookLog "google_ads" "lead_form" (g_body payload) st
               ("google_" ++ from_some (g_lead_id payload) (google_key payload))%string
               None.

(** Some character of the string satisfies [p]. *)
Fixpoint any_char (p : ascii -> bool) (s : string) : bool :=
  match s with
  | EmptyString => false
  | String c rest => p c || any_char p rest
  end.
(** ** Phone normalization *)

(** C8. The three reference equations of phone normalization hold: an
    11-digit number gets the country code, a legacy 10-digit number gets the
    country code and the ninth digit, and punctuation is stripped. *)
Theorem normalizePhone_reference_equations :
  normalizePhone "11999887766" = "5511999887766"
  /\ normalizePhone "1198765432" = "5511998765432"
  /\ normalizePhone "+55 (11) 99988-7766" = "5511999887766".
Proof. repeat split; reflexivity. Qed.

(** ** Lead ingestion *)

Lemma update_where_in {A : Type} (key : A -> Id) (k : Id) (f : A -> A) (l : list A) (x : A) :
  In x l -> key x = k -> In (f x) (update_where key k f l).
Proof.
  intros Hin Hk. unfold update_where.
  apply in_map_iff. exists x. split; [| exact Hin].
  rewrite Hk, Nat.eqb_refl. reflexivity.
Qed.

Lemma update_where_length {A : Type} (key : A -> Id) (k : Id) (f : A -> A) (l : list A) :
  List.length (update_where key k f l) = List.length l.
Proof. unfold update_where. apply length_map. Qed.

(** C6, as the code has it.  The scenario lead is created with score 54:
    10 for the source, 20 for the stage, 20 for the ticket and 4 for two
    filled fields out of seven.  A response_5min timer is started whose
    deadline is five minutes after the clock reading, and the new-lead
    notice goes to the SDR group once when that group is configured. *)
Theorem ingest_scenario_new_lead (E : Env) (now : Instant) (input : RawLeadInput) (w : World) :
  in_source input = src_meta_ads ->
  in_phone input = "11999998888" ->
  in_project_stage input = Some acabamentos ->
  in_estimated_ticket input = Some 150000 ->
  in_email input = None -> in_client_type input = None ->
  in_project_type input = None -> in_location input = None ->
  in_estimated_deadline input = None ->
  find (fun l => (phone_normalized l =? "5511999998888")%string) (leads (db w)) = None ->
  exists r w',
    ingestLead E now input w = (Ok r, w')
    /\ isNew r = true
    /\ score (res_lead r) = 54
    /\ (exists stored, In stored (leads (db w'))
                       /\ lead_id stored = lead_id (res_lead r) /\ score stored = 54)
    /\ (exists k, sla_events (db w') =
                  sla_events (db w) ++
                  [mkSla k (lead_id (res_lead r)) response_5min now
                         (now + 5 * 60 * 1000) None false false])
    /\ (exists tail, sent w' = sent w ++ tail
                     /\ map call tail =
                        match configured (WHATSAPP_SDR_GROUP E) with
                        | Some g => [SendGroupMessage g
                                       (TNewLead (in_name input) "11999998888"
                                                 src_meta_ads None None)]
                        | None => []
                        end).
Proof.
  destruct input; simpl. intros -> -> -> -> -> -> -> -> -> Hfind.
  unfold ingestLead. simpl in_phone.
  change (normalizePhone "11999998888") with "5511999998888".
  monad_simpl. rewrite Hfind.
  unfold syncToPipedrive, startSla, notifyNewLead, connector. monad_simpl.
  set (lead := mkLead (next_id (db w)) _ _ _ _ _ _ _ _ _ _ _ _ _ _ _ _ _ _ _ _ _ _ _ _ _).
  assert (Hscore : score lead = 54) by reflexivity.
  destruct (pipedrive E lead) as [[person deal]|]; simpl;
    destruct (configured (WHATSAPP_SDR_GROUP E)) as [g|]; simpl;
    try destruct (connector_ok E (sent w) _); simpl;
    eexists; eexists; (split; [reflexivity|]); simpl;
    (split; [reflexivity|]); (split; [reflexivity|]).
  all: split;
    [ first
        [ eexists; split;
          [ apply (update_where_in lead_id (next_id (db w)) _ _ lead);
            [apply in_or_app; right; left; reflexivity | reflexivity]
          | split; reflexivity ]
        | exists lead; split;
          [ apply in_or_app; right; left; reflexivity | split; reflexivity ] ]
    | split; [ eexists; reflexivity | ] ].
  all: try (eexists; split; [reflexivity | reflexivity]).
  all: exists []; rewrite app_nil_r; split; reflexivity.
Qed.

Lemma ingest_scenario_new_lead_witness :
  exists r w',
    ingestLead env_up 1000 scenario_input world0 = (Ok r, w')
    /\ isNew r = true /\ score (res_lead r) = 54.
Proof.
  destruct (ingest_scenario_new_lead env_up 1000 scenario_input world0)
    as (r & w' & Hrun & Hnew & Hscore & _); try reflexivity.
  exists r, w'. repeat split; assumption.
Defined.

(** C6 as stated fails: the lead of the scenario is created, with a score
    below 80. *)
Lemma scenario_score_below_80 :
  exists r w',
    ingestLead env_up 1000 scenario_input world0 = (Ok r, w')
    /\ isNew r = true
    /\ ~ (80 <= score (res_lead r)).
Proof.
  eexists; eexists. split; [vm_compute; reflexivity |].
  split; [reflexivity |]. simpl. lia.
Qed.

(** C7, as the code has it.  [ingestLead] does not validate the normalized
    phone: when normalization yields the empty string and no lead carries
    the empty normalized phone yet, the call returns normally, reports a new
    lead and stores a lead whose normalized phone is empty. *)
Theorem empty_phone_creates_lead (E : Env) (now : Instant) (input : RawLeadInput) (w : World) :
  normalizePhone (in_phone input) = "" ->
  find (fun l => (phone_normalized l =? "")%string) (leads (db w)) = None ->
  exists r w',
    ingestLead E now input w = (Ok r, w')
    /\ isNew r = true
    /\ phone_normalized (res_lead r) = ""
    /\ List.length (leads (db w')) = S (List.length (leads (db w)))
    /\ (exists stored, In stored (leads (db w')) /\ phone_normalized stored = "").
Proof.
  intros Hphone Hfind.
  unfold ingestLead. rewrite Hphone. monad_simpl. rewrite Hfind.
  unfold syncToPipedrive, startSla, notifyNewLead, connector. monad_simpl.
  set (lead := mkLead (next_id (db w)) _ _ _ _ _ _ _ _ _ _ _ _ _ _ _ _ _ _ _ _ _ _ _ _ _).
  destruct (pipedrive E lead) as [[person deal]|]; simpl;
    destruct (configured (WHATSAPP_SDR_GROUP E)) as [g|]; simpl;
    try destruct (connector_ok E (sent w) _); simpl;
    eexists; eexists; (split; [reflexivity|]); simpl;
    (split; [reflexivity|]); (split; [reflexivity|]).
  all: split;
    [ try rewrite update_where_length; rewrite length_app; simpl; lia | ].
  all: first
    [ eexists; split;
      [ apply (update_where_in lead_id (next_id (db w)) _ _ lead);
        [apply in_or_app; right; left; reflexivity | reflexivity]
      | reflexivity ]
    | exists lead; split;
      [ apply in_or_app; right; left; reflexivity | reflexivity ] ].
Qed.

Lemma empty_phone_creates_lead_witness :
  exists r w',
    ingestLead env_up 1000 no_phone_input world0 = (Ok r, w')
    /\ isNew r = true /\ phone_normalized (res_lead r) = "".
Proof.
  destruct (empty_phone_creates_lead env_up 1000 no_phone_input world0)
    as (r & w' & Hrun & Hnew & Hphone & _); try reflexivity.
  exists r, w'. repeat split; assumption.
Defined.

(** C7 as stated fails: a contact whose phone normalizes to the empty
    string is not rejected; a lead is stored for it. *)
Lemma empty_phone_is_not_rejected :
  normalizePhone (in_phone no_phone_input) = ""
  /\ exists r w',
       ingestLead env_up 1000 no_phone_input world0 = (Ok r, w')
       /\ map phone_normalized (leads (db w')) = [""].
Proof.
  split; [reflexivity |].
  eexists; eexists. split; vm_compute; reflexivity.
Qed.

(** *** Lookups by primary key *)

Lemma find_by_key {A : Type} (key : A -> Id) (l : list A) (x : A) :
  NoDup (map key l) -> In x l ->
  find (fun r => (key r =? key x)%nat) l = Some x.
Proof.
  induction l as [|a l IH]; simpl; intros Hnd Hin; [contradiction |].
  inversion Hnd as [|? ? Hnotin Hnd']; subst.
  destruct Hin as [-> | Hin].
  - rewrite Nat.eqb_refl. reflexivity.
  - destruct (Nat.eqb_spec (key a) (key x)) as [Heq | _].
    + exfalso. apply Hnotin. rewrite Heq. apply in_map. exact Hin.
    + apply IH; assumption.
Qed.

Lemma update_where_keys {A : Type} (key : A -> Id) (k : Id) (f : A -> A) (l : list A) :
  (forall r, key (f r) = key r) ->
  map key (update_where key k f l) = map key l.
Proof.
  intros Hf. unfold update_where. rewrite map_map. apply map_ext.
  intros r. destruct (key r =? k)%nat; [apply Hf | reflexivity].
Qed.

Lemma find_updated_by_key {A : Type} (key : A -> Id) (f : A -> A) (l : list A) (x : A) :
  (forall r, key (f r) = key r) ->
  NoDup (map key l) -> In x l ->
  find (fun r => (key r =? key x)%nat) (update_where key (key x) f l) = Some (f x).
Proof.
  intros Hf Hnd Hin.
  pose proof (find_by_key key (update_where key (key x) f l) (f x)) as H.
  rewrite Hf in H. apply H.
  - rewrite update_where_keys by exact Hf. exact Hnd.
  - apply update_where_in; [exact Hin | reflexivity].
Qed.

Lemma or_else_merge_rule {A : Type} (stored truthy : option A -> bool) (old new : option A) :
  stored None = false ->
  merge_rule stored truthy old new (or_else (merge_field stored truthy old new) old).
Proof.
  intros Hnone. unfold merge_rule, merge_field. split.
  - intros ->. rewrite Hnone. cbn [negb andb].
    destruct (truthy new); [destruct new |]; reflexivity.
  - intros Hkept. rewrite Hkept. reflexivity.
Qed.

Lemma update_keys_short (u : LeadUpdates) :
  (1 <? List.length (update_keys u))%nat = false ->
  up_email u = None /\ up_client_type u = None /\ up_project_type u = None
  /\ up_project_stage u = None /\ up_location u = None
  /\ up_estimated_ticket u = None.
Proof.
  destruct u as [t e c p s l k]. unfold update_keys. simpl.
  destruct e, c, p, s, l, k; simpl; intros H; try discriminate H;
    repeat split; reflexivity.
Qed.

(** C5, as the code has it.  When the phone resolves to an existing lead,
    no lead is added, and for each of the six candidate fields: a field
    that is null on the stored lead takes the incoming value when that
    value is truthy (neither null, nor the empty string, nor zero) and
    stays null otherwise; a stored non-empty e-mail or location, a stored
    client type, project type or project stage, and a stored ticket (any
    number, zero included) are left as they are.  In particular a stored
    non-empty e-mail survives any incoming e-mail. *)
Theorem merge_fills_unset_fields_only
  (E : Env) (now : Instant) (input : RawLeadInput) (w : World) (existing : Lead) :
  NoDup (map lead_id (leads (db w))) ->
  find (fun l => (phone_normalized l =? normalizePhone (in_phone input))%string)
       (leads (db w)) = Some existing ->
  exists r w',
    ingestLead E now input w = (Ok r, w')
    /\ isNew r = false
    /\ In (res_lead r) (leads (db w'))
    /\ lead_id (res_lead r) = lead_id existing
    /\ List.length (leads (db w')) = List.length (leads (db w))
    /\ merge_rule truthy_str truthy_str
         (email existing) (in_email input) (email (res_lead r))
    /\ merge_rule truthy_opt truthy_opt
         (client_type existing) (in_client_type input) (client_type (res_lead r))
    /\ merge_rule truthy_opt truthy_opt
         (project_type existing) (in_project_type input) (project_type (res_lead r))
    /\ merge_rule truthy_opt truthy_opt
         (project_stage existing) (in_project_stage input) (project_stage (res_lead r))
    /\ merge_rule truthy_str truthy_str
         (location existing) (in_location input) (location (res_lead r))
    /\ merge_rule truthy_opt truthy_num
         (estimated_ticket existing) (in_estimated_ticket input)
         (estimated_ticket (res_lead r))
    /\ (forall e, email existing = Some e -> e <> "" -> email (res_lead r) = Some e).
Proof.
  intros Hnd Hfind.
  assert (Hin : In existing (leads (db w))) by (apply find_some in Hfind; tauto).
  pose proof (or_else_merge_rule truthy_str truthy_str
                (email existing) (in_email input) eq_refl) as R1.
  pose proof (or_else_merge_rule truthy_opt truthy_opt
                (client_type existing) (in_client_type input) eq_refl) as R2.
  pose proof (or_else_merge_rule truthy_opt truthy_opt
                (project_type existing) (in_project_type input) eq_refl) as R3.
  pose proof (or_else_merge_rule truthy_opt truthy_opt
                (project_stage existing) (in_project_stage input) eq_refl) as R4.
  pose proof (or_else_merge_rule truthy_str truthy_str
                (location existing) (in_location input) eq_refl) as R5.
  pose proof (or_else_merge_rule truthy_opt truthy_num
                (estimated_ticket existing) (in_estimated_ticket input) eq_refl) as R6.
  assert (Hkeep : forall res,
             merge_rule truthy_str truthy_str (email existing) (in_email input) res ->
             forall e, email existing = Some e -> e <> "" -> res = Some e).
  { intros res (_ & Hk) e He Hne. rewrite <- He. apply Hk. rewrite He. simpl.
    destruct (String.eqb_spec e ""); [contradiction | reflexivity]. }
  unfold ingestLead, bind at 1. unfold query at 1. rewrite Hfind.
  unfold mergeLead.
  set (u := merge_updates now existing input).
  unfold bind, query, execute, ret.
  destruct (1 <? List.length (update_keys u))%nat eqn:Hkeys; cbn [db leads with_leads with_activities].
  - rewrite (find_updated_by_key lead_id (apply_updates u) _ existing);
      [| reflexivity | exact Hnd | exact Hin].
    eexists; eexists. split; [reflexivity |]. cbn [res_lead isNew].
    split; [reflexivity |].
    split; [apply update_where_in; [exact Hin | reflexivity] |].
    split; [reflexivity |].
    split; [apply update_where_length |].
    split; [exact R1 |]. split; [exact R2 |]. split; [exact R3 |].
    split; [exact R4 |]. split; [exact R5 |]. split; [exact R6 |].
    exact (Hkeep _ R1).
  - rewrite (find_by_key lead_id _ existing Hnd Hin).
    eexists; eexists. split; [reflexivity |]. cbn [res_lead isNew].
    split; [reflexivity |]. split; [exact Hin |].
    split; [reflexivity |]. split; [reflexivity |].
    destruct (update_keys_short u Hkeys) as (H1 & H2 & H3 & H4 & H5 & H6).
    unfold u, merge_updates in H1, H2, H3, H4, H5, H6.
    cbn [up_email up_client_type up_project_type up_project_stage up_location
         up_estimated_ticket] in H1, H2, H3, H4, H5, H6.
    rewrite H1 in R1. rewrite H2 in R2. rewrite H3 in R3.
    rewrite H4 in R4. rewrite H5 in R5. rewrite H6 in R6.
    cbn [or_else] in R1, R2, R3, R4, R5, R6.
    split; [exact R1 |]. split; [exact R2 |]. split; [exact R3 |].
    split; [exact R4 |]. split; [exact R5 |]. split; [exact R6 |].
    exact (Hkeep _ R1).
Qed.

Lemma merge_fills_unset_fields_only_witness :
  exists r w',
    ingestLead env_up 1000 richer_input known_world = (Ok r, w')
    /\ isNew r = false
    /\ email (res_lead r) = Some "ana@old.example"
    /\ estimated_ticket (res_lead r) = Some 150000.
Proof.
  destruct (merge_fills_unset_fields_only env_up 1000 richer_input known_world known_lead)
    as (r & w' & Hrun & Hnew & _ & _ & _ & _ & _ & _ & _ & _ & (Hticket & _) & Hemail).
  - simpl. constructor; [intros [] | constructor].
  - reflexivity.
  - exists r, w'. split; [exact Hrun |]. split; [exact Hnew |].
    split; [apply (Hemail "ana@old.example"); [reflexivity | discriminate] |].
    apply Hticket. reflexivity.
Defined.

(** C5 as stated fails: the stored lead has neither a location nor a
    ticket, the incoming contact carries both (an empty location and a
    ticket of 0, neither of them null), yet the merge copies neither. *)
Lemma merge_skips_falsy_incoming :
  location known_lead = None /\ estimated_ticket known_lead = None
  /\ in_location blank_input = Some "" /\ in_estimated_ticket blank_input = Some 0
  /\ exists r w',
       ingestLead env_up 1000 blank_input known_world = (Ok r, w')
       /\ map location (leads (db w')) = [None]
       /\ map estimated_ticket (leads (db w')) = [None].
Proof.
  split; [reflexivity |]. split; [reflexivity |].
  split; [reflexivity |]. split; [reflexivity |].
  eexists; eexists. repeat split; vm_compute; reflexivity.
Qed.

(** ** Idempotency guard *)

Lemma guard_on_logged_key (E : Env) (src ty key payload : string) (w : World) :
  key_logged key (db w) = true ->
  run (isNewWebhookEvent E src ty key payload) w = w
  /\ result (isNewWebhookEvent E src ty key payload) w <> Ok true.
Proof.
  unfold key_logged. intros Hlogged.
  unfold isNewWebhookEvent, insert_webhook_log, run, result, try_catch, bind, ret, throw.
  simpl. destruct (store_fault E _ (db w)) as [e|]; simpl.
  - destruct (code_is e "23505"); simpl; split; try reflexivity; discriminate.
  - rewrite Hlogged. simpl. split; [reflexivity | discriminate].
Qed.

Lemma markWebhookStatus_keeps_keys (key key' : string) (st : WebhookStatus)
  (err : option string) (w : World) :
  key_logged key' (db (run (markWebhookStatus key st err) w)) = key_logged key' (db w)
  /\ leads (db (run (markWebhookStatus key st err) w)) = leads (db w).
Proof.
  unfold markWebhookStatus, key_logged. monad_simpl. split; [| reflexivity].
  induction (webhook_logs (db w)) as [|r rows IH]; simpl; [reflexivity |].
  rewrite IH. destruct (wh_idempotency_key r =? key)%string; reflexivity.
Qed.

Lemma markWebhookStatus_ok (key : string) (st : WebhookStatus) (err : option string)
  (w : World) :
  markWebhookStatus key st err w = (Ok tt, run (markWebhookStatus key st err) w).
Proof. reflexivity. Qed.

Lemma ingestLead_keeps_webhook_logs (E : Env) (now : Instant) (input : RawLeadInput)
  (w : World) :
  webhook_logs (db (run (ingestLead E now input) w)) = webhook_logs (db w).
Proof.
  unfold ingestLead, mergeLead, syncToPipedrive, startSla, notifyNewLead, connector.
  unfold run, bind, query, execute, ret, throw, try_catch, fresh_id.
  cbn [db].
  destruct (find _ (leads (db w))) as [existing|].
  - destruct (1 <? _)%nat; cbn;
      destruct (find _ _); reflexivity.
  - cbn. destruct (pipedrive E _) as [[person deal]|]; cbn;
      destruct (configured (WHATSAPP_SDR_GROUP E)); cbn;
      try destruct (connector_ok E _ _); reflexivity.
Qed.

(** After one leadgen change has been handled with the store accepting the
    guard's insert, its dedup key has a row. *)
Lemma processChange_logs_key (E : Env) (now : Instant) (change : Change)
  (leadgenId : string) (w : World) :
  change_field change = "leadgen" ->
  leadgen_id change = Some leadgenId -> leadgenId <> "" ->
  store_fault E (mkWebhookLog "meta_ads" "leadgen" (change_value change) received
                              ("meta_" ++ leadgenId) None) (db w) = None ->
  key_logged ("meta_" ++ leadgenId) (db (run (processChange E now change) w)) = true.
Proof.
  intros Hfield Hid Hne Hstore.
  unfold processChange. rewrite Hfield, Hid. simpl negb. cbv iota.
  destruct (String.eqb_spec leadgenId "") as [|_]; [contradiction |].
  remember ("meta_" ++ leadgenId)%string as key eqn:Hkey.
  unfold run, bind at 1.
  unfold isNewWebhookEvent, insert_webhook_log, try_catch at 1, bind at 1.
  rewrite Hstore. cbn [wh_idempotency_key].
  fold (key_logged key (db w)).
  destruct (key_logged key (db w)) eqn:Hseen.
  - simpl. exact Hseen.
  - cbn [ret negb fst snd].
    set (w1 := mkWorld _ (sent w)).
    assert (Hw1 : key_logged key (db w1) = true).
    { unfold w1, key_logged. cbn [db webhook_logs with_webhook_logs].
      rewrite existsb_app. cbn [existsb wh_idempotency_key].
      rewrite String.eqb_refl. apply orb_true_r. }
    unfold try_catch, bind.
    destruct (fetchLeadData E leadgenId) as [data|]; cbn [ret throw].
    + match goal with
      | |- context [ingestLead E now ?i w1] =>
          pose proof (ingestLead_keeps_webhook_logs E now i w1) as Hkeep;
          unfold run in Hkeep; destruct (ingestLead E now i w1) as [[r|e] w2]
      end; cbn [snd] in Hkeep.
      * rewrite markWebhookStatus_ok. cbn [snd].
        destruct (markWebhookStatus_keeps_keys key key processed None w2) as [Hk _].
        rewrite Hk. unfold key_logged. rewrite Hkeep. exact Hw1.
      * rewrite markWebhookStatus_ok. cbn [snd].
        destruct (markWebhookStatus_keeps_keys key key failed
                    (Some (err_message e)) w2) as [Hk _].
        rewrite Hk. unfold key_logged. rewrite Hkeep. exact Hw1.
    + rewrite markWebhookStatus_ok. cbn [snd].
      destruct (markWebhookStatus_keeps_keys key key failed
                  (Some (err_message (ApiError "meta"))) w1) as [Hk _].
      rewrite Hk. exact Hw1.
Qed.

Lemma processChange_on_logged_key (E : Env) (now : Instant) (change : Change)
  (leadgenId : string) (w : World) :
  leadgen_id change = Some leadgenId ->
  key_logged ("meta_" ++ leadgenId) (db w) = true ->
  run (processChange E now change) w = w.
Proof.
  intros Hid Hlogged. unfold processChange. rewrite Hid.
  destruct (negb _); [reflexivity |].
  destruct (leadgenId =? "")%string; [reflexivity |].
  destruct (guard_on_logged_key E "meta_ads" "leadgen" ("meta_" ++ leadgenId)
              (change_value change) w Hlogged) as [Hrun Hres].
  unfold run, result in *. unfold bind.
  destruct (isNewWebhookEvent E "meta_ads" "leadgen" _ _ w) as [[[|]|e] w1];
    simpl in *; congruence.
Qed.

Lemma metaWebhookPost_single (E : Env) (now : Instant) (change : Change) (w : World) :
  run (metaWebhookPost E now [[change]]) w = run (processChange E now change) w.
Proof.
  unfold metaWebhookPost, run, try_catch. simpl. unfold bind, ret.
  destruct (processChange E now change w) as [[[]|e] w1]; reflexivity.
Qed.

Lemma insert_webhook_log_throw (E : Env) (row : WebhookLog) (w : World) (e : Err) :
  result (insert_webhook_log E row) w = Threw e ->
  insert_webhook_log E row w = (Threw e, w).
Proof.
  unfold result, insert_webhook_log.
  destruct (store_fault E row (db w)) as [e'|]; simpl.
  - intros [= ->]. reflexivity.
  - destruct (existsb _ _); simpl; intros H; [| discriminate H].
    injection H as <-. reflexivity.
Qed.

Lemma code_is_spec (e : Err) (c : string) :
  code_is e c = true <-> err_code e = Some c.
Proof.
  unfold code_is. destruct (err_code e) as [c'|].
  - destruct (String.eqb_spec c' c); split; congruence.
  - split; discriminate.
Qed.

(** C1. Each part holds on its own, for every environment and store.  The
    guard accepts a fresh key by inserting one row in [received] status and
    answering [true]; it answers [false], without throwing, when the insert
    fails with SQLSTATE 23505; it rethrows any other failure of the insert;
    the Meta handler skips a change the guard answers [false] for; and a
    second event with the dedup key of an earlier one leaves the world, and
    so the leads table, as it was. *)
Theorem webhook_guard_accepts_once (E : Env) :
  (* a fresh key, and a store that takes the row *)
  (forall (src ty key payload : string) (w : World),
     let row := mkWebhookLog src ty payload received key None in
     key_logged key (db w) = false ->
     store_fault E row (db w) = None ->
     isNewWebhookEvent E src ty key payload w =
       (Ok true,
        mkWorld (with_webhook_logs (fun rows => rows ++ [row]) (db w)) (sent w)))
  (* an insert that hits the uniqueness violation *)
  /\ (forall (src ty key payload : string) (w : World) (dup : Err),
        result (insert_webhook_log E (mkWebhookLog src ty payload received key None)) w
        = Threw dup ->
        err_code dup = Some "23505" ->
        isNewWebhookEvent E src ty key payload w = (Ok false, w))
  (* an insert that fails for another reason *)
  /\ (forall (src ty key payload : string) (w : World) (other : Err),
        result (insert_webhook_log E (mkWebhookLog src ty payload received key None)) w
        = Threw other ->
        err_code other <> Some "23505" ->
        isNewWebhookEvent E src ty key payload w = (Threw other, w))
  (* a change for which the guard answers duplicate *)
  /\ (forall (now : Instant) (change : Change) (leadgenId : string) (w : World),
        leadgen_id change = Some leadgenId ->
        result (isNewWebhookEvent E "meta_ads" "leadgen" ("meta_" ++ leadgenId)
                                  (change_value change)) w = Ok false ->
        run (processChange E now change) w = w)
  (* two changes with one leadgen id, the first of which the store takes *)
  /\ (forall (now1 now2 : Instant) (first second : Change) (leadgenId : string)
             (w : World),
        change_field first = "leadgen" ->
        leadgen_id first = Some leadgenId ->
        leadgenId <> "" ->
        leadgen_id second = Some leadgenId ->
        store_fault E (mkWebhookLog "meta_ads" "leadgen" (change_value first) received
                                    ("meta_" ++ leadgenId) None) (db w) = None ->
        let w1 := run (metaWebhookPost E now1 [[first]]) w in
        run (metaWebhookPost E now2 [[second]]) w1 = w1
        /\ leads (db (run (metaWebhookPost E now2 [[second]]) w1)) = leads (db w1)).
Proof.
  split; [| split; [| split; [| split]]].
  - intros src ty key payload w row Hfresh Hstore.
    unfold isNewWebhookEvent, try_catch, bind, insert_webhook_log.
    fold row. rewrite Hstore. unfold key_logged in Hfresh.
    cbn [wh_idempotency_key row]. rewrite Hfresh. reflexivity.
  - intros src ty key payload w dup Hdup Hdupcode.
    unfold isNewWebhookEvent, try_catch, bind.
    rewrite (insert_webhook_log_throw E _ w dup Hdup).
    apply code_is_spec in Hdupcode. rewrite Hdupcode. reflexivity.
  - intros src ty key payload w other Hfault Hothercode.
    unfold isNewWebhookEvent, try_catch, bind.
    rewrite (insert_webhook_log_throw E _ w other Hfault).
    destruct (code_is other "23505") eqn:Hc; [| reflexivity].
    apply code_is_spec in Hc. contradiction.
  - intros now change leadgenId w Hchange Hseen.
    set (meta_key := ("meta_" ++ leadgenId)%string) in *.
    unfold processChange. rewrite Hchange.
    destruct (negb _); [reflexivity |].
    destruct (leadgenId =? "")%string; [reflexivity |].
    fold meta_key. unfold run, bind. unfold result in Hseen.
    destruct (isNewWebhookEvent E "meta_ads" "leadgen" meta_key
                (change_value change) w) as [[b|e] w2] eqn:Hguard;
      simpl in Hseen; [| discriminate Hseen].
    injection Hseen as ->. simpl.
    unfold isNewWebhookEvent, try_catch, bind in Hguard.
    destruct (insert_webhook_log E _ w) as [[[]|e] w3] eqn:Hins;
      [discriminate Hguard |].
    assert (Hthrow : result (insert_webhook_log E
              (mkWebhookLog "meta_ads" "leadgen" (change_value change) received
                            meta_key None)) w = Threw e)
      by (unfold result; rewrite Hins; reflexivity).
    rewrite (insert_webhook_log_throw E _ w e Hthrow) in Hins.
    injection Hins as <-.
    destruct (code_is e "23505"); unfold ret, throw in Hguard;
      [injection Hguard as <-; reflexivity | discriminate Hguard].
  - intros now1 now2 first second leadgenId w Hfield Hfirst Hne Hsecond Hstore1 w1.
    assert (Hlogged : key_logged ("meta_" ++ leadgenId)%string (db w1) = true).
    { unfold w1. rewrite metaWebhookPost_single.
      apply processChange_logs_key; assumption. }
    assert (Hsame : run (metaWebhookPost E now2 [[second]]) w1 = w1).
    { rewrite metaWebhookPost_single.
      apply (processChange_on_logged_key E now2 second leadgenId w1 Hsecond Hlogged). }
    split; [exact Hsame | rewrite Hsame; reflexivity].
Qed.

Lemma webhook_guard_accepts_once_witness :
  isNewWebhookEvent env_up "meta_ads" "leadgen" "meta_4242" "{}" world0 =
    (Ok true,
     mkWorld (with_webhook_logs
                (fun rows => rows ++
                   [mkWebhookLog "meta_ads" "leadgen" "{}" received "meta_4242" None])
                (db world0)) (sent world0))
  /\ isNewWebhookEvent env_up "meta_ads" "leadgen" "meta_4242" "{}" seen_world =
       (Ok false, seen_world)
  /\ isNewWebhookEvent env_flaky_store "meta_ads" "leadgen" "meta_4242" "{}" failing_world =
       (Threw (PgError "08006"), failing_world)
  /\ run (processChange env_up 2000 leadgen_change) seen_world = seen_world
  /\ leads (db (run (metaWebhookPost env_up 2000 [[leadgen_change]])
                    (run (metaWebhookPost env_up 1000 [[leadgen_change]]) world0)))
     = leads (db (run (metaWebhookPost env_up 1000 [[leadgen_change]]) world0)).
Proof.
  destruct (webhook_guard_accepts_once env_up) as (Hfresh & Hdup & _ & Hskip & Htwice).
  destruct (webhook_guard_accepts_once env_flaky_store) as (_ & _ & Hother & _).
  split; [apply Hfresh; reflexivity |].
  split; [apply (Hdup _ _ _ _ _ (PgError "23505")); reflexivity |].
  split; [apply (Hother _ _ _ _ _ (PgError "08006")); [reflexivity | discriminate] |].
  split; [apply (Hskip 2000 leadgen_change "4242"); reflexivity |].
  apply (Htwice 1000 2000 leadgen_change leadgen_change "4242");
    try reflexivity; discriminate.
Defined.

(** ** SLA engine: breach detection *)

Lemma update_where_twice {A : Type} (key : A -> Id) (k : Id) (f g : A -> A) (l : list A) :
  (forall r, key (f r) = key r) ->
  update_where key k g (update_where key k f l) =
  update_where key k (fun r => g (f r)) l.
Proof.
  intros Hf. unfold update_where. rewrite map_map. apply map_ext.
  intros r. destruct (key r =? k)%nat eqn:Hk.
  - rewrite Hf, Hk. reflexivity.
  - rewrite Hk. reflexivity.
Qed.

Lemma update_where_ext {A : Type} (key : A -> Id) (k : Id) (f g : A -> A) (l : list A) :
  (forall r, f r = g r) -> update_where key k f l = update_where key k g l.
Proof.
  intros H. unfold update_where. apply map_ext.
  intros r. destruct (key r =? k)%nat; [apply H | reflexivity].
Qed.

(** The loop body of [checkSlaBreaches] never throws, and its effect is:
    the rows with the id of the snapshot become breached (and notified, if
    the body got that far), one audit entry is added, and the notice, if
    any, is on the trace. *)
Lemma markBreached_run (E : Env) (row : SlaEvent * Lead) (w : World) :
  markBreached E row w =
  (Ok tt,
   mkWorld
     (with_activities
        (fun rows => rows ++
           [mkActivity (sla_lead_id (fst row)) sla_breach
                       (DescSlaBreached (SLA_LABELS (sla_type (fst row))))
                       (MetaSlaBreach (sla_type (fst row)) (deadline_at (fst row)))])
        (with_sla_events
           (update_where sla_id (sla_id (fst row)) (mark_row (notify_flag E row w)))
           (db w)))
     (sent w ++ match breach_notice E row with
                | Some c => [mkSent (sla_id (fst row)) c (connector_ok E (sent w) c)]
                | None => []
                end)).
Proof.
  unfold markBreached, notify_flag, breach_notice.
  unfold bind, execute, try_catch, ret, connector.
  cbn [db sent].
  destruct (notified (fst row)); cbn [negb andb].
  - rewrite app_nil_r. f_equal. f_equal.
    unfold with_activities, with_sla_events; cbn. f_equal.
    apply update_where_ext. intros r. unfold set_breached, mark_row.
    rewrite orb_false_r. reflexivity.
  - destruct (configured (WHATSAPP_SDR_GROUP E)) as [g|]; cbn.
    + destruct (connector_ok E (sent w) _); cbn; f_equal; f_equal;
        unfold with_activities, with_sla_events; cbn; f_equal.
      * rewrite update_where_twice by reflexivity.
        apply update_where_ext. intros r. unfold set_breached, set_notified, mark_row.
        cbn. rewrite orb_true_r. reflexivity.
      * apply update_where_ext. intros r. unfold set_breached, mark_row.
        rewrite orb_false_r. reflexivity.
    + rewrite app_nil_r. f_equal. f_equal.
      unfold with_activities, with_sla_events; cbn. f_equal.
      rewrite update_where_twice by reflexivity.
      apply update_where_ext. intros r. unfold set_breached, set_notified, mark_row.
      cbn. rewrite orb_true_r. reflexivity.
Qed.

Lemma Forall2_compose {A : Type} (R1 R2 R3 : A -> A -> Prop) (l1 l2 l3 : list A) :
  (forall a b c, R1 a b -> R2 b c -> R3 a c) ->
  Forall2 R1 l1 l2 -> Forall2 R2 l2 l3 -> Forall2 R3 l1 l3.
Proof.
  intros Hcomp H12. revert l3.
  induction H12 as [|a b l1 l2 Hab _ IH]; intros l3 H23; inversion H23; subst.
  - constructor.
  - constructor; [eapply Hcomp; eassumption | apply IH; assumption].
Qed.

Lemma Forall2_in_l {A : Type} (R : A -> A -> Prop) (l l' : list A) (a : A) :
  Forall2 R l l' -> In a l -> exists a', In a' l' /\ R a a'.
Proof.
  induction 1 as [|x y l l' Hxy _ IH]; simpl; intros Hin; [contradiction |].
  destruct Hin as [-> | Hin].
  - exists y. split; [left; reflexivity | exact Hxy].
  - destruct (IH Hin) as (a' & Hin' & HR). exists a'. split; [right |]; assumption.
Qed.

Lemma Forall2_map_eq {A B : Type} (R : A -> A -> Prop) (f : A -> B) (l l' : list A) :
  (forall a b, R a b -> f b = f a) -> Forall2 R l l' -> map f l' = map f l.
Proof.
  intros Hf. induction 1 as [|x y l l' Hxy _ IH]; simpl; [reflexivity |].
  rewrite IH, (Hf _ _ Hxy). reflexivity.
Qed.

Lemma sla_step_refl (touched : list Id) (s : SlaEvent) :
  (In (sla_id s) touched -> breached s = true) -> sla_step touched s s.
Proof. intros H. unfold sla_step. repeat split; auto. Qed.

Lemma sla_step_trans (t1 t2 : list Id) (a b c : SlaEvent) :
  sla_step t1 a b -> sla_step t2 b c -> sla_step (t1 ++ t2) a c.
Proof.
  unfold sla_step.
  intros (Hid & Hlead & Hty & Hst & Hdl & Hco & Hbr & Hno & Hout & Hin)
         (Hid' & Hlead' & Hty' & Hst' & Hdl' & Hco' & Hbr' & Hno' & Hout' & Hin').
  split; [congruence |]. split; [congruence |]. split; [congruence |].
  split; [congruence |]. split; [congruence |]. split; [congruence |].
  split; [auto |]. split; [auto |]. split.
  - intros Hnot.
    assert (H1 : ~ In (sla_id a) t1) by (intros H; apply Hnot, in_or_app; left; exact H).
    assert (H2 : ~ In (sla_id a) t2) by (intros H; apply Hnot, in_or_app; right; exact H).
    specialize (Hout H1). subst b. apply Hout'. exact H2.
  - intros H. apply in_app_or in H. destruct H as [H | H].
    + apply Hbr', Hin, H.
    + apply Hin'. rewrite Hid. exact H.
Qed.

Lemma sla_step_update (k : Id) (flag : bool) (l : list SlaEvent) :
  Forall2 (sla_step [k]) l (update_where sla_id k (mark_row flag) l).
Proof.
  induction l as [|s l IH]; simpl; constructor; [| exact IH].
  destruct (Nat.eqb_spec (sla_id s) k) as [Heq | Hne].
  - unfold sla_step, mark_row; simpl. repeat split; auto.
    + intros ->. reflexivity.
    + intros H. exfalso. apply H. left. symmetry. exact Heq.
  - apply sla_step_refl. intros [H | []]. exfalso. apply Hne. symmetry. exact H.
Qed.

Lemma filter_length_app {A : Type} (p : A -> bool) (l1 l2 : list A) :
  List.length (filter p (l1 ++ l2)) =
  (List.length (filter p l1) + List.length (filter p l2))%nat.
Proof. rewrite filter_app, length_app. reflexivity. Qed.

Lemma breach_notice_is_group (E : Env) (row : SlaEvent * Lead) (c : Call) :
  breach_notice E row = Some c ->
  exists g nm ph ty dl, c = SendGroupMessage g (TSlaBreach nm ph ty dl).
Proof.
  unfold breach_notice. destruct (negb _); [| discriminate].
  destruct (configured _) as [g|]; [| discriminate].
  intros [= <-]. eauto 6.
Qed.

(** The loop of [checkSlaBreaches] over any list of snapshots. *)
Lemma for_each_markBreached (E : Env) (rows : list (SlaEvent * Lead)) (w : World) :
  exists w' acts tail,
    for_each rows (markBreached E) w = (Ok tt, w')
    /\ leads (db w') = leads (db w)
    /\ follow_up_executions (db w') = follow_up_executions (db w)
    /\ Forall2 (sla_step (map (fun r => sla_id (fst r)) rows))
               (sla_events (db w)) (sla_events (db w'))
    /\ activities (db w') = activities (db w) ++ acts
    /\ Forall (fun a => act_type a = sla_breach) acts
    /\ sent w' = sent w ++ tail
    /\ Forall (fun e => In (origin e) (map (fun r => sla_id (fst r)) rows)
                        /\ exists g t, call e = SendGroupMessage g t) tail.
Proof.
  revert w. induction rows as [|row rows IH]; intros w.
  - exists w, [], []. simpl. unfold ret. repeat split; try (rewrite app_nil_r; reflexivity);
      try constructor.
    induction (sla_events (db w)); constructor; [| assumption].
    apply sla_step_refl. intros [].
  - cbn [for_each]. unfold bind. rewrite markBreached_run.
    set (w1 := mkWorld _ _).
    destruct (IH w1) as (w' & acts & tail & Hrun & Hleads & Hex & Hsla & Hacts & Hty
                         & Hsent & Htail).
    exists w'. eexists. eexists.
    split; [exact Hrun |].
    split; [rewrite Hleads; reflexivity |].
    split; [rewrite Hex; reflexivity |].
    split.
    { cbn [map]. change (sla_id (fst row) :: map _ rows)
        with ([sla_id (fst row)] ++ map (fun r => sla_id (fst r)) rows).
      eapply Forall2_compose; [apply sla_step_trans | | exact Hsla].
      unfold w1; cbn. apply sla_step_update. }
    split; [rewrite Hacts; unfold w1; cbn; rewrite <- app_assoc; reflexivity |].
    split; [constructor; [reflexivity | exact Hty] |].
    split; [rewrite Hsent; unfold w1; cbn [sent]; rewrite <- app_assoc; reflexivity |].
    apply Forall_app. split.
    + destruct (breach_notice E row) as [c|] eqn:Hc; [| constructor].
      constructor; [| constructor]. cbn. split; [left; reflexivity |].
      destruct (breach_notice_is_group E row c Hc) as (g & nm & ph & ty & dl & ->).
      eauto.
    + eapply Forall_impl; [| exact Htail].
      intros e [Hin Hcall]. split; [right; exact Hin | exact Hcall].
Qed.

(** *** What a breach check selects *)

Lemma in_inner_join {A B : Type} (fk : A -> Id) (pk : B -> Id)
  (la : list A) (lb : list B) (a : A) (b : B) :
  In (a, b) (inner_join fk pk la lb) <-> In a la /\ In b lb /\ pk b = fk a.
Proof.
  unfold inner_join. rewrite in_flat_map. split.
  - intros (a' & Ha' & Hin). apply in_map_iff in Hin.
    destruct Hin as (b' & Heq & Hb'). injection Heq as <- <-.
    apply filter_In in Hb'. destruct Hb' as [Hb' Hk].
    apply Nat.eqb_eq in Hk. auto.
  - intros (Ha & Hb & Hk). exists a. split; [exact Ha |].
    apply in_map. apply filter_In. split; [exact Hb |].
    apply Nat.eqb_eq. exact Hk.
Qed.

Lemma filter_key_at_most_one {B : Type} (pk : B -> Id) (k : Id) (lb : list B) :
  NoDup (map pk lb) ->
  (List.length (filter (fun b => (pk b =? k)%nat) lb) <= 1)%nat.
Proof.
  induction lb as [|b lb IH]; simpl; intros Hnd; [lia |].
  inversion Hnd as [|? ? Hnotin Hnd']; subst.
  destruct (Nat.eqb_spec (pk b) k) as [Heq | Hne]; [| apply IH; exact Hnd'].
  simpl. assert (Hempty : filter (fun b0 => (pk b0 =? k)%nat) lb = []).
  { destruct (filter (fun b0 => (pk b0 =? k)%nat) lb) as [|b' l'] eqn:Hf; [reflexivity |].
    exfalso. assert (Hin : In b' (filter (fun b0 => (pk b0 =? k)%nat) lb))
      by (rewrite Hf; left; reflexivity).
    apply filter_In in Hin. destruct Hin as [Hin Hk]. apply Nat.eqb_eq in Hk.
    apply Hnotin. rewrite Heq, <- Hk. apply in_map. exact Hin. }
  rewrite Hempty. simpl. lia.
Qed.

Lemma inner_join_keys_NoDup {A B : Type} (key fk : A -> Id) (pk : B -> Id)
  (la : list A) (lb : list B) :
  NoDup (map key la) -> NoDup (map pk lb) ->
  NoDup (map (fun r => key (fst r)) (inner_join fk pk la lb)).
Proof.
  intros Hla Hlb. induction la as [|a la IH]; simpl; [constructor |].
  inversion Hla as [|? ? Hnotin Hla']; subst.
  rewrite map_app, map_map. cbn [fst].
  pose proof (filter_key_at_most_one pk (fk a) lb Hlb) as Hone.
  destruct (filter (fun b => (pk b =? fk a)%nat) lb) as [|b [|b' l']];
    simpl in *; [apply IH; exact Hla' | | lia].
  constructor; [| apply IH; exact Hla'].
  intros Hin. apply in_map_iff in Hin. destruct Hin as ([a' b'] & Hk & Hin).
  apply in_inner_join in Hin. destruct Hin as (Ha' & _ & _).
  apply Hnotin. simpl in Hk. rewrite <- Hk. apply in_map. exact Ha'.
Qed.

Lemma filter_keys_NoDup {A : Type} (key : A -> Id) (p : A -> bool) (l : list A) :
  NoDup (map key l) -> NoDup (map key (filter p l)).
Proof.
  induction l as [|a l IH]; simpl; intros Hnd; [constructor |].
  inversion Hnd as [|? ? Hnotin Hnd']; subst.
  destruct (p a); simpl; [| apply IH; exact Hnd'].
  constructor; [| apply IH; exact Hnd'].
  intros Hin. apply Hnotin. apply in_map_iff in Hin.
  destruct Hin as (x & Hx & Hin). apply filter_In in Hin.
  rewrite <- Hx. apply in_map. tauto.
Qed.

Lemma key_determines_row {A : Type} (key : A -> Id) (l : list A) (x y : A) :
  NoDup (map key l) -> In x l -> In y l -> key x = key y -> x = y.
Proof.
  intros Hnd Hx Hy Hk.
  pose proof (find_by_key key l x Hnd Hx) as Fx.
  pose proof (find_by_key key l y Hnd Hy) as Fy.
  rewrite Hk in Fx. congruence.
Qed.

Lemma selected_ids_NoDup (now : Instant) (d : Db) :
  wf_db d -> NoDup (selected_ids now d).
Proof.
  intros (Hleads & Hsla & _). unfold selected_ids, selectBreached, sla_with_lead.
  apply (filter_keys_NoDup (fun r : SlaEvent * Lead => sla_id (fst r))).
  apply inner_join_keys_NoDup; assumption.
Qed.

Lemma selected_row_in_table (now : Instant) (d : Db) (row : SlaEvent * Lead) :
  In row (selectBreached now d) ->
  In (fst row) (sla_events d) /\ In (snd row) (leads d)
  /\ lead_id (snd row) = sla_lead_id (fst row)
  /\ completed_at (fst row) = None /\ breached (fst row) = false
  /\ deadline_at (fst row) < now.
Proof.
  unfold selectBreached, sla_with_lead. intros Hin.
  apply filter_In in Hin. destruct Hin as [Hjoin Hp].
  destruct row as [s l]. apply in_inner_join in Hjoin.
  destruct Hjoin as (Hs & Hl & Hk). simpl in *.
  apply andb_prop in Hp. destruct Hp as [Hp Hdl].
  apply andb_prop in Hp. destruct Hp as [Hco Hbr].
  repeat split; try assumption.
  - destruct (completed_at s); [discriminate | reflexivity].
  - destruct (breached s); [discriminate | reflexivity].
  - apply Z.ltb_lt. exact Hdl.
Qed.

(** A row of the table is selected exactly when it is open, not yet
    breached and past its deadline. *)
Lemma selected_iff (now : Instant) (d : Db) (s : SlaEvent) :
  wf_db d -> In s (sla_events d) ->
  (In (sla_id s) (selected_ids now d)
   <-> completed_at s = None /\ breached s = false /\ deadline_at s < now).
Proof.
  intros Hwf Hs. destruct Hwf as (Hleads & Hsla & _ & Hfk & _).
  unfold selected_ids. split.
  - intros Hin. apply in_map_iff in Hin. destruct Hin as (row & Hk & Hrow).
    apply selected_row_in_table in Hrow.
    destruct Hrow as (Hs' & _ & _ & Hco & Hbr & Hdl).
    assert (fst row = s) by (eapply key_determines_row; eassumption).
    subst s. auto.
  - intros (Hco & Hbr & Hdl).
    specialize (Hfk s Hs). apply in_map_iff in Hfk. destruct Hfk as (l & Hl & Hin).
    apply in_map_iff. exists (s, l). split; [reflexivity |].
    unfold selectBreached, sla_with_lead. apply filter_In. split.
    + apply in_inner_join. auto.
    + simpl. rewrite Hco, Hbr. simpl. apply Z.ltb_lt. exact Hdl.
Qed.

Lemma processBreached_run (E : Env) (rows : list (SlaEvent * Lead)) (w : World) :
  processBreached E rows w =
  (Ok (Z.of_nat (List.length rows)), run (for_each rows (markBreached E)) w).
Proof.
  unfold processBreached, run.
  destruct rows as [|row rows]; [reflexivity |].
  cbn [List.length Nat.eqb]. unfold bind.
  destruct (for_each_markBreached E (row :: rows) w) as (w' & ? & ? & Hrun & _).
  rewrite Hrun. reflexivity.
Qed.

(** One breach check: the store stays well formed, leads are not touched,
    and the SLA rows move as [sla_step] allows for the selected ids. *)
Lemma checkSlaBreaches_step (E : Env) (now : Instant) (w : World) :
  wf_db (db w) ->
  let w' := run (checkSlaBreaches E now) w in
  wf_db (db w')
  /\ leads (db w') = leads (db w)
  /\ Forall2 (sla_step (selected_ids now (db w))) (sla_events (db w)) (sla_events (db w'))
  /\ (exists acts, activities (db w') = activities (db w) ++ acts
                   /\ Forall (fun a => act_type a = sla_breach) acts)
  /\ (exists tail, sent w' = sent w ++ tail
                   /\ Forall (fun e => In (origin e) (selected_ids now (db w))
                                       /\ exists g t, call e = SendGroupMessage g t) tail).
Proof.
  intros Hwf w'. unfold w', checkSlaBreaches, run, bind, query.
  rewrite processBreached_run. cbn [snd]. unfold run.
  destruct (for_each_markBreached E (selectBreached now (db w)) w)
    as (w1 & acts & tail & Hrun & Hleads & Hex & Hsla & Hacts & Hty & Hsent & Htail).
  rewrite Hrun. cbn [snd].
  fold (selected_ids now (db w)) in Hsla, Htail.
  assert (Hids : map sla_id (sla_events (db w1)) = map sla_id (sla_events (db w))).
  { eapply Forall2_map_eq; [| exact Hsla]. intros a b Hab. apply Hab. }
  assert (Hfks : forall s', In s' (sla_events (db w1)) ->
                   In (sla_lead_id s') (map lead_id (leads (db w)))).
  { intros s' Hs'. destruct Hwf as (_ & _ & _ & Hfk & _).
    apply Forall2_flip in Hsla.
    destruct (Forall2_in_l _ _ _ s' Hsla Hs') as (s & Hs & Hstep).
    destruct Hstep as (_ & Hlead & _). rewrite Hlead. apply Hfk. exact Hs. }
  split; [| split; [exact Hleads | split; [exact Hsla | split; eauto]]].
  destruct Hwf as (Hl & Hs & He & Hfk & Hfe).
  unfold wf_db. rewrite Hleads, Hex, Hids. repeat split; assumption.
Qed.

(** *** Repeated breach checks *)

Lemma poll_cons (E : Env) (now : Instant) (rest : list Instant) (w : World) :
  poll E (now :: rest) w =
  (selected_ids now (db w) :: fst (poll E rest (run (checkSlaBreaches E now) w)),
   snd (poll E rest (run (checkSlaBreaches E now) w))).
Proof. reflexivity. Qed.

(** A breached row is never selected again and stays breached. *)
Lemma poll_breached (E : Env) (times : list Instant) (w : World) (s : SlaEvent) :
  wf_db (db w) -> In s (sla_events (db w)) -> breached s = true ->
  ~ In (sla_id s) (List.concat (fst (poll E times w)))
  /\ exists s', In s' (sla_events (db (snd (poll E times w))))
                /\ sla_id s' = sla_id s /\ breached s' = true.
Proof.
  revert w s. induction times as [|now rest IH]; intros w s Hwf Hs Hbr.
  - simpl. split; [tauto | exists s; auto].
  - rewrite poll_cons. cbn [fst snd List.concat].
    destruct (checkSlaBreaches_step E now w Hwf) as (Hwf' & _ & Hsla & _).
    destruct (Forall2_in_l _ _ _ s Hsla Hs) as (s1 & Hs1 & Hstep).
    destruct Hstep as (Hid & _ & _ & _ & _ & _ & Hmono & _).
    destruct (IH _ s1 Hwf' Hs1 (Hmono Hbr)) as (Hnot & s' & Hs' & Hid' & Hbr').
    split.
    + intros Hin. apply in_app_or in Hin. destruct Hin as [Hin | Hin].
      * apply (selected_iff now (db w) s Hwf Hs) in Hin.
        destruct Hin as (_ & Hf & _). congruence.
      * apply Hnot. rewrite Hid. exact Hin.
    + exists s'. repeat split; congruence.
Qed.

(** While the deadline has not passed, the row is neither selected nor changed. *)
Lemma poll_before_deadline (E : Env) (times : list Instant) (w : World) (s : SlaEvent) :
  wf_db (db w) -> In s (sla_events (db w)) ->
  Forall (fun now => now <= deadline_at s) times ->
  ~ In (sla_id s) (List.concat (fst (poll E times w)))
  /\ In s (sla_events (db (snd (poll E times w)))).
Proof.
  revert w. induction times as [|now rest IH]; intros w Hwf Hs Htimes.
  - simpl. tauto.
  - rewrite poll_cons. cbn [fst snd List.concat].
    inversion Htimes as [|? ? Hnow Hrest]; subst.
    assert (Hnotsel : ~ In (sla_id s) (selected_ids now (db w))).
    { intros Hin. apply (selected_iff now (db w) s Hwf Hs) in Hin. lia. }
    destruct (checkSlaBreaches_step E now w Hwf) as (Hwf' & _ & Hsla & _).
    destruct (Forall2_in_l _ _ _ s Hsla Hs) as (s1 & Hs1 & Hstep).
    destruct Hstep as (_ & _ & _ & _ & _ & _ & _ & _ & Hsame & _).
    rewrite (Hsame Hnotsel) in Hs1.
    destruct (IH _ Hwf' Hs1 Hrest) as (Hnot & Hin).
    split; [| exact Hin].
    intros H. apply in_app_or in H. tauto.
Qed.

Lemma occurrences_one (l : list Id) (k : Id) :
  NoDup l -> In k l -> occurrences k l = 1%nat.
Proof.
  intros Hnd Hin. apply (proj1 (NoDup_count_occ' Id_eq_dec l) Hnd). exact Hin.
Qed.

Lemma occurrences_none (l : list Id) (k : Id) :
  ~ In k l -> occurrences k l = 0%nat.
Proof. intros H. apply (proj1 (count_occ_not_In Id_eq_dec l k) H). Qed.

Lemma occurrences_app (l1 l2 : list Id) (k : Id) :
  occurrences k (l1 ++ l2) = (occurrences k l1 + occurrences k l2)%nat.
Proof. apply count_occ_app. Qed.

(** An open, unbreached row is selected by exactly one of the checks, the
    first one that runs after its deadline. *)
Lemma poll_after_deadline (E : Env) (times : list Instant) (w : World) (s : SlaEvent) :
  wf_db (db w) -> In s (sla_events (db w)) ->
  completed_at s = None -> breached s = false ->
  Exists (fun now => deadline_at s < now) times ->
  occurrences (sla_id s) (List.concat (fst (poll E times w))) = 1%nat
  /\ exists s', In s' (sla_events (db (snd (poll E times w))))
                /\ sla_id s' = sla_id s /\ breached s' = true.
Proof.
  revert w. induction times as [|now rest IH]; intros w Hwf Hs Hco Hbr Hex.
  - inversion Hex.
  - rewrite poll_cons. cbn [fst snd List.concat]. rewrite occurrences_app.
    destruct (checkSlaBreaches_step E now w Hwf) as (Hwf' & _ & Hsla & _).
    destruct (Forall2_in_l _ _ _ s Hsla Hs) as (s1 & Hs1 & Hstep).
    destruct Hstep as (Hid & _ & _ & _ & Hdl & Hco1 & _ & _ & Hsame & Htouched).
    destruct (Z.lt_ge_cases (deadline_at s) now) as [Hpast | Hahead].
    + assert (Hsel : In (sla_id s) (selected_ids now (db w)))
        by (apply (selected_iff now (db w) s Hwf Hs); auto).
      rewrite (occurrences_one _ _ (selected_ids_NoDup now (db w) Hwf) Hsel).
      destruct (poll_breached E rest _ s1 Hwf' Hs1 (Htouched Hsel))
        as (Hnot & s' & Hs' & Hid' & Hbr').
      rewrite Hid in Hnot.
      rewrite (occurrences_none _ _ Hnot).
      split; [reflexivity |]. exists s'. repeat split; congruence.
    + assert (Hnotsel : ~ In (sla_id s) (selected_ids now (db w))).
      { intros Hin. apply (selected_iff now (db w) s Hwf Hs) in Hin. lia. }
      rewrite (occurrences_none _ _ Hnotsel).
      rewrite (Hsame Hnotsel) in Hs1.
      inversion Hex as [? ? Hnow | ? ? Hrest]; subst; [lia |].
      destruct (IH _ Hwf' Hs1 Hco Hbr Hrest) as (Hcount & Hfinal).
      split; [exact Hcount | exact Hfinal].
Qed.

(** A breached row is left as it is by every later check. *)
Lemma poll_breached_unchanged (E : Env) (times : list Instant) (w : World) (s : SlaEvent) :
  wf_db (db w) -> In s (sla_events (db w)) -> breached s = true ->
  In s (sla_events (db (snd (poll E times w)))).
Proof.
  revert w. induction times as [|now rest IH]; intros w Hwf Hs Hbr; [exact Hs |].
  rewrite poll_cons. cbn [snd].
  assert (Hnotsel : ~ In (sla_id s) (selected_ids now (db w))).
  { intros Hin. apply (selected_iff now (db w) s Hwf Hs) in Hin.
    destruct Hin as (_ & Hf & _). congruence. }
  destruct (checkSlaBreaches_step E now w Hwf) as (Hwf' & _ & Hsla & _).
  destruct (Forall2_in_l _ _ _ s Hsla Hs) as (s1 & Hs1 & Hstep).
  destruct Hstep as (_ & _ & _ & _ & _ & _ & _ & _ & Hsame & _).
  rewrite (Hsame Hnotsel) in Hs1.
  apply (IH _ Hwf' Hs1 Hbr).
Qed.

(** C2. Across any sequence of breach checks on a store with unique keys,
    and for each of its timers on its own: a timer whose deadline has not
    passed at any of the checks is never selected and its row is left as it
    was; an open timer that is overdue at some check is selected, and so
    marked breached, by exactly one of the checks; and a timer that is
    already breached is never selected again and its row is left as it
    was. *)
Theorem breach_marked_exactly_once (E : Env) (w : World) (times : list Instant) :
  wf_db (db w) ->
  let selections := List.concat (fst (poll E times w)) in
  let after := sla_events (db (snd (poll E times w))) in
  (forall ahead : SlaEvent,
     In ahead (sla_events (db w)) ->
     Forall (fun now => now <= deadline_at ahead) times ->
     ~ In (sla_id ahead) selections /\ In ahead after)
  /\ (forall overdue : SlaEvent,
        In overdue (sla_events (db w)) ->
        completed_at overdue = None -> breached overdue = false ->
        Exists (fun now => deadline_at overdue < now) times ->
        occurrences (sla_id overdue) selections = 1%nat
        /\ exists s', In s' after /\ sla_id s' = sla_id overdue /\ breached s' = true)
  /\ (forall done : SlaEvent,
        In done (sla_events (db w)) ->
        breached done = true ->
        ~ In (sla_id done) selections /\ In done after).
Proof.
  intros Hwf. cbv zeta.
  split; [intros ahead Hahead Htimes; apply poll_before_deadline; assumption |].
  split; [intros overdue Hover Hco Hbr Hex; apply poll_after_deadline; assumption |].
  intros done Hdone Hdbr. split.
  - apply (poll_breached E times w done Hwf Hdone Hdbr).
  - apply poll_breached_unchanged; assumption.
Qed.

Lemma sla_world_wf : wf_db (db sla_world).
Proof.
  unfold wf_db, sla_world; cbn.
  split; [repeat constructor; simpl; tauto |].
  split; [repeat constructor; simpl; intuition discriminate |].
  split; [constructor |].
  split; [| intros e []].
  intros s [<- | [<- | [<- | []]]]; left; reflexivity.
Qed.

Lemma lone_timer_world_wf : wf_db (db lone_timer_world).
Proof.
  unfold wf_db, lone_timer_world; cbn.
  split; [repeat constructor; simpl; tauto |].
  split; [repeat constructor; simpl; intuition discriminate |].
  split; [constructor |].
  split; [| intros e []].
  intros s [<- | []]; left; reflexivity.
Qed.

Lemma breach_marked_exactly_once_witness :
  (let selections := List.concat (fst (poll env_up [200; 300; 400] sla_world)) in
   let after := sla_events (db (snd (poll env_up [200; 300; 400] sla_world))) in
   (~ In 1%nat selections /\ In timer_ahead after)
   /\ occurrences 2%nat selections = 1%nat
   /\ (~ In 3%nat selections /\ In timer_breached after))
  /\ occurrences 2%nat (List.concat (fst (poll env_up [50; 200; 300] lone_timer_world)))
     = 1%nat.
Proof.
  destruct (breach_marked_exactly_once env_up sla_world [200; 300; 400] sla_world_wf)
    as (Hahead & Hoverdue & Hdone).
  destruct (breach_marked_exactly_once env_up lone_timer_world [50; 200; 300]
              lone_timer_world_wf)
    as (_ & Hlone & _).
  cbv zeta. split; [split; [| split] |].
  - apply (Hahead timer_ahead); [left; reflexivity |].
    repeat constructor; simpl; lia.
  - apply (Hoverdue timer_overdue);
      [right; left; reflexivity | reflexivity | reflexivity | left; simpl; lia].
  - apply (Hdone timer_breached); [right; right; left; reflexivity | reflexivity].
  - apply (Hlone timer_overdue);
      [left; reflexivity | reflexivity | reflexivity | right; left; simpl; lia].
Defined.

(** *** Breach notices on the trace *)

Lemma for_each_markBreached_app (E : Env) (l1 l2 : list (SlaEvent * Lead)) (w : World) :
  run (for_each (l1 ++ l2) (markBreached E)) w =
  run (for_each l2 (markBreached E)) (run (for_each l1 (markBreached E)) w).
Proof.
  revert w. induction l1 as [|row l1 IH]; intros w; [reflexivity |].
  cbn [app for_each]. unfold run, bind in *. rewrite markBreached_run. apply IH.
Qed.

Lemma for_each_markBreached_cons (E : Env) (row : SlaEvent * Lead)
  (rows : list (SlaEvent * Lead)) (w : World) :
  run (for_each (row :: rows) (markBreached E)) w =
  run (for_each rows (markBreached E)) (run (markBreached E row) w).
Proof.
  cbn [for_each]. unfold run, bind. rewrite markBreached_run. reflexivity.
Qed.

Lemma foreign_notices (k : Id) (ids : list Id) (tail : list Sent) :
  Forall (fun e => In (origin e) ids /\ exists g t, call e = SendGroupMessage g t) tail ->
  ~ In k ids ->
  filter (is_breach_notice k) tail = [].
Proof.
  intros Htail Hk. induction Htail as [|e tail [Hin _] _ IH]; [reflexivity |].
  simpl. rewrite IH. unfold is_breach_notice.
  destruct (Nat.eqb_spec (origin e) k) as [Heq | _]; [| reflexivity].
  exfalso. apply Hk. rewrite <- Heq. exact Hin.
Qed.

(** A loop over snapshots none of which has the id of [s] leaves the row
    [s] and the count of its notices alone. *)
Lemma loop_skips_row (E : Env) (rows : list (SlaEvent * Lead)) (w : World) (s : SlaEvent) :
  In s (sla_events (db w)) ->
  ~ In (sla_id s) (map (fun r => sla_id (fst r)) rows) ->
  let w' := run (for_each rows (markBreached E)) w in
  In s (sla_events (db w'))
  /\ count_sent (is_breach_notice (sla_id s)) w' = count_sent (is_breach_notice (sla_id s)) w
  /\ map sla_id (sla_events (db w')) = map sla_id (sla_events (db w)).
Proof.
  intros Hs Hk w'. unfold w', run.
  destruct (for_each_markBreached E rows w)
    as (w1 & acts & tail & Hrun & _ & _ & Hsla & _ & _ & Hsent & Htail).
  rewrite Hrun. cbn [snd].
  destruct (Forall2_in_l _ _ _ s Hsla Hs) as (s1 & Hs1 & Hstep).
  destruct Hstep as (_ & _ & _ & _ & _ & _ & _ & _ & Hsame & _).
  rewrite (Hsame Hk) in Hs1. split; [exact Hs1 |]. split.
  - unfold count_sent. rewrite Hsent, filter_length_app.
    rewrite (foreign_notices _ _ _ Htail Hk). simpl. lia.
  - eapply Forall2_map_eq; [| exact Hsla]. intros a b Hab. apply Hab.
Qed.

(** A loop over snapshots exactly one of which has the id of the row [s]:
    the row ends as that one body leaves it, and that body alone adds to
    the notices of [s]. *)
Lemma loop_hits_row (E : Env) (rows : list (SlaEvent * Lead)) (w : World)
  (s : SlaEvent) (row : SlaEvent * Lead) :
  NoDup (map sla_id (sla_events (db w))) ->
  In s (sla_events (db w)) ->
  NoDup (map (fun r => sla_id (fst r)) rows) ->
  In row rows -> sla_id (fst row) = sla_id s ->
  let w' := run (for_each rows (markBreached E)) w in
  exists w_mid,
    count_sent (is_breach_notice (sla_id s)) w_mid = count_sent (is_breach_notice (sla_id s)) w
    /\ In (mark_row (notify_flag E row w_mid) s) (sla_events (db w'))
    /\ count_sent (is_breach_notice (sla_id s)) w' =
       (count_sent (is_breach_notice (sla_id s)) w + notice_count (breach_notice E row))%nat.
Proof.
  intros Hnd Hs Hrows Hrow Hk w'.
  destruct (in_split row rows Hrow) as (pre & post & ->).
  rewrite map_app in Hrows. cbn [map] in Hrows.
  assert (Hpre : ~ In (sla_id s) (map (fun r => sla_id (fst r)) pre)).
  { intros Hin. apply NoDup_remove_2 in Hrows. apply Hrows.
    apply in_or_app. left. rewrite Hk. exact Hin. }
  assert (Hpost : ~ In (sla_id s) (map (fun r => sla_id (fst r)) post)).
  { intros Hin. apply NoDup_remove_2 in Hrows. apply Hrows.
    apply in_or_app. right. rewrite Hk. exact Hin. }
  destruct (loop_skips_row E pre w s Hs Hpre) as (Hs_mid & Hcount_mid & Hids_mid).
  set (w_mid := run (for_each pre (markBreached E)) w) in *.
  exists w_mid. split; [exact Hcount_mid |].
  unfold w'. rewrite for_each_markBreached_app. fold w_mid.
  rewrite for_each_markBreached_cons.
  unfold run at 2 4. rewrite markBreached_run. cbn [snd].
  set (w_hit := mkWorld _ _).
  assert (Hs_hit : In (mark_row (notify_flag E row w_mid) s) (sla_events (db w_hit))).
  { unfold w_hit. cbn. apply update_where_in; [exact Hs_mid | symmetry; exact Hk]. }
  assert (Hcount_hit : count_sent (is_breach_notice (sla_id s)) w_hit =
            (count_sent (is_breach_notice (sla_id s)) w_mid
             + notice_count (breach_notice E row))%nat).
  { unfold count_sent, w_hit. cbn [sent]. rewrite filter_length_app. f_equal.
    destruct (breach_notice E row) as [c|] eqn:Hc; [| reflexivity].
    destruct (breach_notice_is_group E row c Hc) as (g & nm & ph & ty & dl & ->).
    cbn. unfold is_breach_notice. cbn. rewrite Hk, Nat.eqb_refl. reflexivity. }
  destruct (loop_skips_row E post w_hit (mark_row (notify_flag E row w_mid) s) Hs_hit Hpost)
    as (Hs_end & Hcount_end & _).
  cbn [sla_id mark_row] in Hcount_end.
  split; [exact Hs_end |].
  rewrite Hcount_end, Hcount_hit, Hcount_mid. reflexivity.
Qed.

(** One breach check that selects the row [s]. *)
Lemma check_selected (E : Env) (now : Instant) (w : World) (s : SlaEvent) :
  wf_db (db w) -> In s (sla_events (db w)) ->
  In (sla_id s) (selected_ids now (db w)) ->
  exists l w_mid,
    In l (leads (db w)) /\ lead_id l = sla_lead_id s
    /\ count_sent (is_breach_notice (sla_id s)) w_mid = count_sent (is_breach_notice (sla_id s)) w
    /\ In (mark_row (notify_flag E (s, l) w_mid) s)
          (sla_events (db (run (checkSlaBreaches E now) w)))
    /\ count_sent (is_breach_notice (sla_id s)) (run (checkSlaBreaches E now) w) =
       (count_sent (is_breach_notice (sla_id s)) w + notice_count (breach_notice E (s, l)))%nat.
Proof.
  intros Hwf Hs Hsel.
  pose proof (selected_ids_NoDup now (db w) Hwf) as Hnd.
  unfold selected_ids in Hsel, Hnd.
  apply in_map_iff in Hsel. destruct Hsel as ([s0 l] & Hk & Hrow). cbn in Hk.
  destruct (selected_row_in_table now (db w) (s0, l) Hrow) as (Hs0 & Hl & Hfk & _).
  cbn in Hs0, Hl, Hfk.
  assert (s0 = s).
  { destruct Hwf as (_ & Hsla & _). eapply key_determines_row; eassumption. }
  subst s0.
  destruct Hwf as (_ & Hsla & _).
  destruct (loop_hits_row E (selectBreached now (db w)) w s (s, l) Hsla Hs Hnd Hrow eq_refl)
    as (w_mid & Hmid & Hin & Hcount).
  exists l, w_mid.
  unfold checkSlaBreaches, run at 1 2, bind, query.
  rewrite processBreached_run. cbn [snd].
  repeat split; assumption.
Qed.

(** One breach check that does not select the row [s]. *)
Lemma check_not_selected (E : Env) (now : Instant) (w : World) (s : SlaEvent) :
  In s (sla_events (db w)) ->
  ~ In (sla_id s) (selected_ids now (db w)) ->
  In s (sla_events (db (run (checkSlaBreaches E now) w)))
  /\ count_sent (is_breach_notice (sla_id s)) (run (checkSlaBreaches E now) w) =
     count_sent (is_breach_notice (sla_id s)) w.
Proof.
  intros Hs Hsel.
  destruct (loop_skips_row E (selectBreached now (db w)) w s Hs Hsel) as (Hin & Hcount & _).
  unfold checkSlaBreaches, run at 1 2, bind, query.
  rewrite processBreached_run. cbn [snd]. split; assumption.
Qed.

(** A breached row is frozen: later checks neither change it nor send for it. *)
Lemma poll_breached_frozen (E : Env) (times : list Instant) (w : World) (s : SlaEvent) :
  wf_db (db w) -> In s (sla_events (db w)) -> breached s = true ->
  In s (sla_events (db (snd (poll E times w))))
  /\ count_sent (is_breach_notice (sla_id s)) (snd (poll E times w)) =
     count_sent (is_breach_notice (sla_id s)) w.
Proof.
  revert w. induction times as [|now rest IH]; intros w Hwf Hs Hbr; [split; auto |].
  rewrite poll_cons. cbn [snd].
  assert (Hnotsel : ~ In (sla_id s) (selected_ids now (db w))).
  { intros Hin. apply (selected_iff now (db w) s Hwf Hs) in Hin.
    destruct Hin as (_ & Hf & _). congruence. }
  destruct (check_not_selected E now w s Hs Hnotsel) as (Hs1 & Hcount1).
  destruct (checkSlaBreaches_step E now w Hwf) as (Hwf' & _).
  destruct (IH _ Hwf' Hs1 Hbr) as (Hin & Hcount).
  split; [exact Hin | congruence].
Qed.

(** Over any sequence of breach checks at most one notice is attempted
    for a row. *)
Lemma poll_at_most_one_notice (E : Env) (times : list Instant) (w : World) (s : SlaEvent) :
  wf_db (db w) -> In s (sla_events (db w)) ->
  (count_sent (is_breach_notice (sla_id s)) (snd (poll E times w))
   <= count_sent (is_breach_notice (sla_id s)) w + 1)%nat.
Proof.
  revert w. induction times as [|now rest IH]; intros w Hwf Hs; [simpl; lia |].
  rewrite poll_cons. cbn [snd].
  destruct (checkSlaBreaches_step E now w Hwf) as (Hwf' & _).
  destruct (in_dec Id_eq_dec (sla_id s) (selected_ids now (db w))) as [Hsel | Hnotsel].
  - destruct (check_selected E now w s Hwf Hs Hsel)
      as (l & w_mid & _ & _ & _ & Hin & Hcount).
    destruct (poll_breached_frozen E rest _ _ Hwf' Hin eq_refl) as (_ & Hfrozen).
    cbn [sla_id mark_row] in Hfrozen. rewrite Hfrozen, Hcount.
    destruct (breach_notice E (s, l)); simpl; lia.
  - destruct (check_not_selected E now w s Hs Hnotsel) as (Hs1 & Hcount1).
    specialize (IH _ Hwf' Hs1). lia.
Qed.

(** C10, as the code has it.  For every row of the table, over any
    sequence of breach checks, at most one breach notice is attempted.  The
    check that selects an open, overdue, unnotified row marks it breached,
    and no later check touches it.  With an SDR group configured exactly
    one notice is attempted, and if that attempt throws the row stays
    [notified = false] for good.  Without an SDR group nothing is sent and
    the row is marked [notified = true]. *)
Theorem breach_notice_attempted_once (E : Env) (w : World) :
  wf_db (db w) ->
  (forall (s : SlaEvent) (times : list Instant),
     In s (sla_events (db w)) ->
     (notices (sla_id s) (snd (poll E times w)) <= notices (sla_id s) w + 1)%nat)
  /\ (forall (s : SlaEvent) (l : Lead) (now : Instant) (rest : list Instant),
        In s (sla_events (db w)) ->
        completed_at s = None -> breached s = false -> notified s = false ->
        deadline_at s < now ->
        In l (leads (db w)) -> lead_id l = sla_lead_id s ->
        let w' := snd (poll E (now :: rest) w) in
        exists s',
          In s' (sla_events (db w')) /\ sla_id s' = sla_id s /\ breached s' = true
          /\ match configured (WHATSAPP_SDR_GROUP E) with
             | None =>
                 notified s' = true /\ notices (sla_id s) w' = notices (sla_id s) w
             | Some g =>
                 notices (sla_id s) w' = (notices (sla_id s) w + 1)%nat
                 /\ ((forall h,
                        List.length (filter (is_breach_notice (sla_id s)) h)
                        = notices (sla_id s) w ->
                        connector_ok E h
                          (SendGroupMessage g
                             (TSlaBreach (name l) (phone l) (sla_type s) (deadline_at s)))
                        = false) ->
                     notified s' = false)
             end).
Proof.
  intros Hwf.
  split; [intros s times Hs; apply poll_at_most_one_notice; assumption |].
  intros s l now rest Hs Hco Hbr Hno Hdl Hl Hfk w'.
  assert (Hsel : In (sla_id s) (selected_ids now (db w)))
    by (apply (selected_iff now (db w) s Hwf Hs); auto).
  destruct (check_selected E now w s Hwf Hs Hsel)
    as (l0 & w_mid & Hl0 & Hfk0 & Hmid & Hin & Hcount).
  assert (l0 = l).
  { destruct Hwf as (Hleads & _). eapply key_determines_row; try eassumption. congruence. }
  subst l0.
  destruct (checkSlaBreaches_step E now w Hwf) as (Hwf' & _).
  destruct (poll_breached_frozen E rest _ _ Hwf' Hin eq_refl) as (Hfinal & Hfrozen).
  cbn [sla_id mark_row] in Hfrozen.
  exists (mark_row (notify_flag E (s, l) w_mid) s).
  unfold w'. rewrite poll_cons. cbn [snd].
  split; [exact Hfinal |]. split; [reflexivity |]. split; [reflexivity |].
  unfold notices in *. rewrite Hfrozen, Hcount.
  unfold notify_flag, breach_notice. cbn [fst snd]. rewrite Hno. cbn [negb andb].
  destruct (configured (WHATSAPP_SDR_GROUP E)) as [g|]; cbn [notice_count mark_row notified].
  - split; [reflexivity |]. intros Hfail. rewrite Hno. cbn [orb].
    apply Hfail. exact Hmid.
  - rewrite Hno. split; [reflexivity | lia].
Qed.

Lemma breach_notice_attempted_once_witness :
  (notices 3%nat (snd (poll env_down [200; 300; 400]%Z sla_world)) <= 1)%nat
  /\ (notices 2%nat (snd (poll env_down [200; 300; 400]%Z sla_world)) <= 1)%nat
  /\ exists s', In s' (sla_events (db (snd (poll env_down [200; 300; 400] sla_world))))
                /\ sla_id s' = 2%nat /\ breached s' = true /\ notified s' = false.
Proof.
  destruct (breach_notice_attempted_once env_down sla_world sla_world_wf)
    as (Hmost & Hsent).
  split; [apply (Hmost timer_breached); right; right; left; reflexivity |].
  split; [apply (Hmost timer_overdue); right; left; reflexivity |].
  destruct (Hsent timer_overdue known_lead 200 [300; 400])
    as (s' & Hin & Hid & Hbr & _ & Hfail);
    try reflexivity; try (left; reflexivity); try (right; left; reflexivity).
  exists s'. repeat split; try assumption.
  apply Hfail. reflexivity.
Defined.

(** C10 as stated fails: with no SDR group configured the overdue row does
    not stay [notified = false]; the check marks it notified although no
    notice was sent. *)
Lemma unconfigured_group_marks_notified :
  configured (WHATSAPP_SDR_GROUP env_no_group) = None
  /\ get_sla 2%nat (db sla_world) = Some timer_overdue
  /\ get_sla 2%nat (db (run (checkSlaBreaches env_no_group 200) sla_world)) =
     Some (mkSla 2%nat 0%nat response_5min 0 100 None true true)
  /\ sent (run (checkSlaBreaches env_no_group 200) sla_world) = [].
Proof. repeat split; vm_compute; reflexivity. Qed.

(** *** Overlapping breach checks *)

Lemma overlappingChecks_run (E : Env) (now1 now2 : Instant) (w : World) :
  run (overlappingChecks E now1 now2) w =
  run (for_each (selectBreached now2 (db w)) (markBreached E))
      (run (for_each (selectBreached now1 (db w)) (markBreached E)) w).
Proof.
  unfold overlappingChecks, run at 1, bind, query, ret.
  rewrite !processBreached_run. reflexivity.
Qed.

(** C9, as the code has it.  The update that marks a row breached is keyed
    by the row id alone and the notice is decided on the snapshot the select
    returned.  Checks that run one after the other attempt one notice for an
    overdue row; two checks whose selects both ran before either loop attempt
    two. *)
Theorem overlapping_checks_notify_twice
  (E : Env) (w : World) (s : SlaEvent) (now1 now2 : Instant) :
  wf_db (db w) ->
  In s (sla_events (db w)) ->
  completed_at s = None -> breached s = false -> notified s = false ->
  deadline_at s < now1 -> deadline_at s < now2 ->
  configured (WHATSAPP_SDR_GROUP E) <> None ->
  notices (sla_id s) (snd (poll E [now1; now2] w)) = (notices (sla_id s) w + 1)%nat
  /\ notices (sla_id s) (run (overlappingChecks E now1 now2) w)
     = (notices (sla_id s) w + 2)%nat.
Proof.
  intros Hwf Hs Hco Hbr Hno Hdl1 Hdl2 Hgroup.
  assert (Hnotice : forall l, notice_count (breach_notice E (s, l)) = 1%nat).
  { intros l. unfold breach_notice. cbn [fst]. rewrite Hno. cbn [negb].
    destruct (configured (WHATSAPP_SDR_GROUP E)); [reflexivity | contradiction]. }
  assert (Hsel1 : In (sla_id s) (selected_ids now1 (db w)))
    by (apply (selected_iff now1 (db w) s Hwf Hs); auto).
  assert (Hsel2 : In (sla_id s) (selected_ids now2 (db w)))
    by (apply (selected_iff now2 (db w) s Hwf Hs); auto).
  split.
  - destruct (check_selected E now1 w s Hwf Hs Hsel1)
      as (l & w_mid & _ & _ & _ & Hin & Hcount).
    destruct (checkSlaBreaches_step E now1 w Hwf) as (Hwf' & _).
    destruct (poll_breached_frozen E [now2] _ _ Hwf' Hin eq_refl) as (_ & Hfrozen).
    cbn [sla_id mark_row] in Hfrozen.
    rewrite poll_cons. cbn [snd]. unfold notices.
    rewrite Hfrozen, Hcount, Hnotice. reflexivity.
  - rewrite overlappingChecks_run. unfold notices.
    pose proof (selected_ids_NoDup now1 (db w) Hwf) as Hnd1.
    pose proof (selected_ids_NoDup now2 (db w) Hwf) as Hnd2.
    unfold selected_ids in Hsel1, Hsel2, Hnd1, Hnd2.
    apply in_map_iff in Hsel1. destruct Hsel1 as ([s1 l1] & Hk1 & Hrow1).
    apply in_map_iff in Hsel2. destruct Hsel2 as ([s2 l2] & Hk2 & Hrow2).
    cbn in Hk1, Hk2.
    destruct (selected_row_in_table now1 (db w) _ Hrow1) as (Hs1 & _).
    destruct (selected_row_in_table now2 (db w) _ Hrow2) as (Hs2 & _).
    cbn in Hs1, Hs2.
    destruct Hwf as (_ & Hsla & _).
    assert (s1 = s) by (eapply key_determines_row; eassumption).
    assert (s2 = s) by (eapply key_determines_row; eassumption).
    subst s1 s2.
    destruct (loop_hits_row E (selectBreached now1 (db w)) w s (s, l1)
                Hsla Hs Hnd1 Hrow1 eq_refl) as (w_mid & _ & Hin1 & Hcount1).
    set (w1 := run (for_each (selectBreached now1 (db w)) (markBreached E)) w) in *.
    assert (Hsla1 : NoDup (map sla_id (sla_events (db w1)))).
    { unfold w1, run.
      destruct (for_each_markBreached E (selectBreached now1 (db w)) w)
        as (wx & ? & ? & Hrun & _ & _ & Hstep & _).
      rewrite Hrun. cbn [snd].
      rewrite (Forall2_map_eq _ sla_id _ _ (fun a b Hab => proj1 Hab) Hstep).
      exact Hsla. }
    destruct (loop_hits_row E (selectBreached now2 (db w)) w1
                (mark_row (notify_flag E (s, l1) w_mid) s) (s, l2)
                Hsla1 Hin1 Hnd2 Hrow2 eq_refl) as (w_mid2 & _ & _ & Hcount2).
    cbn [sla_id mark_row] in Hcount2.
    rewrite Hcount2, Hcount1, !Hnotice. lia.
Qed.

Lemma overlapping_checks_notify_twice_witness :
  notices 2%nat (snd (poll env_up [200; 201]%Z sla_world)) = 1%nat
  /\ notices 2%nat (run (overlappingChecks env_up 200 201) sla_world) = 2%nat.
Proof.
  apply (overlapping_checks_notify_twice env_up sla_world timer_overdue 200 201);
    try reflexivity; try exact sla_world_wf.
  - right; left; reflexivity.
  - discriminate.
Defined.

(** C9 as stated fails: when the selects of two checks both run before
    either loop, the overdue row is notified twice. *)
Lemma overlapping_checks_double_fire :
  map call (sent (run (overlappingChecks env_up 200 201) sla_world)) =
  [ SendGroupMessage "sdr-group" (TSlaBreach "Ana" "11999998888" response_5min 100);
    SendGroupMessage "sdr-group" (TSlaBreach "Ana" "11999998888" response_5min 100) ]
  /\ map delivered (sent (run (overlappingChecks env_up 200 201) sla_world)) = [true; true].
Proof. split; vm_compute; reflexivity. Qed.

(** ** Reasoning about computations *)

Section Keeps.

Variable R : World -> World -> Prop.
Hypothesis R_refl : forall w, R w w.
Hypothesis R_trans : forall w1 w2 w3, R w1 w2 -> R w2 w3 -> R w1 w3.

Lemma keeps_ret {A : Type} (a : A) : keeps R (ret a).
Proof. intros w. apply R_refl. Qed.

Lemma keeps_throw {A : Type} (e : Err) : keeps R (@throw A e).
Proof. intros w. apply R_refl. Qed.

Lemma keeps_query {A : Type} (f : Db -> A) : keeps R (query f).
Proof. intros w. apply R_refl. Qed.

Lemma keeps_bind {A B : Type} (m : M A) (k : A -> M B) :
  keeps R m -> (forall a, keeps R (k a)) -> keeps R (bind m k).
Proof.
  intros Hm Hk w. unfold bind. specialize (Hm w).
  destruct (m w) as [[a|e] w1]; cbn in *; [| exact Hm].
  eapply R_trans; [exact Hm | apply Hk].
Qed.

Lemma keeps_try_catch {A : Type} (m : M A) (h : Err -> M A) :
  keeps R m -> (forall e, keeps R (h e)) -> keeps R (try_catch m h).
Proof.
  intros Hm Hh w. unfold try_catch. specialize (Hm w).
  destruct (m w) as [[a|e] w1]; cbn in *; [exact Hm |].
  eapply R_trans; [exact Hm | apply Hh].
Qed.

Lemma keeps_for_each_count {A : Type} (xs : list A) (body : A -> M Z) (acc : Z) :
  (forall x, In x xs -> keeps R (body x)) -> keeps R (for_each_count xs body acc).
Proof.
  revert acc. induction xs as [|x xs IH]; intros acc Hbody; cbn [for_each_count].
  - apply keeps_ret.
  - apply keeps_bind; [apply Hbody; left; reflexivity |].
    intros n. apply IH. intros y Hy. apply Hbody. right. exact Hy.
Qed.

End Keeps.

Lemma returns_ret {A : Type} (a : A) : returns (ret a).
Proof. intros w. exists a. reflexivity. Qed.

Lemma returns_query {A : Type} (f : Db -> A) : returns (query f).
Proof. intros w. eexists. reflexivity. Qed.

Lemma returns_bind {A B : Type} (m : M A) (k : A -> M B) :
  returns m -> (forall a, returns (k a)) -> returns (bind m k).
Proof.
  intros Hm Hk w. unfold bind. destruct (Hm w) as (a & Ha).
  destruct (m w) as [r w1]; cbn in Ha; subst r. apply Hk.
Qed.

Lemma returns_try_catch {A : Type} (m : M A) (h : Err -> M A) :
  (forall e, returns (h e)) -> returns (try_catch m h).
Proof.
  intros Hh w. unfold try_catch.
  destruct (m w) as [[a|e] w1]; [exists a; reflexivity | apply Hh].
Qed.

Lemma run_bind {A B : Type} (m : M A) (k : A -> M B) (w : World) (a : A) :
  fst (m w) = Ok a -> run (bind m k) w = run (k a) (run m w).
Proof.
  unfold run, bind. destruct (m w) as [r w1]; cbn. intros ->. reflexivity.
Qed.

Lemma for_each_count_app {A : Type} (body : A -> M Z) (l1 l2 : list A) (acc : Z) (w : World) :
  (forall x, returns (body x)) ->
  exists acc', run (for_each_count (l1 ++ l2) body acc) w =
               run (for_each_count l2 body acc') (run (for_each_count l1 body acc) w).
Proof.
  intros Hbody. revert acc w. induction l1 as [|x l1 IH]; intros acc w.
  - exists acc. reflexivity.
  - cbn [app for_each_count].
    destruct (Hbody x w) as (n & Hn).
    rewrite !(run_bind _ _ w n Hn).
    apply IH.
Qed.

(** ** Escalation chain *)

(** The select of [runEscalationCheck] names a column that [sla_events]
    does not have. *)
Lemma escalation_select_names_missing_column :
  filter (fun c => negb (has_column sla_events_columns c)) escalation_select_columns
  = ["metadata"].
Proof. reflexivity. Qed.

(** An escalation check throws at its select and leaves the world as it
    found it: the loop is never entered. *)
Lemma runEscalationCheck_throws (E : Env) (now : Instant) (w : World) :
  runEscalationCheck E now w = (Threw (PgError "42703"), w).
Proof. reflexivity. Qed.

Lemma runEscalationCheck_run (E : Env) (now : Instant) (w : World) :
  run (runEscalationCheck E now) w = w.
Proof. unfold run. rewrite runEscalationCheck_throws. reflexivity. Qed.

(** A breach check neither records nor sends an escalation. *)
Lemma checkSlaBreaches_keeps_escalations (E : Env) (now : Instant) (w : World)
  (s : SlaEvent) :
  wf_db (db w) ->
  (forall kind, escalated kind s (db (run (checkSlaBreaches E now) w))
                = escalated kind s (db w))
  /\ (forall sev, alerts sev (sla_id s) (run (checkSlaBreaches E now) w)
                  = alerts sev (sla_id s) w).
Proof.
  intros Hwf.
  destruct (checkSlaBreaches_step E now w Hwf)
    as (_ & _ & _ & (acts & Hacts & Hty) & (tail & Hsent & Htail)).
  split.
  - intros kind. unfold escalated, escalationActivities. rewrite Hacts, filter_app.
    assert (Hnone : filter (fun a => (act_lead_id a =? sla_lead_id s)%nat
                      && (is_escalation_slack (act_type a)
                          || is_escalation_critical (act_type a))
                      && metadata_has_sla_id (act_metadata a) (sla_id s)) acts = []).
    { clear Hacts. induction Hty as [|a acts Ha _ IH]; [reflexivity |].
      cbn [filter]. rewrite IH, Ha. cbn [is_escalation_slack is_escalation_critical orb].
      rewrite andb_false_r. reflexivity. }
    rewrite Hnone, app_nil_r. reflexivity.
  - intros sev. unfold alerts, count_sent. rewrite Hsent, filter_length_app.
    assert (Hnone : filter (is_alert sev (sla_id s)) tail = []).
    { clear Hsent. induction Htail as [|e tail [_ (g & t & Hcall)] _ IH]; [reflexivity |].
      cbn [filter]. rewrite IH. unfold is_alert. rewrite Hcall.
      rewrite andb_false_r. reflexivity. }
    rewrite Hnone. cbn. lia.
Qed.

(** Poll cycles do what their breach checks alone do. *)
Lemma cycles_as_poll (E : Env) (times : list (Instant * Instant)) (w : World) :
  cycles E times w = snd (poll E (map fst times) w).
Proof.
  revert w. induction times as [|[t_breach t_escalation] rest IH]; intros w; [reflexivity |].
  cbn [cycles map fst]. rewrite poll_cons. cbn [snd].
  rewrite runEscalationCheck_run. apply IH.
Qed.

(** C3, as the code has it.  The select of [runEscalationCheck] names the
    column [sla_events.metadata], which the schema does not have, so every
    call throws SQLSTATE 42703 at the select, before its loop, and leaves
    the store and the trace as they were.  Poll cycles therefore do what
    their breach checks alone do; in particular, after 100 cycles for a
    timer stuck breached and open 49 minutes past its deadline, with
    every connector up, no alert of either level has been attempted, no
    escalation is on record, and the only calls made are the breach
    notices of the two timers that were overdue. *)
Theorem escalation_check_throws_at_its_select :
  (forall (E : Env) (now : Instant) (w : World),
     runEscalationCheck E now w = (Threw (PgError "42703"), w))
  /\ (forall (E : Env) (times : list (Instant * Instant)) (w : World),
        cycles E times w = snd (poll E (map fst times) w))
  /\ (let w' := cycles env_up (repeat (3000000, 3000000) 100) sla_world in
      get_sla 2%nat (db w') = Some (mkSla 2%nat 0%nat response_5min 0 100 None true true)
      /\ (3000000 - deadline_at timer_overdue) / 60000 = 49
      /\ alerts sev_warning 2%nat w' = 0%nat
      /\ alerts sev_critical 2%nat w' = 0%nat
      /\ escalated is_escalation_slack timer_overdue (db w') = false
      /\ escalated is_escalation_critical timer_overdue (db w') = false
      /\ map (fun e => (origin e, is_breach_notice (origin e) e)) (sent w')
         = [(1%nat, true); (2%nat, true)]).
Proof.
  split; [exact runEscalationCheck_throws |].
  split; [exact cycles_as_poll |].
  cbv zeta. repeat split; vm_compute; reflexivity.
Qed.

(** ** Sequencing engine *)

Lemma exec_touch_refl (j : Id) (w : World) : exec_touch j w w.
Proof. unfold exec_touch. repeat split; auto. Qed.

Lemma exec_touch_trans (j : Id) (w1 w2 w3 : World) :
  exec_touch j w1 w2 -> exec_touch j w2 w3 -> exec_touch j w1 w3.
Proof.
  unfold exec_touch.
  intros (A1 & A2 & A3 & A4 & A5 & A6 & A7) (B1 & B2 & B3 & B4 & B5 & B6 & B7).
  split; [congruence |]. split; [congruence |]. split; [congruence |].
  split; [congruence |]. split; [congruence |]. split.
  - intros x Hx Hj. apply B6; [apply A6; assumption | exact Hj].
  - intros k Hk. rewrite B7, A7; auto.
Qed.

Lemma connector_touch (E : Env) (j : Id) (c : Call) :
  keeps (exec_touch j) (connector E j c).
Proof.
  intros w. unfold connector.
  assert (H : exec_touch j w
                (mkWorld (db w) (sent w ++ [mkSent j c (connector_ok E (sent w) c)]))).
  { unfold exec_touch. cbn [db]. repeat split; auto.
    intros k Hk. unfold dispatched, count_sent. cbn [sent].
    rewrite filter_length_app. cbn. unfold is_text at 2. cbn [origin].
    destruct (Nat.eqb_spec j k); [congruence |]. cbn. lia. }
  destruct (connector_ok E (sent w) c); exact H.
Qed.

Lemma activity_touch (j : Id) (a : Activity) :
  keeps (exec_touch j) (execute (with_activities (fun rows => rows ++ [a]))).
Proof. intros w. unfold execute, exec_touch. cbn. repeat split; auto. Qed.

Lemma update_where_other {A : Type} (key : A -> Id) (k : Id) (f : A -> A)
  (l : list A) (x : A) :
  In x l -> key x <> k -> In x (update_where key k f l).
Proof.
  intros Hin Hk. unfold update_where. apply in_map_iff. exists x.
  split; [| exact Hin]. destruct (Nat.eqb_spec (key x) k); [contradiction | reflexivity].
Qed.

Lemma update_where_map {A B : Type} (key : A -> Id) (g : A -> B) (k : Id) (f : A -> A)
  (l : list A) :
  (forall r, g (f r) = g r) -> map g (update_where key k f l) = map g l.
Proof.
  intros Hf. unfold update_where. rewrite map_map. apply map_ext.
  intros r. destruct (key r =? k)%nat; [apply Hf | reflexivity].
Qed.

Lemma update_exec_touch (j : Id) (f : FollowUpExecution -> FollowUpExecution) :
  (forall e, exec_id (f e) = exec_id e) ->
  (forall e, exec_lead_id (f e) = exec_lead_id e) ->
  keeps (exec_touch j) (execute (with_executions (update_where exec_id j f))).
Proof.
  intros Hid Hlead w. unfold execute, exec_touch. cbn.
  split; [reflexivity |]. split; [reflexivity |]. split; [reflexivity |].
  split; [apply update_where_map; exact Hid |].
  split; [apply update_where_map; exact Hlead |].
  split; [| reflexivity].
  intros x Hx Hj. apply update_where_other; assumption.
Qed.

Lemma processExecution_touch (E : Env) (now : Instant) (row : FollowUpExecution * Lead) :
  keeps (exec_touch (exec_id (fst row))) (processExecution E now row).
Proof.
  pose proof (exec_touch_refl (exec_id (fst row))) as Hrefl.
  pose proof (exec_touch_trans (exec_id (fst row))) as Htrans.
  unfold processExecution, render, sendTextMessage.
  apply keeps_try_catch; [assumption | | intros e; apply keeps_ret; assumption].
  apply keeps_bind; [assumption | apply keeps_query; assumption |].
  intros [step|].
  - apply keeps_bind; [assumption | |].
    { destruct (handlebars E _ _); [apply keeps_ret | apply keeps_throw]; assumption. }
    intros message.
    apply keeps_bind; [assumption | |].
    { destruct (step_channel step); [apply connector_touch | apply keeps_ret; assumption]. }
    intros _.
    apply keeps_bind; [assumption | apply activity_touch |]. intros _.
    apply keeps_bind; [assumption | apply keeps_query; assumption |].
    intros nextStep.
    apply keeps_bind; [assumption | | intros _; apply keeps_ret; assumption].
    destruct nextStep; apply update_exec_touch; reflexivity.
  - apply keeps_bind; [assumption | | intros _; apply keeps_ret; assumption].
    apply update_exec_touch; reflexivity.
Qed.

Lemma processExecution_returns (E : Env) (now : Instant) (row : FollowUpExecution * Lead) :
  returns (processExecution E now row).
Proof.
  unfold processExecution. apply returns_try_catch. intros e. apply returns_ret.
Qed.

Lemma whatsapp_count (E : Env) (d : Db) (sequence : Id) (c : Z) (st : FollowUpStep) :
  find_step sequence (c + 1) d = Some st ->
  whatsapp_steps d sequence c 1 =
  match step_channel st with ch_whatsapp => 1%nat | ch_email => 0%nat end.
Proof. intros H. cbn. rewrite H. lia. Qed.

(** With working connectors, the loop body for an execution whose next step
    exists and renders sends that step (when its channel is WhatsApp) and
    then either reschedules the execution at the following step or, when
    there is none, completes it at once. *)
Lemma processExecution_hit (E : Env) (now : Instant) (e : FollowUpExecution) (lead : Lead)
  (w : World) (st : FollowUpStep) (message : string) :
  (forall h c, connector_ok E h c = true) ->
  In e (follow_up_executions (db w)) ->
  find_step (exec_sequence_id e) (current_step e + 1) (db w) = Some st ->
  handlebars E (template st) (template_data lead) = Some message ->
  let w' := run (processExecution E now (e, lead)) w in
  let e' :=
    match find_step (exec_sequence_id e) (current_step e + 1 + 1) (db w) with
    | Some next =>
        set_exec (current_step e + 1) (exec_status e)
                 (Some (now + delay_minutes next * 60000)) (exec_completed_at e) e
    | None => set_exec (current_step e + 1) completed None (Some now) e
    end in
  In e' (follow_up_executions (db w'))
  /\ dispatched (exec_id e) w' =
     (dispatched (exec_id e) w
      + whatsapp_steps (db w) (exec_sequence_id e) (current_step e) 1)%nat.
Proof.
  intros Hok He Hstep Hrender w' e'. unfold w', e'. clear w' e'.
  rewrite (whatsapp_count E _ _ _ _ Hstep).
  assert (Hlook : forall sequence order f d,
             find_step sequence order (with_activities f d) = find_step sequence order d)
    by reflexivity.
  destruct (find_step (exec_sequence_id e) (current_step e + 1 + 1) (db w))
    as [next|] eqn:Hnext.
  all: unfold processExecution, render, sendTextMessage, connector, template_data in *;
    unfold run, bind, query, execute, try_catch, ret; cbn [fst snd db sent];
    rewrite Hstep, Hrender;
    destruct (step_channel st); rewrite ?Hok; cbn [db sent fst snd];
    rewrite Hlook, Hnext; cbn [db sent fst snd].
  all: split;
    [ cbn [follow_up_executions with_executions with_activities];
      match goal with
      | |- In _ (update_where _ _ ?f _) =>
          apply (update_where_in exec_id (exec_id e) f _ e He eq_refl)
      end |].
  all: unfold dispatched, count_sent; cbn [sent];
    rewrite ?filter_length_app; cbn [filter List.length];
    unfold is_text; cbn [origin call]; rewrite ?Nat.eqb_refl; cbn [andb List.length];
    lia.
Qed.

Lemma keeps_weaken (R R' : World -> World -> Prop) {A : Type} (m : M A) :
  (forall w w', R w w' -> R' w w') -> keeps R m -> keeps R' m.
Proof. intros H Hm w. apply H, Hm. Qed.

Lemma exec_shape_refl (w : World) : exec_shape w w.
Proof. unfold exec_shape. repeat split; reflexivity. Qed.

Lemma exec_shape_trans (w1 w2 w3 : World) :
  exec_shape w1 w2 -> exec_shape w2 w3 -> exec_shape w1 w3.
Proof.
  unfold exec_shape. intros (A1 & A2 & A3 & A4 & A5) (B1 & B2 & B3 & B4 & B5).
  repeat split; congruence.
Qed.

Lemma exec_frame_refl (e : FollowUpExecution) (w : World) : exec_frame e w w.
Proof. unfold exec_frame. split; [apply exec_shape_refl | split; auto]. Qed.

Lemma exec_frame_trans (e : FollowUpExecution) (w1 w2 w3 : World) :
  exec_frame e w1 w2 -> exec_frame e w2 w3 -> exec_frame e w1 w3.
Proof.
  unfold exec_frame. intros (A1 & A2 & A3) (B1 & B2 & B3).
  split; [eapply exec_shape_trans; eassumption |]. split; [auto | congruence].
Qed.

Lemma exec_touch_shape (j : Id) (w w' : World) : exec_touch j w w' -> exec_shape w w'.
Proof. unfold exec_touch, exec_shape. intuition. Qed.

Lemma exec_touch_frame (j : Id) (e : FollowUpExecution) (w w' : World) :
  j <> exec_id e -> exec_touch j w w' -> exec_frame e w w'.
Proof.
  intros Hj Ht. split; [eapply exec_touch_shape; exact Ht |].
  destruct Ht as (_ & _ & _ & _ & _ & Hin & Hd).
  split; [intros He; apply Hin; [exact He | congruence] | apply Hd; congruence].
Qed.

Lemma selectDue_in (now : Instant) (d : Db) (row : FollowUpExecution * Lead) :
  In row (selectDue now d) <->
  In (fst row) (follow_up_executions d) /\ In (snd row) (leads d)
  /\ lead_id (snd row) = exec_lead_id (fst row)
  /\ exec_status (fst row) = active /\ is_due now (fst row) = true.
Proof.
  unfold selectDue. rewrite filter_In. destruct row as [e l].
  rewrite in_inner_join. cbn [fst snd].
  destruct (exec_status e), (is_due now e); cbn; intuition congruence.
Qed.

Lemma selectDue_NoDup (now : Instant) (d : Db) :
  wf_db d -> NoDup (map (fun r => exec_id (fst r)) (selectDue now d)).
Proof.
  intros (Hleads & _ & Hexec & _). unfold selectDue.
  apply (filter_keys_NoDup (fun r : FollowUpExecution * Lead => exec_id (fst r))).
  apply inner_join_keys_NoDup; assumption.
Qed.

Lemma find_step_steps (sequence : Id) (order : Z) (d d' : Db) :
  follow_up_steps d' = follow_up_steps d ->
  find_step sequence order d' = find_step sequence order d.
Proof. unfold find_step. intros ->. reflexivity. Qed.

Lemma whatsapp_steps_steps (sequence : Id) (c : Z) (n : nat) (d d' : Db) :
  follow_up_steps d' = follow_up_steps d ->
  whatsapp_steps d' sequence c n = whatsapp_steps d sequence c n.
Proof.
  intros H. revert c. induction n as [|n IH]; intros c; cbn; [reflexivity |].
  rewrite (find_step_steps _ _ d d' H), IH. reflexivity.
Qed.

Lemma on_schedule_steps (E : Env) (lead : Lead) (sequence : Id)
  (times : list Instant) (c : Z) (due : Instant) (d d' : Db) :
  follow_up_steps d' = follow_up_steps d ->
  on_schedule E d lead sequence c due times ->
  on_schedule E d' lead sequence c due times.
Proof.
  intros H. revert c due. induction times as [|now rest IH]; intros c due; cbn.
  - rewrite (find_step_steps _ _ d d' H). auto.
  - rewrite !(find_step_steps _ _ d d' H). intros (Hdue & Hst & Hrest).
    split; [exact Hdue |]. split; [exact Hst |]. apply IH. exact Hrest.
Qed.

Lemma exec_shape_wf (w w' : World) : exec_shape w w' -> wf_db (db w) -> wf_db (db w').
Proof.
  intros (Hsteps & Hleads & Hsla & Hids & Hlids) (A & B & C & D & F).
  unfold wf_db. rewrite Hleads, Hsla, Hids.
  split; [exact A |]. split; [exact B |]. split; [exact C |]. split; [exact D |].
  intros x Hx.
  assert (Hin : In (exec_lead_id x) (map exec_lead_id (follow_up_executions (db w'))))
    by (apply in_map; exact Hx).
  rewrite Hlids in Hin. apply in_map_iff in Hin. destruct Hin as (y & Hy & Hyin).
  rewrite <- Hy. apply F. exact Hyin.
Qed.

Lemma due_loop_shape (E : Env) (now : Instant) (rows : list (FollowUpExecution * Lead))
  (acc : Z) :
  keeps exec_shape (for_each_count rows (processExecution E now) acc).
Proof.
  apply keeps_for_each_count.
  - apply exec_shape_refl.
  - apply exec_shape_trans.
  - intros row _. eapply keeps_weaken; [| apply processExecution_touch].
    intros w w'. apply exec_touch_shape.
Qed.

Lemma due_loop_frame (E : Env) (now : Instant) (rows : list (FollowUpExecution * Lead))
  (acc : Z) (e : FollowUpExecution) :
  ~ In (exec_id e) (map (fun r => exec_id (fst r)) rows) ->
  keeps (exec_frame e) (for_each_count rows (processExecution E now) acc).
Proof.
  intros Hk. apply keeps_for_each_count.
  - apply exec_frame_refl.
  - apply exec_frame_trans.
  - intros row Hrow. eapply keeps_weaken; [| apply processExecution_touch].
    intros w w'. apply exec_touch_frame. intros Heq. apply Hk.
    rewrite <- Heq. apply (in_map (fun r => exec_id (fst r))). exact Hrow.
Qed.

(** One run of [processDueFollowUps], seen from a due, active execution
    whose next step exists and renders. *)
Lemma processDue_hit (E : Env) (now due : Instant) (w : World) (e : FollowUpExecution)
  (lead : Lead) (st : FollowUpStep) (message : string) :
  (forall h c, connector_ok E h c = true) ->
  wf_db (db w) ->
  In e (follow_up_executions (db w)) -> In lead (leads (db w)) ->
  lead_id lead = exec_lead_id e ->
  exec_status e = active -> next_run_at e = Some due -> due <= now ->
  find_step (exec_sequence_id e) (current_step e + 1) (db w) = Some st ->
  handlebars E (template st) (template_data lead) = Some message ->
  let w' := run (processDueFollowUps E now) w in
  let e' :=
    match find_step (exec_sequence_id e) (current_step e + 1 + 1) (db w) with
    | Some next =>
        set_exec (current_step e + 1) (exec_status e)
                 (Some (now + delay_minutes next * 60000)) (exec_completed_at e) e
    | None => set_exec (current_step e + 1) completed None (Some now) e
    end in
  exec_shape w w'
  /\ In e' (follow_up_executions (db w'))
  /\ dispatched (exec_id e) w' =
     (dispatched (exec_id e) w
      + whatsapp_steps (db w) (exec_sequence_id e) (current_step e) 1)%nat.
Proof.
  intros Hok Hwf He Hlead Hfk Hactive Hnext Hdue Hstep Hrender w' e'.
  pose proof (selectDue_NoDup now (db w) Hwf) as Hnd.
  assert (Hrow : In (e, lead) (selectDue now (db w))).
  { apply selectDue_in. cbn [fst snd]. repeat split; try assumption.
    unfold is_due. rewrite Hnext. apply Z.leb_le. exact Hdue. }
  assert (Hshape : exec_shape w w').
  { unfold w', processDueFollowUps.
    rewrite (run_bind _ _ w (selectDue now (db w))) by reflexivity.
    change (run (query (selectDue now)) w) with w.
    destruct (List.length (selectDue now (db w)) =? 0)%nat;
      [apply exec_shape_refl | apply due_loop_shape]. }
  split; [exact Hshape |].
  destruct (in_split _ _ Hrow) as (pre & post & Hsplit).
  rewrite Hsplit, map_app in Hnd. cbn [map fst] in Hnd.
  assert (Hpre : ~ In (exec_id e) (map (fun r => exec_id (fst r)) pre)).
  { intros Hin. apply NoDup_remove_2 in Hnd. apply Hnd, in_or_app. left. exact Hin. }
  assert (Hid : exec_id e' = exec_id e).
  { unfold e'.
    destruct (find_step (exec_sequence_id e) (current_step e + 1 + 1) (db w)); reflexivity. }
  assert (Hpost : ~ In (exec_id e') (map (fun r => exec_id (fst r)) post)).
  { rewrite Hid. intros Hin. apply NoDup_remove_2 in Hnd.
    apply Hnd, in_or_app. right. exact Hin. }
  assert (Hw' : exists acc1,
             w' = run (for_each_count ((e, lead) :: post) (processExecution E now) acc1)
                      (run (for_each_count pre (processExecution E now) 0) w)).
  { unfold w', processDueFollowUps.
    rewrite (run_bind _ _ w (selectDue now (db w))) by reflexivity.
    change (run (query (selectDue now)) w) with w.
    rewrite Hsplit.
    assert (Hlen : (List.length (pre ++ (e, lead) :: post) =? 0)%nat = false).
    { rewrite length_app. cbn. apply Nat.eqb_neq. lia. }
    rewrite Hlen.
    apply (for_each_count_app (processExecution E now) pre ((e, lead) :: post) 0 w
             (processExecution_returns E now)). }
  destruct Hw' as (acc1 & Hw'). rewrite Hw'. clear Hw'.
  set (w_pre := run (for_each_count pre (processExecution E now) 0) w).
  pose proof (due_loop_frame E now pre 0 e Hpre w) as Fpre.
  fold (run (for_each_count pre (processExecution E now) 0) w) in Fpre. fold w_pre in Fpre.
  destruct Fpre as ((Psteps & _) & Pin & Pd).
  cbn [for_each_count].
  destruct (processExecution_returns E now (e, lead) w_pre) as (n & Hn).
  rewrite (run_bind _ _ w_pre n Hn).
  set (w_hit := run (processExecution E now (e, lead)) w_pre).
  assert (Hstep' : find_step (exec_sequence_id e) (current_step e + 1) (db w_pre) = Some st)
    by (rewrite (find_step_steps _ _ _ _ Psteps); exact Hstep).
  pose proof (processExecution_hit E now e lead w_pre st message Hok (Pin He) Hstep' Hrender)
    as Fhit.
  cbv zeta in Fhit. fold w_hit in Fhit.
  rewrite (find_step_steps _ _ _ _ Psteps) in Fhit. fold e' in Fhit.
  rewrite (whatsapp_steps_steps _ _ _ _ _ Psteps) in Fhit.
  destruct Fhit as (Hin_hit & Hd_hit).
  pose proof (due_loop_frame E now post (acc1 + n) e' Hpost w_hit) as Fpost.
  fold (run (for_each_count post (processExecution E now) (acc1 + n)) w_hit) in Fpost.
  destruct Fpost as (_ & Qin & Qd).
  rewrite Hid in Qd.
  split; [apply Qin; exact Hin_hit |].
  rewrite Qd, Hd_hit, Pd. reflexivity.
Qed.

Lemma run_due_from (E : Env) (times : list Instant) (w : World) (e : FollowUpExecution)
  (lead : Lead) (due : Instant) :
  (forall h c, connector_ok E h c = true) ->
  wf_db (db w) ->
  In e (follow_up_executions (db w)) -> In lead (leads (db w)) ->
  lead_id lead = exec_lead_id e ->
  exec_status e = active -> next_run_at e = Some due ->
  times <> [] ->
  on_schedule E (db w) lead (exec_sequence_id e) (current_step e) due times ->
  exists e',
    In e' (follow_up_executions (db (run_due E times w)))
    /\ exec_id e' = exec_id e
    /\ exec_status e' = completed
    /\ current_step e' = current_step e + Z.of_nat (List.length times)
    /\ dispatched (exec_id e) (run_due E times w) =
       (dispatched (exec_id e) w
        + whatsapp_steps (db w) (exec_sequence_id e) (current_step e)
            (List.length times))%nat.
Proof.
  intros Hok. revert w e due.
  induction times as [|now rest IH];
    intros w e due Hwf He Hlead Hfk Hactive Hnext Hne Hsched; [contradiction |].
  cbn [on_schedule] in Hsched. destruct Hsched as (Hdue & (st & message & Hstep & Hrender) & Hrest).
  destruct (processDue_hit E now due w e lead st message Hok Hwf He Hlead Hfk Hactive Hnext
              Hdue Hstep Hrender) as (Hshape & Hin1 & Hd1).
  cbn [run_due].
  set (w1 := run (processDueFollowUps E now) w) in *.
  pose proof (exec_shape_wf w w1 Hshape Hwf) as Hwf1.
  destruct Hshape as (Hsteps & Hleads & _).
  apply (on_schedule_steps E lead _ rest _ _ (db w) (db w1) Hsteps) in Hrest.
  destruct rest as [|now2 rest'].
  - cbn [on_schedule] in Hrest.
    rewrite (find_step_steps _ _ _ _ Hsteps) in Hrest. rewrite Hrest in Hin1.
    cbn [run_due List.length].
    eexists. split; [exact Hin1 |]. cbn [set_exec exec_id exec_status current_step].
    repeat split; try reflexivity. exact Hd1.
  - pose proof Hrest as Hrest'. cbn [on_schedule] in Hrest'.
    destruct Hrest' as (_ & (st2 & m2 & Hstep2 & _) & _).
    rewrite (find_step_steps _ _ _ _ Hsteps) in Hstep2.
    rewrite Hstep2 in Hin1, Hrest.
    set (e1 := set_exec (current_step e + 1) (exec_status e)
                        (Some (now + delay_minutes st2 * 60000)) (exec_completed_at e) e) in *.
    assert (Hlead1 : In lead (leads (db w1))) by (rewrite Hleads; exact Hlead).
    destruct (IH w1 e1 (now + delay_minutes st2 * 60000) Hwf1 Hin1 Hlead1 Hfk Hactive
                eq_refl ltac:(discriminate) Hrest)
      as (e' & Hin' & Hid' & Hst' & Hcur' & Hd').
    exists e'. split; [exact Hin' |]. split; [exact Hid' |]. split; [exact Hst' |].
    cbn [e1 set_exec exec_id current_step exec_sequence_id] in Hcur', Hd'.
    split.
    + rewrite Hcur'. cbn [List.length]. lia.
    + rewrite Hd', Hd1.
      rewrite (whatsapp_steps_steps _ _ _ _ _ Hsteps).
      cbn [whatsapp_steps List.length]. lia.
Qed.

Lemma whatsapp_steps_all (E : Env) (d : Db) (lead : Lead) (sequence : Id)
  (times : list Instant) (c : Z) (due : Instant) :
  (forall st, In st (follow_up_steps d) -> step_channel st = ch_whatsapp) ->
  on_schedule E d lead sequence c due times ->
  whatsapp_steps d sequence c (List.length times) = List.length times.
Proof.
  intros Hall. revert c due.
  induction times as [|now rest IH]; intros c due Hsched; [reflexivity |].
  cbn [on_schedule] in Hsched. destruct Hsched as (_ & (st & m & Hstep & _) & Hrest).
  cbn [whatsapp_steps List.length]. rewrite Hstep.
  assert (Hch : step_channel st = ch_whatsapp).
  { apply Hall. unfold find_step in Hstep. apply find_some in Hstep. tauto. }
  rewrite Hch, (IH _ _ Hrest). reflexivity.
Qed.

(** C4, as the code has it.  With working connectors, an active execution
    at step 0 of a sequence of N steps, run through [processDueFollowUps] N
    times with every clock reading at or past the scheduled run, ends
    completed with [current_step = N]; the run that handles the last step
    completes it at once.  One text message is dispatched per step whose
    channel is WhatsApp, hence N messages when every step is a WhatsApp
    step; a step on the e-mail channel is logged and advanced without any
    message being sent. *)
Theorem sequence_exhaustion
  (E : Env) (w : World) (e : FollowUpExecution) (lead : Lead)
  (due : Instant) (times : list Instant) :
  (forall h c, connector_ok E h c = true) ->
  wf_db (db w) ->
  In e (follow_up_executions (db w)) -> In lead (leads (db w)) ->
  lead_id lead = exec_lead_id e ->
  exec_status e = active -> current_step e = 0 -> next_run_at e = Some due ->
  times <> [] ->
  on_schedule E (db w) lead (exec_sequence_id e) 0 due times ->
  let N := List.length times in
  let w' := run_due E times w in
  exists e',
    In e' (follow_up_executions (db w'))
    /\ exec_id e' = exec_id e
    /\ exec_status e' = completed
    /\ current_step e' = Z.of_nat N
    /\ dispatched (exec_id e) w' =
       (dispatched (exec_id e) w + whatsapp_steps (db w) (exec_sequence_id e) 0 N)%nat
    /\ ((forall st, In st (follow_up_steps (db w)) -> step_channel st = ch_whatsapp) ->
        dispatched (exec_id e) w' = (dispatched (exec_id e) w + N)%nat).
Proof.
  intros Hok Hwf He Hlead Hfk Hactive Hzero Hnext Hne Hsched N w'. subst N w'.
  rewrite <- Hzero in Hsched.
  destruct (run_due_from E times w e lead due Hok Hwf He Hlead Hfk Hactive Hnext Hne Hsched)
    as (e' & Hin & Hid & Hst & Hcur & Hd).
  rewrite Hzero in Hcur, Hd, Hsched.
  exists e'. split; [exact Hin |]. split; [exact Hid |]. split; [exact Hst |].
  split; [rewrite Hcur; reflexivity |]. split; [exact Hd |].
  intros Hall. rewrite Hd. f_equal.
  apply (whatsapp_steps_all E (db w) lead _ times 0 due Hall Hsched).
Qed.

Lemma two_step_world_wf : wf_db (db two_step_world).
Proof.
  unfold wf_db, two_step_world; cbn.
  split; [repeat constructor; simpl; tauto |].
  split; [constructor |].
  split; [repeat constructor; simpl; tauto |].
  split; [intros s [] |].
  intros e [<- | []]. left. reflexivity.
Qed.

Lemma sequence_exhaustion_witness :
  exists e',
    In e' (follow_up_executions (db (run_due env_up [3600000; 90000000] two_step_world)))
    /\ exec_id e' = 5%nat /\ exec_status e' = completed /\ current_step e' = 2
    /\ dispatched 5%nat (run_due env_up [3600000; 90000000] two_step_world) = 2%nat.
Proof.
  destruct (sequence_exhaustion env_up two_step_world
              (mkExec 5%nat 0%nat 7%nat 0 active (Some 3600000) None) known_lead
              3600000 [3600000; 90000000])
    as (e' & Hin & Hid & Hst & Hcur & _ & Hd);
    try reflexivity; try exact two_step_world_wf; try (left; reflexivity);
    try discriminate.
  - cbn. repeat split; try lia; eauto.
  - exists e'. split; [exact Hin |]. split; [exact Hid |]. split; [exact Hst |].
    split; [exact Hcur |].
    cbn [exec_id] in Hd. rewrite Hd; [reflexivity |].
    intros st [<- | [<- | []]]; reflexivity.
Defined.

(** C4 as stated fails: a sequence whose only step is an e-mail step is
    run to completion by one call, with [current_step = 1], and no message
    is dispatched. *)
Lemma email_step_dispatches_nothing :
  follow_up_executions (db (run_due env_up [3600000] email_sequence_world)) =
    [mkExec 5%nat 0%nat 7%nat 1 completed None (Some 3600000)]
  /\ sent (run_due env_up [3600000] email_sequence_world) = [].
Proof. split; vm_compute; reflexivity. Qed.


(** ** Further properties: phone normalization *)

Lemma normalizePhone_digits (phone : string) :
  normalizePhone phone = normalize_digits (strip_non_digits phone).
Proof. reflexivity. Qed.

Lemma strip_all_digits (s : string) : all_digits (strip_non_digits s) = true.
Proof.
  induction s as [|c s IH]; [reflexivity |]. simpl.
  destruct (is_digit c) eqn:Hc; [| exact IH]. simpl. rewrite Hc, IH. reflexivity.
Qed.

Lemma strip_of_digits (s : string) : all_digits s = true -> strip_non_digits s = s.
Proof.
  induction s as [|c s IH]; [reflexivity |]. simpl. intros H.
  apply andb_prop in H. destruct H as [Hc Hs]. rewrite Hc, (IH Hs). reflexivity.
Qed.

Lemma all_digits_append (a b : string) :
  all_digits (a ++ b)%string = all_digits a && all_digits b.
Proof.
  induction a as [|c a IH]; [reflexivity |]. simpl. rewrite IH, andb_assoc. reflexivity.
Qed.

Lemma all_digits_substring (s : string) (n m : nat) :
  all_digits s = true -> all_digits (String.substring n m s) = true.
Proof.
  revert n m. induction s as [|c s IH]; intros n m H.
  - destruct n, m; reflexivity.
  - simpl in H. apply andb_prop in H. destruct H as [Hc Hs].
    destruct n as [|n]; destruct m as [|m]; simpl; try reflexivity.
    + rewrite Hc. simpl. apply (IH 0%nat m Hs).
    + apply (IH n 0%nat Hs).
    + apply (IH n (S m) Hs).
Qed.

Lemma normalize_digits_all_digits (d : string) :
  all_digits d = true -> all_digits (normalize_digits d) = true.
Proof.
  intros Hd. unfold normalize_digits.
  set (d1 := if (String.length d =? 10)%nat || (String.length d =? 11)%nat
             then ("55" ++ d)%string else d).
  assert (Hd1 : all_digits d1 = true).
  { unfold d1. destruct (_ || _); [| exact Hd]. rewrite all_digits_append, Hd. reflexivity. }
  destruct (_ && startsWith d1 "55"); [| exact Hd1].
  destruct (_ && negb _); [| exact Hd1].
  unfold substring, substring_from.
  rewrite !all_digits_append, !all_digits_substring by exact Hd1. reflexivity.
Qed.

(** X1. The normalized phone consists of decimal digits only, whatever the
    input. *)
Theorem normalizePhone_only_digits (phone : string) :
  all_digits (normalizePhone phone) = true.
Proof.
  rewrite normalizePhone_digits. apply normalize_digits_all_digits, strip_all_digits.
Qed.

Ltac settle_digits :=
  unfold normalize_digits, startsWith, substring, substring_from;
  repeat (cbn -[ascii_dec];
          match goal with
          | H : ascii_dec ?x ?y = _ |- context [ascii_dec ?x ?y] => rewrite H
          | |- context [ascii_dec ?x ?y] =>
              let H := fresh "Hdec" in destruct (ascii_dec x y) eqn:H
          end);
  cbn -[ascii_dec]; reflexivity.

Lemma normalize_digits_settles (d : string) :
  normalize_digits (normalize_digits d) = normalize_digits d.
Proof.
  destruct (Nat.eq_dec (String.length d) 10) as [H10 | N10];
    [| destruct (Nat.eq_dec (String.length d) 11) as [H11 | N11];
       [| destruct (Nat.eq_dec (String.length d) 12) as [H12 | N12]]].
  - do 10 (destruct d as [|? d]; [discriminate H10 |]).
    destruct d; [| discriminate H10]. clear H10. settle_digits.
  - do 11 (destruct d as [|? d]; [discriminate H11 |]).
    destruct d; [| discriminate H11]. clear H11. settle_digits.
  - do 12 (destruct d as [|? d]; [discriminate H12 |]).
    destruct d; [| discriminate H12]. clear H12. settle_digits.
  - assert (Hsame : normalize_digits d = d).
    { unfold normalize_digits.
      apply Nat.eqb_neq in N10, N11, N12. rewrite N10, N11. cbn [orb]. rewrite N12. reflexivity. }
    rewrite !Hsame. reflexivity.
Qed.

(** X2. Normalizing a phone that is already normalized changes nothing. *)
Theorem normalizePhone_idempotent (phone : string) :
  normalizePhone (normalizePhone phone) = normalizePhone phone.
Proof.
  assert (Hd : all_digits (normalizePhone phone) = true).
  { rewrite normalizePhone_digits. apply normalize_digits_all_digits, strip_all_digits. }
  rewrite (normalizePhone_digits (normalizePhone phone)).
  rewrite (strip_of_digits _ Hd).
  rewrite normalizePhone_digits. apply normalize_digits_settles.
Qed.

(** ** Further properties: lead scoring *)

Lemma completeness_range (b1 b2 b3 b4 b5 b6 b7 : bool) :
  0 <= math_round_div (count_true [b1; b2; b3; b4; b5; b6; b7] * 15)
                      (Z.of_nat (List.length [b1; b2; b3; b4; b5; b6; b7])) <= 15.
Proof.
  destruct b1, b2, b3, b4, b5, b6, b7; vm_compute; split; discriminate.
Qed.

Lemma completeness_grows (b1 b2 b3 b4 b5 b6 : bool) :
  math_round_div (count_true [b1; b2; b3; b4; b5; b6; false] * 15)
                 (Z.of_nat (List.length [b1; b2; b3; b4; b5; b6; false]))
  <= math_round_div (count_true [b1; b2; b3; b4; b5; b6; true] * 15)
                    (Z.of_nat (List.length [b1; b2; b3; b4; b5; b6; true])).
Proof.
  destruct b1, b2, b3, b4, b5, b6; vm_compute; discriminate.
Qed.

(** X3. The cap of the score never cuts.  The five parts of the score
    (source, client type, project stage, ticket, completeness) are at most
    25, 20, 20, 20 and 15, so that their sum is at most 100 and the score
    is that sum; it lies between 8 and 100 for every input, and both bounds
    are reached: by a bare WhatsApp contact and by an architect's referral
    with every qualification field filled. *)
Theorem scoreLead_range (input : RawLeadInput) :
  scoreLead input =
    source_points input + client_points input + stage_points input
    + ticket_points input + completeness_points input
  /\ 8 <= source_points input <= 25
  /\ 0 <= client_points input <= 20
  /\ 0 <= stage_points input <= 20
  /\ 0 <= ticket_points input <= 20
  /\ 0 <= completeness_points input <= 15
  /\ 8 <= scoreLead input <= 100
  /\ scoreLead bare_input = 8 /\ scoreLead full_input = 100.
Proof.
  assert (Hc : 0 <= completeness_points input <= 15).
  { unfold completeness_points. apply completeness_range. }
  assert (Hs : 8 <= source_points input <= 25).
  { unfold source_points. destruct (in_source input); cbn [sourceScores]; lia. }
  assert (Hk : 0 <= client_points input <= 20).
  { unfold client_points. destruct (in_client_type input) as [[]|]; lia. }
  assert (Hg : 0 <= stage_points input <= 20).
  { unfold stage_points. destruct (in_project_stage input) as [[]|]; lia. }
  assert (Ht : 0 <= ticket_points input <= 20).
  { unfold ticket_points. destruct (in_estimated_ticket input) as [t|]; [| lia].
    destruct (truthy_num (Some t)); [| lia].
    destruct (t >=? 100000); [lia |]. destruct (t >=? 50000); [lia |].
    destruct (t >=? 20000); lia. }
  assert (Hsum : scoreLead input =
                 source_points input + client_points input + stage_points input
                 + ticket_points input + completeness_points input).
  { unfold scoreLead. cbv zeta.
    fold (completeness_points input). fold (source_points input).
    rewrite Z.min_l.
    - unfold client_points, stage_points, ticket_points.
      destruct (in_client_type input) as [[]|];
        destruct (in_project_stage input) as [[]|];
        destruct (in_estimated_ticket input) as [t|];
        try (destruct (truthy_num (Some t));
             [destruct (t >=? 100000);
              [| destruct (t >=? 50000); [| destruct (t >=? 20000)]] |]);
        lia.
    - unfold client_points, stage_points, ticket_points in Hk, Hg, Ht.
      destruct (in_client_type input) as [[]|];
        destruct (in_project_stage input) as [[]|];
        destruct (in_estimated_ticket input) as [t|];
        try (destruct (truthy_num (Some t));
             [destruct (t >=? 100000);
              [| destruct (t >=? 50000); [| destruct (t >=? 20000)]] |]);
        lia. }
  split; [exact Hsum |].
  split; [exact Hs |]. split; [exact Hk |]. split; [exact Hg |].
  split; [exact Ht |]. split; [exact Hc |].
  split; [rewrite Hsum; lia |].
  split; reflexivity.
Qed.

(** X4. A larger positive ticket never lowers the score, and any positive
    ticket scores at least as much as no ticket at all. *)
Theorem scoreLead_ticket_monotone (input : RawLeadInput) (t1 t2 : Z) :
  0 < t1 -> t1 <= t2 ->
  scoreLead (with_ticket None input) <= scoreLead (with_ticket (Some t1) input)
  /\ scoreLead (with_ticket (Some t1) input) <= scoreLead (with_ticket (Some t2) input).
Proof.
  intros Hpos Hle.
  unfold scoreLead, with_ticket. cbv zeta.
  cbn [in_source in_client_type in_project_stage in_estimated_ticket in_email
       in_project_type in_location in_estimated_deadline].
  pose proof (completeness_grows
                (truthy_str (in_email input)) (truthy_opt (in_client_type input))
                (truthy_opt (in_project_type input)) (truthy_opt (in_project_stage input))
                (truthy_str (in_location input)) (truthy_str (in_estimated_deadline input)))
    as Hr.
  assert (H1 : truthy_num (Some t1) = true).
  { unfold truthy_num. destruct (Z.eqb_spec t1 0); [lia | reflexivity]. }
  assert (H2 : truthy_num (Some t2) = true).
  { unfold truthy_num. destruct (Z.eqb_spec t2 0); [lia | reflexivity]. }
  rewrite H1, H2. change (truthy_num None) with false.
  set (r0 := math_round_div _ _) in *.
  set (r1 := math_round_div _ _) in *.
  clearbody r0 r1.
  destruct (in_source input); cbn [sourceScores];
    destruct (in_client_type input) as [[]|];
    destruct (in_project_stage input) as [[]|];
    destruct (Z.geb_spec t1 100000); destruct (Z.geb_spec t2 100000);
    destruct (Z.geb_spec t1 50000); destruct (Z.geb_spec t2 50000);
    destruct (Z.geb_spec t1 20000); destruct (Z.geb_spec t2 20000);
    lia.
Qed.

Lemma scoreLead_ticket_monotone_witness :
  scoreLead (with_ticket None scenario_input) <= scoreLead (with_ticket (Some 30000) scenario_input)
  /\ scoreLead (with_ticket (Some 30000) scenario_input)
     <= scoreLead (with_ticket (Some 150000) scenario_input).
Proof. apply (scoreLead_ticket_monotone scenario_input 30000 150000); lia. Defined.

(** X5. A ticket of zero counts as no ticket, and a negative ticket is scored
    like the smallest positive one: both the ticket band and the
    completeness count test the amount for truthiness only. *)
Theorem scoreLead_falsy_and_negative_ticket (input : RawLeadInput) (t : Z) :
  scoreLead (with_ticket (Some 0) input) = scoreLead (with_ticket None input)
  /\ (t < 0 ->
      scoreLead (with_ticket (Some t) input) = scoreLead (with_ticket (Some 1) input)).
Proof.
  split; [reflexivity |].
  intros Hneg. unfold scoreLead, with_ticket. cbv zeta.
  cbn [in_source in_client_type in_project_stage in_estimated_ticket in_email
       in_project_type in_location in_estimated_deadline].
  assert (H1 : truthy_num (Some t) = true).
  { unfold truthy_num. destruct (Z.eqb_spec t 0); [lia | reflexivity]. }
  rewrite H1. change (truthy_num (Some 1)) with true. cbv iota.
  destruct (Z.geb_spec t 100000); [lia |].
  destruct (Z.geb_spec t 50000); [lia |].
  destruct (Z.geb_spec t 20000); [lia |].
  reflexivity.
Qed.

Lemma scoreLead_falsy_and_negative_ticket_witness :
  scoreLead (with_ticket (Some (-5)) bare_input) = scoreLead (with_ticket (Some 1) bare_input).
Proof.
  apply (proj2 (scoreLead_falsy_and_negative_ticket bare_input (-5))). lia.
Defined.

(** ** Further properties: SLA timers *)

(** X6. [completeSla] closes every open timer of the lead and type at the
    given instant and returns; timers of another lead or type and timers
    already completed stay as they are, so an earlier completion instant is
    never overwritten and a second call changes nothing.  Leads and the
    trace of connector calls are not touched. *)
Theorem completeSla_closes_open_timers_once
  (now later : Instant) (leadId : Id) (ty : SlaType) (w : World) :
  let w' := run (completeSla now leadId ty) w in
  result (completeSla now leadId ty) w = Ok tt
  /\ (forall s, In s (sla_events (db w)) ->
                sla_lead_id s = leadId -> sla_type s = ty -> completed_at s = None ->
                In (set_completed_at (Some now) s) (sla_events (db w')))
  /\ (forall s, In s (sla_events (db w)) ->
                sla_lead_id s <> leadId \/ sla_type s <> ty \/ completed_at s <> None ->
                In s (sla_events (db w')))
  /\ (forall s, In s (sla_events (db w')) ->
                sla_lead_id s = leadId -> sla_type s = ty -> completed_at s <> None)
  /\ map sla_id (sla_events (db w')) = map sla_id (sla_events (db w))
  /\ leads (db w') = leads (db w)
  /\ sent w' = sent w
  /\ run (completeSla later leadId ty) w' = w'.
Proof.
  cbv zeta. unfold completeSla, run, result, execute. cbn.
  set (close := fun t s =>
         if (sla_lead_id s =? leadId)%nat
            && (if SlaType_eq_dec (sla_type s) ty then true else false)
            && is_null (completed_at s)
         then set_completed_at (Some t) s else s).
  assert (Hopen : forall t s, sla_lead_id s = leadId -> sla_type s = ty ->
                              completed_at s = None -> close t s = set_completed_at (Some t) s).
  { intros t s Hl Ht Hc. unfold close. rewrite Hl, Nat.eqb_refl, Hc.
    destruct (SlaType_eq_dec (sla_type s) ty); [reflexivity | contradiction]. }
  assert (Hskip : forall t s, sla_lead_id s <> leadId \/ sla_type s <> ty
                              \/ completed_at s <> None -> close t s = s).
  { intros t s H. unfold close.
    destruct (Nat.eqb_spec (sla_lead_id s) leadId) as [Hl|Hl]; [| reflexivity].
    destruct (SlaType_eq_dec (sla_type s) ty) as [Ht|Ht]; [| reflexivity].
    destruct (completed_at s) eqn:Hc; [reflexivity |].
    destruct H as [H | [H | H]]; contradiction. }
  assert (Hdone : forall t s, sla_lead_id (close t s) = leadId -> sla_type (close t s) = ty ->
                              completed_at (close t s) <> None).
  { intros t s. unfold close.
    destruct (Nat.eqb_spec (sla_lead_id s) leadId) as [Hl|Hl]; cbn [andb].
    - destruct (SlaType_eq_dec (sla_type s) ty) as [Ht|Ht]; cbn [andb].
      + destruct (completed_at s) eqn:Hc; cbn [is_null].
        * intros _ _. rewrite Hc. discriminate.
        * intros _ _. discriminate.
      + intros _ H. contradiction.
    - intros H. contradiction. }
  split; [reflexivity |].
  split.
  { intros s Hin Hl Ht Hc. rewrite <- (Hopen now s Hl Ht Hc). apply in_map. exact Hin. }
  split.
  { intros s Hin H. rewrite <- (Hskip now s H) at 1. apply in_map. exact Hin. }
  split.
  { intros s Hin. apply in_map_iff in Hin. destruct Hin as (s0 & <- & _). apply Hdone. }
  split.
  { rewrite map_map. apply map_ext. intros s. unfold close.
    destruct (_ && _); reflexivity. }
  split; [reflexivity |]. split; [reflexivity |].
  f_equal. unfold with_sla_events. cbn. f_equal.
  rewrite map_map. apply map_ext. intros s.
  apply Hskip.
  destruct (Nat.eq_dec (sla_lead_id (close now s)) leadId) as [Hl|Hl]; [| left; exact Hl].
  destruct (SlaType_eq_dec (sla_type (close now s)) ty) as [Ht|Ht]; [| right; left; exact Ht].
  right; right. apply Hdone; assumption.
Qed.

Lemma completeSla_closes_open_timers_once_witness :
  let w' := run (completeSla 70 0%nat response_5min) closed_world in
  In (set_completed_at (Some 70) timer_overdue) (sla_events (db w'))
  /\ In timer_closed (sla_events (db w'))
  /\ run (completeSla 90 0%nat response_5min) w' = w'.
Proof.
  destruct (completeSla_closes_open_timers_once 70 90 0%nat response_5min closed_world)
    as (_ & Hopen & Hkeep & _ & _ & _ & _ & Hagain).
  split; [| split].
  - apply Hopen; [left; reflexivity | reflexivity | reflexivity | reflexivity].
  - apply Hkeep; [right; left; reflexivity | right; right; discriminate].
  - exact Hagain.
Defined.

(** ** Further properties: completed timers *)

(** One poll cycle, seen from a completed timer. *)
Lemma cycle_skips_completed (E : Env) (t_breach t_escalation : Instant) (w : World)
  (s : SlaEvent) :
  wf_db (db w) -> In s (sla_events (db w)) -> completed_at s <> None ->
  let w' := run (runEscalationCheck E t_escalation) (run (checkSlaBreaches E t_breach) w) in
  wf_db (db w')
  /\ In s (sla_events (db w'))
  /\ notices (sla_id s) w' = notices (sla_id s) w
  /\ (forall sev, alerts sev (sla_id s) w' = alerts sev (sla_id s) w)
  /\ (forall kind, escalated kind s (db w') = escalated kind s (db w)).
Proof.
  intros Hwf Hs Hdone. cbv zeta. rewrite runEscalationCheck_run.
  assert (Hnotsel : ~ In (sla_id s) (selected_ids t_breach (db w))).
  { intros Hin. apply (selected_iff t_breach (db w) s Hwf Hs) in Hin.
    destruct Hin as (Hopen & _). contradiction. }
  destruct (check_not_selected E t_breach w s Hs Hnotsel) as (Hs1 & Hn1).
  destruct (checkSlaBreaches_step E t_breach w Hwf) as (Hwf1 & _).
  destruct (checkSlaBreaches_keeps_escalations E t_breach w s Hwf) as (He1 & Ha1).
  split; [exact Hwf1 |]. split; [exact Hs1 |]. split; [exact Hn1 |].
  split; [exact Ha1 | exact He1].
Qed.

(** Poll cycles, seen from a completed timer. *)
Lemma cycles_skip_completed
  (E : Env) (times : list (Instant * Instant)) (w : World) (s : SlaEvent) :
  wf_db (db w) -> In s (sla_events (db w)) -> completed_at s <> None ->
  let w' := cycles E times w in
  In s (sla_events (db w'))
  /\ notices (sla_id s) w' = notices (sla_id s) w
  /\ (forall sev, alerts sev (sla_id s) w' = alerts sev (sla_id s) w)
  /\ (forall kind, escalated kind s (db w') = escalated kind s (db w)).
Proof.
  revert w. induction times as [|[t_breach t_escalation] rest IH]; intros w Hwf Hs Hdone.
  - cbn. repeat split; auto.
  - cbn [cycles].
    destruct (cycle_skips_completed E t_breach t_escalation w s Hwf Hs Hdone)
      as (Hwf1 & Hs1 & Hn1 & Ha1 & He1).
    destruct (IH _ Hwf1 Hs1 Hdone) as (Hs2 & Hn2 & Ha2 & He2).
    split; [exact Hs2 |].
    split; [rewrite Hn2; exact Hn1 |].
    split.
    + intros sev. rewrite Ha2. apply Ha1.
    + intros kind. rewrite He2. apply He1.
Qed.

(** X8. A completed timer is out of reach of the monitors: over any number
    of poll cycles, at any clock readings and whatever the connectors do,
    its row stays as it is, and no breach notice, alert or escalation
    record is produced for it. *)
Theorem completed_timer_is_left_alone
  (E : Env) (times : list (Instant * Instant)) (w : World) (s : SlaEvent) :
  wf_db (db w) -> In s (sla_events (db w)) -> completed_at s <> None ->
  let w' := cycles E times w in
  In s (sla_events (db w'))
  /\ notices (sla_id s) w' = notices (sla_id s) w
  /\ (forall sev, alerts sev (sla_id s) w' = alerts sev (sla_id s) w)
  /\ (forall kind, escalated kind s (db w') = escalated kind s (db w)).
Proof. exact (cycles_skip_completed E times w s). Qed.

Lemma closed_world_wf : wf_db (db closed_world).
Proof.
  unfold wf_db, closed_world; cbn.
  split; [repeat constructor; simpl; tauto |].
  split; [repeat constructor; simpl; intuition discriminate |].
  split; [constructor |].
  split; [| intros e []].
  intros s [<- | [<- | []]]; left; reflexivity.
Qed.

Lemma completed_timer_is_left_alone_witness :
  let w' := cycles env_down [(3000000, 3000000); (6000000, 6000000)] closed_world in
  In timer_closed (sla_events (db w')) /\ notices 4%nat w' = 0%nat.
Proof.
  destruct (completed_timer_is_left_alone env_down
              [(3000000, 3000000); (6000000, 6000000)] closed_world timer_closed)
    as (Hin & Hn & _).
  - exact closed_world_wf.
  - right; left; reflexivity.
  - discriminate.
  - split; [exact Hin | exact Hn].
Defined.

(** ** Further properties: sequencing engine *)

(** One run of [processDueFollowUps], seen from an execution of the table:
    either no loop body runs for it, or exactly one does, between loop
    bodies for other executions. *)
Lemma processDue_seen_from (E : Env) (now : Instant) (w : World) (e : FollowUpExecution) :
  wf_db (db w) -> In e (follow_up_executions (db w)) ->
  let w' := run (processDueFollowUps E now) w in
  (~ (exec_status e = active /\ is_due now e = true) /\ exec_frame e w w')
  \/ exists lead w_pre,
       In lead (leads (db w)) /\ lead_id lead = exec_lead_id e
       /\ exec_status e = active /\ is_due now e = true
       /\ exec_frame e w w_pre
       /\ forall e', exec_id e' = exec_id e ->
                     exec_frame e' (run (processExecution E now (e, lead)) w_pre) w'.
Proof.
  intros Hwf He w'.
  pose proof (selectDue_NoDup now (db w) Hwf) as Hnd.
  assert (Hrun : w' = if (List.length (selectDue now (db w)) =? 0)%nat then w
                      else run (for_each_count (selectDue now (db w))
                                               (processExecution E now) 0) w).
  { unfold w', processDueFollowUps.
    rewrite (run_bind _ _ w (selectDue now (db w))) by reflexivity.
    change (run (query (selectDue now)) w) with w.
    destruct (List.length (selectDue now (db w)) =? 0)%nat; reflexivity. }
  destruct (in_dec Id_eq_dec (exec_id e)
              (map (fun r => exec_id (fst r)) (selectDue now (db w)))) as [Hin | Hout].
  - right. apply in_map_iff in Hin. destruct Hin as ([e0 lead] & Hid & Hrow).
    pose proof Hrow as Hrow'.
    apply selectDue_in in Hrow'. cbn [fst snd] in Hrow', Hid.
    destruct Hrow' as (He0 & Hl & Hfk & Hact & Hdue).
    destruct Hwf as (_ & _ & Hex & _).
    assert (e0 = e) by (apply (key_determines_row exec_id _ _ _ Hex He0 He Hid)).
    subst e0.
    destruct (in_split _ _ Hrow) as (pre & post & Hsplit).
    rewrite Hsplit, map_app in Hnd. cbn [map fst] in Hnd.
    assert (Hpre : ~ In (exec_id e) (map (fun r => exec_id (fst r)) pre)).
    { intros Hin. apply NoDup_remove_2 in Hnd. apply Hnd, in_or_app. left. exact Hin. }
    assert (Hpost : ~ In (exec_id e) (map (fun r => exec_id (fst r)) post)).
    { intros Hin. apply NoDup_remove_2 in Hnd. apply Hnd, in_or_app. right. exact Hin. }
    rewrite Hsplit in Hrun.
    assert (Hlen : (List.length (pre ++ (e, lead) :: post) =? 0)%nat = false).
    { rewrite length_app. cbn. apply Nat.eqb_neq. lia. }
    rewrite Hlen in Hrun.
    destruct (for_each_count_app (processExecution E now) pre ((e, lead) :: post) 0 w
                (processExecution_returns E now)) as (acc1 & Happ).
    rewrite Happ in Hrun. clear Happ.
    set (w_pre := run (for_each_count pre (processExecution E now) 0) w) in *.
    cbn [for_each_count] in Hrun.
    destruct (processExecution_returns E now (e, lead) w_pre) as (n & Hn).
    rewrite (run_bind _ _ w_pre n Hn) in Hrun.
    exists lead, w_pre.
    split; [exact Hl |]. split; [exact Hfk |]. split; [exact Hact |]. split; [exact Hdue |].
    split.
    + exact (due_loop_frame E now pre 0 e Hpre w).
    + intros e' Hid'. rewrite Hrun.
      apply (due_loop_frame E now post (acc1 + n) e'). rewrite Hid'. exact Hpost.
  - left. split.
    + intros (Hact & Hdue). apply Hout.
      destruct Hwf as (_ & _ & _ & _ & Hfk).
      specialize (Hfk e He). apply in_map_iff in Hfk. destruct Hfk as (l & Hl & Hlin).
      apply (in_map (fun r => exec_id (fst r)) _ (e, l)).
      apply selectDue_in. cbn [fst snd]. auto.
    + rewrite Hrun.
      destruct (List.length (selectDue now (db w)) =? 0)%nat;
        [apply exec_frame_refl | exact (due_loop_frame E now _ 0 e Hout w)].
Qed.

Lemma processDue_shape (E : Env) (now : Instant) (w : World) :
  exec_shape w (run (processDueFollowUps E now) w).
Proof.
  unfold processDueFollowUps.
  rewrite (run_bind _ _ w (selectDue now (db w))) by reflexivity.
  change (run (query (selectDue now)) w) with w.
  destruct (List.length (selectDue now (db w)) =? 0)%nat;
    [apply exec_shape_refl | apply due_loop_shape].
Qed.

(** An execution that is not active is left alone by every run. *)
Lemma run_due_skips_inactive (E : Env) (times : list Instant) (w : World)
  (e : FollowUpExecution) :
  wf_db (db w) -> In e (follow_up_executions (db w)) -> exec_status e <> active ->
  In e (follow_up_executions (db (run_due E times w)))
  /\ dispatched (exec_id e) (run_due E times w) = dispatched (exec_id e) w.
Proof.
  revert w. induction times as [|now rest IH]; intros w Hwf He Hst; [split; auto |].
  cbn [run_due].
  destruct (processDue_seen_from E now w e Hwf He)
    as [[_ (_ & Hin & Hd)] | (_ & _ & _ & _ & Hact & _)]; [| contradiction].
  pose proof (exec_shape_wf _ _ (processDue_shape E now w) Hwf) as Hwf1.
  destruct (IH _ Hwf1 (Hin He) Hst) as (Hin' & Hd').
  split; [exact Hin' | congruence].
Qed.

Lemma cancel_keeps_wf (now : Instant) (leadId : Id) (reason : ExecStatus) (w : World) :
  wf_db (db w) -> wf_db (db (run (cancelSequencesForLead now leadId reason) w)).
Proof.
  intros Hwf. apply (exec_shape_wf w); [| exact Hwf].
  unfold exec_shape, cancelSequencesForLead, run, execute. cbn.
  split; [reflexivity |]. split; [reflexivity |]. split; [reflexivity |].
  split; rewrite map_map; apply map_ext; intros x; destruct (_ && _); reflexivity.
Qed.

(** X11. Cancelling is final: once [cancelSequencesForLead] has run for a
    lead, each of the lead's executions that was active carries the reason
    and the instant of the cancellation, the others are as before, and no
    later run of [processDueFollowUps], at any clock reading and whatever
    the connectors do, changes any of them or sends a message for them. *)
Theorem cancelled_sequence_stays_silent
  (E : Env) (now : Instant) (leadId : Id) (reason : ExecStatus)
  (times : list Instant) (w : World) (e : FollowUpExecution) :
  wf_db (db w) -> In e (follow_up_executions (db w)) ->
  exec_lead_id e = leadId -> reason = responded \/ reason = cancelled ->
  let e1 := if is_active (exec_status e)
            then set_exec (current_step e) reason (next_run_at e) (Some now) e
            else e in
  let w' := run_due E times (run (cancelSequencesForLead now leadId reason) w) in
  result (cancelSequencesForLead now leadId reason) w = Ok tt
  /\ In e1 (follow_up_executions (db w'))
  /\ dispatched (exec_id e) w' = dispatched (exec_id e) w.
Proof.
  intros Hwf He Hlead Hreason e1 w'.
  split; [reflexivity |].
  set (w1 := run (cancelSequencesForLead now leadId reason) w) in *.
  assert (Hwf1 : wf_db (db w1)) by (apply cancel_keeps_wf; exact Hwf).
  assert (He1 : In e1 (follow_up_executions (db w1))).
  { unfold w1, cancelSequencesForLead, run, execute. cbn.
    apply in_map_iff. exists e. split; [| exact He].
    unfold e1. rewrite Hlead, Nat.eqb_refl. reflexivity. }
  assert (Hst : exec_status e1 <> active).
  { unfold e1. destruct (exec_status e) eqn:Hs; cbn; rewrite ?Hs;
      destruct Hreason; subst reason; discriminate. }
  assert (Hid : exec_id e1 = exec_id e) by (unfold e1; destruct (is_active _); reflexivity).
  destruct (run_due_skips_inactive E times w1 e1 Hwf1 He1 Hst) as (Hin & Hd).
  split; [exact Hin |].
  fold w' in Hd. rewrite Hid in Hd. rewrite Hd. reflexivity.
Qed.

Lemma cancelled_sequence_stays_silent_witness :
  let w' := run_due env_up [3600000; 90000000]
                    (run (cancelSequencesForLead 1000 0%nat responded) two_step_world) in
  In (mkExec 5%nat 0%nat 7%nat 0 responded (Some 3600000) (Some 1000))
     (follow_up_executions (db w'))
  /\ dispatched 5%nat w' = 0%nat.
Proof.
  destruct (cancelled_sequence_stays_silent env_up 1000 0%nat responded
              [3600000; 90000000] two_step_world
              (mkExec 5%nat 0%nat 7%nat 0 active (Some 3600000) None))
    as (_ & Hin & Hd).
  - exact two_step_world_wf.
  - left; reflexivity.
  - reflexivity.
  - left; reflexivity.
  - split; [exact Hin | exact Hd].
Defined.

(** The loop body when the template does not render: nothing happens. *)
Lemma processExecution_render_fails (E : Env) (now : Instant) (e : FollowUpExecution)
  (lead : Lead) (w : World) (st : FollowUpStep) :
  find_step (exec_sequence_id e) (current_step e + 1) (db w) = Some st ->
  handlebars E (template st) (template_data lead) = None ->
  processExecution E now (e, lead) w = (Ok 0, w).
Proof.
  intros Hstep Hrender.
  unfold processExecution, render, try_catch, bind, query, throw, ret. cbn [fst snd].
  rewrite Hstep. fold (template_data lead). rewrite Hrender. reflexivity.
Qed.

(** The loop body when the message renders and the send throws: the
    attempt is on the trace and nothing is written. *)
Lemma processExecution_send_fails (E : Env) (now : Instant) (e : FollowUpExecution)
  (lead : Lead) (w : World) (st : FollowUpStep) (message : string) :
  (forall h n t, connector_ok E h (SendTextMessage n t) = false) ->
  find_step (exec_sequence_id e) (current_step e + 1) (db w) = Some st ->
  step_channel st = ch_whatsapp ->
  handlebars E (template st) (template_data lead) = Some message ->
  processExecution E now (e, lead) w =
  (Ok 0, mkWorld (db w)
                 (sent w ++ [mkSent (exec_id e)
                               (SendTextMessage (normalizePhone (phone_normalized lead))
                                                (TRendered message)) false])).
Proof.
  intros Hdown Hstep Hch Hrender.
  unfold processExecution, render, sendTextMessage, connector.
  unfold try_catch, bind, query, throw, ret. cbn [fst snd].
  rewrite Hstep. fold (template_data lead). rewrite Hrender, Hch.
  cbn [db sent]. rewrite Hdown. reflexivity.
Qed.

Lemma dispatched_snoc (k : Id) (d : Db) (t : list Sent) (e : Sent) :
  dispatched k (mkWorld d (t ++ [e])) =
  (dispatched k (mkWorld d t) + if is_text k e then 1 else 0)%nat.
Proof.
  unfold dispatched, count_sent. cbn [sent]. rewrite filter_length_app. cbn [filter].
  destruct (is_text k e); cbn [List.length]; lia.
Qed.

(** One run, seen from a due, active execution: its loop body runs once,
    between loop bodies for other executions. *)
Lemma processDue_runs_body (E : Env) (now due : Instant) (w : World)
  (e : FollowUpExecution) (lead : Lead) :
  wf_db (db w) ->
  In e (follow_up_executions (db w)) -> In lead (leads (db w)) ->
  lead_id lead = exec_lead_id e ->
  exec_status e = active -> next_run_at e = Some due -> due <= now ->
  exists w_pre,
    exec_frame e w w_pre
    /\ forall e', exec_id e' = exec_id e ->
                  exec_frame e' (run (processExecution E now (e, lead)) w_pre)
                             (run (processDueFollowUps E now) w).
Proof.
  intros Hwf He Hlead Hfk Hact Hnext Hdue.
  assert (Hisdue : is_due now e = true).
  { unfold is_due. rewrite Hnext. apply Z.leb_le. exact Hdue. }
  destruct (processDue_seen_from E now w e Hwf He)
    as [[Hno _] | (lead' & w_pre & Hl' & Hfk' & _ & _ & Fpre & Fpost)];
    [exfalso; apply Hno; split; assumption |].
  assert (lead' = lead).
  { destruct Hwf as (Hnd & _).
    apply (key_determines_row lead_id _ _ _ Hnd Hl' Hlead). congruence. }
  subst lead'. exists w_pre. split; assumption.
Qed.

(** Runs at or after the due instant, seen from an execution whose
    template does not render. *)
Lemma run_due_render_fails (E : Env) (times : list Instant) (due : Instant) (w : World)
  (e : FollowUpExecution) (lead : Lead) (st : FollowUpStep) :
  wf_db (db w) ->
  In e (follow_up_executions (db w)) -> In lead (leads (db w)) ->
  lead_id lead = exec_lead_id e ->
  exec_status e = active -> next_run_at e = Some due ->
  Forall (fun now => due <= now) times ->
  find_step (exec_sequence_id e) (current_step e + 1) (db w) = Some st ->
  handlebars E (template st) (template_data lead) = None ->
  In e (follow_up_executions (db (run_due E times w)))
  /\ dispatched (exec_id e) (run_due E times w) = dispatched (exec_id e) w.
Proof.
  revert w. induction times as [|now rest IH];
    intros w Hwf He Hlead Hfk Hact Hnext Htimes Hstep Hrender; [split; auto |].
  cbn [run_due]. inversion Htimes as [|? ? Hdue Hrest]; subst.
  destruct (processDue_runs_body E now due w e lead Hwf He Hlead Hfk Hact Hnext Hdue)
    as (w_pre & Fpre & Fpost).
  pose proof (processDue_shape E now w) as Hshape.
  set (w1 := run (processDueFollowUps E now) w) in *.
  destruct Fpre as ((Psteps & _) & Pin & Pd).
  assert (Hstep' : find_step (exec_sequence_id e) (current_step e + 1) (db w_pre) = Some st)
    by (rewrite (find_step_steps _ _ _ _ Psteps); exact Hstep).
  assert (Hrow : run (processExecution E now (e, lead)) w_pre = w_pre).
  { unfold run. rewrite (processExecution_render_fails E now e lead w_pre st Hstep' Hrender).
    reflexivity. }
  specialize (Fpost e eq_refl). rewrite Hrow in Fpost. destruct Fpost as (_ & Qin & Qd).
  pose proof (exec_shape_wf _ _ Hshape Hwf) as Hwf1.
  destruct Hshape as (Hsteps & Hleads & _).
  destruct (IH w1 Hwf1 (Qin (Pin He)) ltac:(rewrite Hleads; exact Hlead) Hfk Hact Hnext Hrest
               ltac:(rewrite (find_step_steps _ _ _ _ Hsteps); exact Hstep) Hrender)
    as (Hin & Hd).
  split; [exact Hin | congruence].
Qed.

(** Runs at or after the due instant, seen from an execution whose
    message renders and whose send throws. *)
Lemma run_due_send_fails (E : Env) (times : list Instant) (due : Instant) (w : World)
  (e : FollowUpExecution) (lead : Lead) (st : FollowUpStep) (message : string) :
  (forall h n t, connector_ok E h (SendTextMessage n t) = false) ->
  wf_db (db w) ->
  In e (follow_up_executions (db w)) -> In lead (leads (db w)) ->
  lead_id lead = exec_lead_id e ->
  exec_status e = active -> next_run_at e = Some due ->
  Forall (fun now => due <= now) times ->
  find_step (exec_sequence_id e) (current_step e + 1) (db w) = Some st ->
  step_channel st = ch_whatsapp ->
  handlebars E (template st) (template_data lead) = Some message ->
  In e (follow_up_executions (db (run_due E times w)))
  /\ dispatched (exec_id e) (run_due E times w) =
     (dispatched (exec_id e) w + List.length times)%nat.
Proof.
  intros Hdown. revert w. induction times as [|now rest IH];
    intros w Hwf He Hlead Hfk Hact Hnext Htimes Hstep Hch Hrender;
    [split; [exact He | cbn; lia] |].
  cbn [run_due]. inversion Htimes as [|? ? Hdue Hrest]; subst.
  destruct (processDue_runs_body E now due w e lead Hwf He Hlead Hfk Hact Hnext Hdue)
    as (w_pre & Fpre & Fpost).
  pose proof (processDue_shape E now w) as Hshape.
  set (w1 := run (processDueFollowUps E now) w) in *.
  destruct Fpre as ((Psteps & _) & Pin & Pd).
  assert (Hstep' : find_step (exec_sequence_id e) (current_step e + 1) (db w_pre) = Some st)
    by (rewrite (find_step_steps _ _ _ _ Psteps); exact Hstep).
  assert (Hrow : run (processExecution E now (e, lead)) w_pre =
                 mkWorld (db w_pre)
                   (sent w_pre ++ [mkSent (exec_id e)
                      (SendTextMessage (normalizePhone (phone_normalized lead))
                                       (TRendered message)) false])).
  { unfold run.
    rewrite (processExecution_send_fails E now e lead w_pre st message Hdown Hstep' Hch
               Hrender). reflexivity. }
  specialize (Fpost e eq_refl). rewrite Hrow in Fpost. destruct Fpost as (_ & Qin & Qd).
  cbn [db] in Qin. rewrite dispatched_snoc in Qd.
  unfold is_text in Qd. cbn [origin call] in Qd. rewrite Nat.eqb_refl in Qd. cbn [andb] in Qd.
  assert (Hsame : dispatched (exec_id e) (mkWorld (db w_pre) (sent w_pre))
                  = dispatched (exec_id e) w_pre) by reflexivity.
  rewrite Hsame, Pd in Qd.
  pose proof (exec_shape_wf _ _ Hshape Hwf) as Hwf1.
  destruct Hshape as (Hsteps & Hleads & _).
  destruct (IH w1 Hwf1 (Qin (Pin He)) ltac:(rewrite Hleads; exact Hlead) Hfk Hact Hnext Hrest
               ltac:(rewrite (find_step_steps _ _ _ _ Hsteps); exact Hstep) Hch Hrender)
    as (Hin & Hd).
  split; [exact Hin |]. rewrite Hd, Qd. cbn [List.length]. lia.
Qed.

(** X12. A step that fails is retried at every run and never advances.
    For an active execution that is due, and runs at or after its due
    instant: when the template does not render, every run leaves the
    execution as it is and sends nothing; when the message renders and the
    WhatsApp send throws, every run leaves the execution as it is and makes
    one more send attempt. *)
Theorem failed_step_is_retried_every_run
  (E : Env) (times : list Instant) (due : Instant) (w : World)
  (e : FollowUpExecution) (lead : Lead) (st : FollowUpStep) :
  wf_db (db w) ->
  In e (follow_up_executions (db w)) -> In lead (leads (db w)) ->
  lead_id lead = exec_lead_id e ->
  exec_status e = active -> next_run_at e = Some due ->
  Forall (fun now => due <= now) times ->
  find_step (exec_sequence_id e) (current_step e + 1) (db w) = Some st ->
  let w' := run_due E times w in
  (handlebars E (template st) (template_data lead) = None ->
   In e (follow_up_executions (db w'))
   /\ dispatched (exec_id e) w' = dispatched (exec_id e) w)
  /\ (forall message,
        handlebars E (template st) (template_data lead) = Some message ->
        step_channel st = ch_whatsapp ->
        (forall h n t, connector_ok E h (SendTextMessage n t) = false) ->
        In e (follow_up_executions (db w'))
        /\ dispatched (exec_id e) w' =
           (dispatched (exec_id e) w + List.length times)%nat).
Proof.
  intros Hwf He Hlead Hfk Hact Hnext Htimes Hstep w'. split.
  - intros Hrender.
    exact (run_due_render_fails E times due w e lead st Hwf He Hlead Hfk Hact Hnext
             Htimes Hstep Hrender).
  - intros message Hrender Hch Hdown.
    exact (run_due_send_fails E times due w e lead st message Hdown Hwf He Hlead Hfk Hact
             Hnext Htimes Hstep Hch Hrender).
Qed.

Lemma failed_step_is_retried_every_run_witness :
  let w' := run_due env_down [3600000; 3660000; 3720000] two_step_world in
  In (mkExec 5%nat 0%nat 7%nat 0 active (Some 3600000) None) (follow_up_executions (db w'))
  /\ dispatched 5%nat w' = 3%nat.
Proof.
  destruct (failed_step_is_retried_every_run env_down [3600000; 3660000; 3720000] 3600000
              two_step_world (mkExec 5%nat 0%nat 7%nat 0 active (Some 3600000) None)
              known_lead (mkStep 7%nat 1 60 ch_whatsapp "Ola {{name}}"))
    as (_ & Hsend).
  - exact two_step_world_wf.
  - left; reflexivity.
  - left; reflexivity.
  - reflexivity.
  - reflexivity.
  - reflexivity.
  - repeat constructor; cbn; lia.
  - reflexivity.
  - apply (Hsend "Ola {{name}}"); reflexivity.
Defined.

(** ** Further properties: ingestion *)

(** What [ingestLead] does for a contact whose phone is not known yet,
    whatever Pipedrive and the connectors do. *)
Lemma ingestLead_new_run (E : Env) (now : Instant) (input : RawLeadInput) (w : World) :
  lead_of_phone (normalizePhone (in_phone input)) (db w) = None ->
  let lead := new_lead now (next_id (db w)) input in
  ingestLead E now input w =
  (Ok (mkResult lead true
                match pipedrive E lead with Some (_, deal) => Some deal | None => None end),
   after_new_lead E now input w).
Proof.
  intros Hfind. cbv zeta. unfold lead_of_phone in Hfind.
  unfold ingestLead, after_new_lead.
  unfold bind at 1. unfold query at 1. rewrite Hfind.
  unfold syncToPipedrive, startSla, notifyNewLead, connector.
  unfold bind, query, execute, ret, throw, try_catch, fresh_id.
  cbn [db sent next_id with_next_id with_leads with_activities with_sla_events
       leads activities sla_events webhook_logs follow_up_steps follow_up_executions
       lead_id name phone source project_type location].
  fold (new_lead now (next_id (db w)) input).
  destruct (pipedrive E (new_lead now (next_id (db w)) input)) as [[person deal]|];
    cbn [db sent next_id with_next_id with_leads with_activities with_sla_events
         leads activities sla_events webhook_logs follow_up_steps follow_up_executions
         new_lead lead_id name phone source project_type location];
    destruct (configured (WHATSAPP_SDR_GROUP E)) as [g|];
    cbn [db sent]; try destruct (connector_ok E (sent w) _);
    cbn [db sent]; rewrite ?app_nil_r; reflexivity.
Qed.

Lemma find_map_same {A : Type} (p : A -> bool) (f : A -> A) (l : list A) :
  (forall x, p (f x) = p x) -> find p (map f l) = option_map f (find p l).
Proof.
  intros Hp. induction l as [|x l IH]; [reflexivity |].
  cbn [map find]. rewrite Hp. destruct (p x); [reflexivity | exact IH].
Qed.

Lemma find_snoc_fresh {A : Type} (p : A -> bool) (l : list A) (x : A) :
  find p l = None -> find p (l ++ [x]) = if p x then Some x else None.
Proof.
  induction l as [|y l IH]; [reflexivity |].
  cbn [app find]. destruct (p y); [discriminate | exact IH].
Qed.

Lemma find_found {A : Type} (p : A -> bool) (l : list A) (x : A) :
  In x l -> p x = true -> exists y, find p l = Some y.
Proof.
  intros Hin Hp. destruct (find p l) as [y|] eqn:Hf; [exists y; reflexivity |].
  pose proof (find_none p l Hf x Hin). congruence.
Qed.

Lemma update_where_as_map {A : Type} (key : A -> Id) (k : Id) (f : A -> A) (l : list A) :
  update_where key k f l = map (fun r => if (key r =? k)%nat then f r else r) l.
Proof. reflexivity. Qed.

(** The leads [ingestLead] leaves behind for a known contact. *)
Lemma ingestLead_merge_run (E : Env) (now : Instant) (input : RawLeadInput) (w : World)
  (existing : Lead) :
  lead_of_phone (normalizePhone (in_phone input)) (db w) = Some existing ->
  let u := merge_updates now existing input in
  let leads' :=
    if (1 <? List.length (update_keys u))%nat
    then update_where lead_id (lead_id existing) (apply_updates u) (leads (db w))
    else leads (db w) in
  exists updated,
    find (fun l => (lead_id l =? lead_id existing)%nat) leads' = Some updated
    /\ ingestLead E now input w =
       (Ok (mkResult updated false None),
        mkWorld (mkDb leads'
                      (activities (db w) ++
                         [mkActivity (lead_id existing) note
                                     (DescDuplicateMerged (in_source input))
                                     (MetaMerged (in_source input) (update_keys u))])
                      (sla_events (db w)) (webhook_logs (db w)) (follow_up_steps (db w))
                      (follow_up_executions (db w)) (next_id (db w)))
                (sent w)).
Proof.
  intros Hfind u leads'. unfold lead_of_phone in Hfind.
  assert (Hin : In existing (leads (db w))) by (apply find_some in Hfind; tauto).
  assert (Hex : exists updated,
             find (fun l => (lead_id l =? lead_id existing)%nat) leads' = Some updated).
  { unfold leads'. destruct (1 <? _)%nat.
    - apply (find_found _ _ (apply_updates u existing)).
      + apply update_where_in; [exact Hin | reflexivity].
      + cbn. apply Nat.eqb_refl.
    - apply (find_found _ _ existing Hin). apply Nat.eqb_refl. }
  destruct Hex as (updated & Hupd). exists updated. split; [exact Hupd |].
  unfold ingestLead. unfold bind at 1. unfold query at 1. rewrite Hfind.
  unfold mergeLead. fold u.
  unfold bind, query, execute, ret, throw.
  unfold leads' in Hupd |- *.
  destruct (1 <? List.length (update_keys u))%nat;
    cbn [db sent leads with_leads with_activities activities sla_events webhook_logs
         follow_up_steps follow_up_executions next_id];
    rewrite Hupd; reflexivity.
Qed.

Lemma lead_of_phone_found (p : string) (d : Db) (l : Lead) :
  lead_of_phone p d = Some l -> In l (leads d) /\ phone_normalized l = p.
Proof.
  unfold lead_of_phone. intros H. apply find_some in H. destruct H as (Hin & Hp).
  split; [exact Hin | apply String.eqb_eq; exact Hp].
Qed.

Lemma lead_of_phone_missing (p : string) (d : Db) :
  lead_of_phone p d = None -> ~ In p (map phone_normalized (leads d)).
Proof.
  unfold lead_of_phone. intros H Hin. apply in_map_iff in Hin.
  destruct Hin as (l & Hp & Hl).
  pose proof (find_none _ _ H l Hl) as Hno. cbn in Hno.
  rewrite Hp, String.eqb_refl in Hno. discriminate.
Qed.

(** X13. One lead per phone.  [ingestLead] returns whatever Pipedrive
    and the connectors do; it creates a lead exactly when no lead has the
    normalized phone, so that leads stay pairwise distinct by normalized
    phone, and afterwards the dedup lookup finds the lead it returned. *)
Theorem ingestLead_one_lead_per_phone
  (E : Env) (now : Instant) (input : RawLeadInput) (w : World) :
  phones_unique (db w) ->
  let p := normalizePhone (in_phone input) in
  exists r w',
    ingestLead E now input w = (Ok r, w')
    /\ phones_unique (db w')
    /\ isNew r = is_null (lead_of_phone p (db w))
    /\ List.length (leads (db w')) =
       (List.length (leads (db w)) + if isNew r then 1 else 0)%nat
    /\ exists stored, lead_of_phone p (db w') = Some stored
                      /\ lead_id stored = lead_id (res_lead r).
Proof.
  intros Huniq p. unfold phones_unique in *.
  destruct (lead_of_phone p (db w)) as [existing|] eqn:Hfind.
  - destruct (ingestLead_merge_run E now input w existing Hfind) as (updated & Hupd & Hrun).
    cbv zeta in Hupd, Hrun.
    eexists; eexists. split; [exact Hrun |]. cbn [db leads isNew res_lead is_null].
    set (u := merge_updates now existing input) in *.
    set (g := fun r : Lead =>
                if (lead_id r =? lead_id existing)%nat then apply_updates u r else r).
    assert (Hg : forall x, phone_normalized (g x) = phone_normalized x).
    { intros x. unfold g. destruct (_ =? _)%nat; reflexivity. }
    assert (Hid : lead_id updated = lead_id existing).
    { apply find_some in Hupd. destruct Hupd as (_ & H). apply Nat.eqb_eq. exact H. }
    destruct (lead_of_phone_found _ _ _ Hfind) as (Hin & Hph).
    destruct (1 <? List.length (update_keys u))%nat.
    + rewrite update_where_as_map. fold g.
      split; [rewrite map_map; rewrite (map_ext _ _ Hg); exact Huniq |].
      split; [reflexivity |].
      split; [rewrite length_map; lia |].
      exists (g existing). split.
      * unfold lead_of_phone. cbn [db leads].
        rewrite (find_map_same _ g).
        -- unfold lead_of_phone in Hfind. rewrite Hfind. reflexivity.
        -- intros x. rewrite Hg. reflexivity.
      * rewrite Hid. unfold g. destruct (_ =? _)%nat; reflexivity.
    + split; [exact Huniq |]. split; [reflexivity |]. split; [lia |].
      exists existing. split; [exact Hfind | congruence].
  - pose proof (ingestLead_new_run E now input w Hfind) as Hrun. cbv zeta in Hrun.
    eexists; eexists. split; [exact Hrun |].
    cbn [isNew res_lead is_null]. unfold after_new_lead. cbn [db leads].
    set (lead := new_lead now (next_id (db w)) input) in *.
    pose proof (lead_of_phone_missing _ _ Hfind) as Hmiss.
    assert (Hsnoc : NoDup (map phone_normalized (leads (db w) ++ [lead]))).
    { rewrite map_app. cbn [map]. apply NoDup_app; [exact Huniq | repeat constructor; auto |].
      intros x Hx [<- | []]. exact (Hmiss Hx). }
    assert (Hfound : find (fun l => (phone_normalized l =? p)%string) (leads (db w) ++ [lead])
                     = Some lead).
    { rewrite find_snoc_fresh by exact Hfind. cbn. unfold p. rewrite String.eqb_refl.
      reflexivity. }
    destruct (pipedrive E lead) as [[person deal]|].
    + set (g := fun r : Lead =>
                  if (lead_id r =? next_id (db w))%nat then with_pipedrive person deal r
                  else r).
      assert (Hg : forall x, phone_normalized (g x) = phone_normalized x).
      { intros x. unfold g. destruct (_ =? _)%nat; reflexivity. }
      rewrite update_where_as_map. fold g.
      split; [rewrite map_map; rewrite (map_ext _ _ Hg); exact Hsnoc |].
      split; [reflexivity |].
      split; [rewrite length_map, length_app; cbn; lia |].
      exists (g lead). split.
      * unfold lead_of_phone. cbn [db leads].
        rewrite (find_map_same _ g); [rewrite Hfound; reflexivity |].
        intros x. rewrite Hg. reflexivity.
      * unfold g. destruct (_ =? _)%nat; reflexivity.
    + split; [exact Hsnoc |]. split; [reflexivity |].
      split; [rewrite length_app; cbn; lia |].
      exists lead. split; [exact Hfound | reflexivity].
Qed.

Lemma ingestLead_one_lead_per_phone_witness :
  exists r w',
    ingestLead env_offline 1000 richer_input known_world = (Ok r, w')
    /\ phones_unique (db w')
    /\ isNew r = false
    /\ List.length (leads (db w')) = 1%nat.
Proof.
  destruct (ingestLead_one_lead_per_phone env_offline 1000 richer_input known_world)
    as (r & w' & Hrun & Huniq & Hnew & Hlen & _).
  - unfold phones_unique. cbn. repeat constructor. simpl. tauto.
  - exists r, w'. split; [exact Hrun |]. split; [exact Huniq |].
    split; [exact Hnew |]. rewrite Hlen, Hnew. reflexivity.
Defined.

Lemma update_where_miss {A : Type} (key : A -> Id) (k : Id) (f : A -> A) (l : list A) :
  (forall x, In x l -> key x <> k) -> update_where key k f l = l.
Proof.
  intros H. unfold update_where. induction l as [|x l IH]; [reflexivity |].
  cbn [map]. destruct (Nat.eqb_spec (key x) k) as [Hk|_].
  - exfalso. apply (H x); [left; reflexivity | exact Hk].
  - f_equal. apply IH. intros y Hy. apply H. right. exact Hy.
Qed.

(** The leads after [ingestLead] has created a lead under a fresh id. *)
Lemma after_new_lead_leads (E : Env) (now : Instant) (input : RawLeadInput) (w : World) :
  (forall l, In l (leads (db w)) -> lead_id l <> next_id (db w)) ->
  let lead := new_lead now (next_id (db w)) input in
  leads (db (after_new_lead E now input w)) =
  leads (db w) ++ [match pipedrive E lead with
                   | Some (person, deal) => with_pipedrive person deal lead
                   | None => lead
                   end].
Proof.
  intros Hfresh lead. unfold after_new_lead. cbn [db leads]. fold lead.
  destruct (pipedrive E lead) as [[person deal]|]; [| reflexivity].
  rewrite update_where_as_map, map_app. fold (update_where lead_id (next_id (db w))
    (with_pipedrive person deal) (leads (db w))).
  rewrite (update_where_miss _ _ _ _ Hfresh). cbn [map lead lead_id new_lead].
  rewrite Nat.eqb_refl. reflexivity.
Qed.

(** X14. A new contact is taken in whatever happens outside.  When no lead
    has the normalized phone and the next id is not in use, [ingestLead]
    returns, adds exactly one lead, starts exactly one response timer whose
    deadline is five minutes after the clock reading, and attempts at most
    one notification, whether or not Pipedrive and the messaging connector
    throw.  The record it returns is the row as inserted: it never carries
    the Pipedrive ids, which only the stored row receives when the sync
    succeeds. *)
Theorem new_lead_survives_external_failures
  (E : Env) (now : Instant) (input : RawLeadInput) (w : World) :
  lead_of_phone (normalizePhone (in_phone input)) (db w) = None ->
  (forall l, In l (leads (db w)) -> lead_id l <> next_id (db w)) ->
  exists r w',
    ingestLead E now input w = (Ok r, w')
    /\ isNew r = true
    /\ res_lead r = new_lead now (next_id (db w)) input
    /\ pipedrive_deal_id (res_lead r) = None
    /\ pipedriveDealId r =
       match pipedrive E (res_lead r) with Some (_, deal) => Some deal | None => None end
    /\ leads (db w') =
       leads (db w) ++ [match pipedrive E (res_lead r) with
                        | Some (person, deal) => with_pipedrive person deal (res_lead r)
                        | None => res_lead r
                        end]
    /\ sla_events (db w') =
       sla_events (db w) ++
       [mkSla (S (next_id (db w))) (lead_id (res_lead r)) response_5min now (now + 300000)
              None false false]
    /\ (List.length (sent w') <= List.length (sent w) + 1)%nat
    /\ follow_up_executions (db w') = follow_up_executions (db w).
Proof.
  intros Hfind Hfresh.
  pose proof (ingestLead_new_run E now input w Hfind) as Hrun. cbv zeta in Hrun.
  eexists; eexists. split; [exact Hrun |]. cbn [isNew res_lead pipedriveDealId].
  split; [reflexivity |]. split; [reflexivity |]. split; [reflexivity |].
  split; [reflexivity |].
  split; [exact (after_new_lead_leads E now input w Hfresh) |].
  split; [reflexivity |].
  split; [| reflexivity].
  unfold after_new_lead. cbn [sent]. rewrite length_app.
  destruct (configured (WHATSAPP_SDR_GROUP E)); cbn [List.length]; lia.
Qed.

Lemma new_lead_survives_external_failures_witness :
  exists r w',
    ingestLead env_offline 1000 scenario_input world0 = (Ok r, w')
    /\ isNew r = true
    /\ pipedriveDealId r = None
    /\ List.length (leads (db w')) = 1%nat
    /\ sla_events (db w') = [mkSla 1%nat 0%nat response_5min 1000 301000 None false false].
Proof.
  destruct (new_lead_survives_external_failures env_offline 1000 scenario_input world0)
    as (r & w' & Hrun & Hnew & Hres & _ & Hdeal & Hleads & Hsla & _).
  - reflexivity.
  - intros l [].
  - exists r, w'. split; [exact Hrun |]. split; [exact Hnew |].
    split; [rewrite Hdeal; reflexivity |].
    split; [rewrite Hleads; reflexivity |].
    rewrite Hsla, Hres. reflexivity.
Defined.

(** ** Further properties: invariants of the store *)

Lemma keeps_for_each (R : World -> World -> Prop) {A : Type} (xs : list A)
  (body : A -> M unit) :
  (forall w, R w w) -> (forall w1 w2 w3, R w1 w2 -> R w2 w3 -> R w1 w3) ->
  (forall x, In x xs -> keeps R (body x)) -> keeps R (for_each xs body).
Proof.
  intros Hrefl Htrans. induction xs as [|x xs IH]; intros Hbody; cbn [for_each].
  - apply keeps_ret. exact Hrefl.
  - apply keeps_bind; [exact Htrans | apply Hbody; left; reflexivity |].
    intros _. apply IH. intros y Hy. apply Hbody. right. exact Hy.
Qed.

(** Walks down a computation built from the monad's combinators; [leaf]
    closes the primitive steps. *)
Ltac keeps_walk leaf :=
  repeat first
    [ leaf
    | apply keeps_ret; assumption
    | apply keeps_throw; assumption
    | apply keeps_query; assumption
    | apply keeps_bind; [assumption | | intros ?]
    | apply keeps_try_catch; [assumption | | intros ?]
    | apply keeps_for_each_count; [assumption | assumption | intros ? _]
    | apply keeps_for_each; [assumption | assumption | intros ? _]
    | match goal with
      | |- keeps _ (match ?x with _ => _ end) => destruct x
      end ].

Lemma keys_kept_refl (w : World) : keys_kept w w.
Proof. unfold keys_kept, same_keys. repeat split; reflexivity. Qed.

Lemma keys_kept_trans (w1 w2 w3 : World) :
  keys_kept w1 w2 -> keys_kept w2 w3 -> keys_kept w1 w3.
Proof.
  unfold keys_kept, same_keys.
  intros (A & B & C & D & F & G) (A' & B' & C' & D' & F' & G').
  repeat split; congruence.
Qed.

Lemma keys_connector (E : Env) (o : Id) (c : Call) : keeps keys_kept (connector E o c).
Proof.
  intros w. unfold connector, keys_kept, same_keys.
  destruct (connector_ok E (sent w) c); cbn; repeat split; reflexivity.
Qed.

Lemma keys_activities (f : list Activity -> list Activity) :
  keeps keys_kept (execute (with_activities f)).
Proof. intros w. unfold keys_kept, same_keys. cbn. repeat split; reflexivity. Qed.

Lemma keys_webhook_logs (f : list WebhookLog -> list WebhookLog) :
  keeps keys_kept (execute (with_webhook_logs f)).
Proof. intros w. unfold keys_kept, same_keys. cbn. repeat split; reflexivity. Qed.

Lemma keys_sla_map (f : SlaEvent -> SlaEvent) :
  (forall s, sla_id (f s) = sla_id s) -> (forall s, sla_lead_id (f s) = sla_lead_id s) ->
  keeps keys_kept (execute (with_sla_events (map f))).
Proof.
  intros Hid Hlead w. unfold keys_kept, same_keys, execute. cbn.
  rewrite !map_map.
  split; [reflexivity |]. split; [apply map_ext; exact Hid |].
  split; [apply map_ext; exact Hlead |]. repeat split; reflexivity.
Qed.

Lemma keys_sla_update (k : Id) (f : SlaEvent -> SlaEvent) :
  (forall s, sla_id (f s) = sla_id s) -> (forall s, sla_lead_id (f s) = sla_lead_id s) ->
  keeps keys_kept (execute (with_sla_events (update_where sla_id k f))).
Proof.
  intros Hid Hlead. apply keys_sla_map; intros s; destruct (_ =? _)%nat; auto.
Qed.

Lemma keys_exec_map (f : FollowUpExecution -> FollowUpExecution) :
  (forall e, exec_id (f e) = exec_id e) -> (forall e, exec_lead_id (f e) = exec_lead_id e) ->
  keeps keys_kept (execute (with_executions (map f))).
Proof.
  intros Hid Hlead w. unfold keys_kept, same_keys, execute. cbn.
  rewrite !map_map.
  split; [reflexivity |]. split; [reflexivity |]. split; [reflexivity |].
  split; [apply map_ext; exact Hid |].
  split; [apply map_ext; exact Hlead | reflexivity].
Qed.

Lemma keys_exec_update (k : Id) (f : FollowUpExecution -> FollowUpExecution) :
  (forall e, exec_id (f e) = exec_id e) -> (forall e, exec_lead_id (f e) = exec_lead_id e) ->
  keeps keys_kept (execute (with_executions (update_where exec_id k f))).
Proof.
  intros Hid Hlead. apply keys_exec_map; intros e; destruct (_ =? _)%nat; auto.
Qed.

Lemma keys_leads_update (k : Id) (f : Lead -> Lead) :
  (forall l, lead_id (f l) = lead_id l) ->
  keeps keys_kept (execute (with_leads (update_where lead_id k f))).
Proof.
  intros Hid w. unfold keys_kept, same_keys, execute, update_where. cbn.
  rewrite !map_map.
  split; [| repeat split; reflexivity].
  apply map_ext. intros l. destruct (_ =? _)%nat; auto.
Qed.

Lemma keys_insert_webhook_log (E : Env) (row : WebhookLog) :
  keeps keys_kept (insert_webhook_log E row).
Proof.
  intros w. unfold insert_webhook_log, keys_kept, same_keys.
  destruct (store_fault E row (db w)); [cbn; repeat split; reflexivity |].
  destruct (existsb _ _); cbn; repeat split; reflexivity.
Qed.

Ltac keys_leaf :=
  first [ apply keys_connector
        | apply keys_activities
        | apply keys_webhook_logs
        | apply keys_insert_webhook_log
        | apply keys_sla_update; intros; reflexivity
        | apply keys_sla_map; intros ?; destruct (_ && _); reflexivity
        | apply keys_exec_update; intros; reflexivity
        | apply keys_exec_map; intros ?; destruct (_ && _); reflexivity
        | apply keys_leads_update; intros; reflexivity ].

Ltac keys_walk :=
  pose proof keys_kept_refl as Hrefl;
  pose proof keys_kept_trans as Htrans;
  keeps_walk keys_leaf.

Lemma checkSlaBreaches_keys (E : Env) (now : Instant) :
  keeps keys_kept (checkSlaBreaches E now).
Proof. unfold checkSlaBreaches, processBreached, markBreached. keys_walk. Qed.

Lemma runEscalationCheck_keys (E : Env) (now : Instant) :
  keeps keys_kept (runEscalationCheck E now).
Proof.
  intros w. rewrite runEscalationCheck_throws. apply keys_kept_refl.
Qed.

Lemma processDueFollowUps_keys (E : Env) (now : Instant) :
  keeps keys_kept (processDueFollowUps E now).
Proof.
  unfold processDueFollowUps, processExecution, render, sendTextMessage. keys_walk.
Qed.

Lemma cancelSequencesForLead_keys (now : Instant) (leadId : Id) (reason : ExecStatus) :
  keeps keys_kept (cancelSequencesForLead now leadId reason).
Proof. unfold cancelSequencesForLead. keys_walk. Qed.

Lemma completeSla_keys (now : Instant) (leadId : Id) (ty : SlaType) :
  keeps keys_kept (completeSla now leadId ty).
Proof. unfold completeSla. keys_walk. Qed.

Lemma markWebhookStatus_keys (key : string) (st : WebhookStatus) (err : option string) :
  keeps keys_kept (markWebhookStatus key st err).
Proof. unfold markWebhookStatus. keys_walk. Qed.

Lemma isNewWebhookEvent_keys (E : Env) (src ty key payload : string) :
  keeps keys_kept (isNewWebhookEvent E src ty key payload).
Proof. unfold isNewWebhookEvent. keys_walk. Qed.

(** Consistency of the store in terms of its key columns. *)
Lemma store_ok_keys (d : Db) :
  store_ok d <->
  NoDup (map lead_id (leads d))
  /\ NoDup (map sla_id (sla_events d))
  /\ NoDup (map exec_id (follow_up_executions d))
  /\ incl (map sla_lead_id (sla_events d)) (map lead_id (leads d))
  /\ incl (map exec_lead_id (follow_up_executions d)) (map lead_id (leads d))
  /\ Forall (fun k => (k < next_id d)%nat) (map lead_id (leads d))
  /\ Forall (fun k => (k < next_id d)%nat) (map sla_id (sla_events d))
  /\ Forall (fun k => (k < next_id d)%nat) (map exec_id (follow_up_executions d)).
Proof.
  unfold store_ok, wf_db, ids_fresh, incl. rewrite !Forall_forall. split.
  - intros ((A & B & C & D & F) & (G & H & I)).
    split; [exact A |]. split; [exact B |]. split; [exact C |].
    split; [intros k Hk; apply in_map_iff in Hk; destruct Hk as (s & <- & Hs); auto |].
    split; [intros k Hk; apply in_map_iff in Hk; destruct Hk as (s & <- & Hs); auto |].
    split; [intros k Hk; apply in_map_iff in Hk; destruct Hk as (s & <- & Hs); auto |].
    split; intros k Hk; apply in_map_iff in Hk; destruct Hk as (s & <- & Hs); auto.
  - intros (A & B & C & D & F & G & H & I).
    split; [split; [exact A |]; split; [exact B |]; split; [exact C |]; split |].
    + intros s Hs. apply D. apply in_map. exact Hs.
    + intros e He. apply F. apply in_map. exact He.
    + split; [| split].
      * intros l Hl. apply G. apply in_map. exact Hl.
      * intros s Hs. apply H. apply (in_map sla_id). exact Hs.
      * intros e He. apply I. apply (in_map exec_id). exact He.
Qed.

Lemma store_ok_same_keys (d d' : Db) : same_keys d d' -> store_ok d -> store_ok d'.
Proof.
  intros (A & B & C & D & F & G). rewrite !store_ok_keys.
  rewrite A, B, C, D, F, G. exact (fun H => H).
Qed.

Lemma keys_kept_ok (w w' : World) : keys_kept w w' -> ok_step w w'.
Proof. intros H Hok. exact (store_ok_same_keys _ _ H Hok). Qed.

Lemma ok_step_refl (w : World) : ok_step w w.
Proof. intros H. exact H. Qed.

Lemma ok_step_trans (w1 w2 w3 : World) : ok_step w1 w2 -> ok_step w2 w3 -> ok_step w1 w3.
Proof. unfold ok_step. auto. Qed.

Lemma startSla_ok (now : Instant) (leadId : Id) (ty : SlaType) (w : World) :
  store_ok (db w) -> In leadId (map lead_id (leads (db w))) ->
  store_ok (db (run (startSla now leadId ty) w)).
Proof.
  rewrite !store_ok_keys. unfold startSla, run, bind, fresh_id, execute. cbn.
  intros (A & B & C & D & F & G & H & I) Hlead.
  rewrite !map_app. cbn [map sla_id sla_lead_id].
  split; [exact A |].
  split.
  { apply NoDup_app; [exact B | repeat constructor; auto |].
    intros k Hk [<- | []]. rewrite Forall_forall in H. specialize (H _ Hk). lia. }
  split; [exact C |].
  split; [apply incl_app; [exact D | intros k [<- | []]; exact Hlead] |].
  split; [exact F |].
  split; [eapply Forall_impl; [| exact G]; cbn; intros; lia |].
  split.
  - apply Forall_app. split; [eapply Forall_impl; [| exact H]; cbn; intros; lia |].
    repeat constructor.
  - eapply Forall_impl; [| exact I]; cbn; intros; lia.
Qed.

Lemma ingestLead_ok (E : Env) (now : Instant) (input : RawLeadInput) (w : World) :
  store_ok (db w) -> store_ok (db (run (ingestLead E now input) w)).
Proof.
  intros Hok.
  destruct (lead_of_phone (normalizePhone (in_phone input)) (db w)) as [existing|] eqn:Hfind.
  - destruct (ingestLead_merge_run E now input w existing Hfind) as (updated & _ & Hrun).
    cbv zeta in Hrun.
    set (leads' := if (1 <? _)%nat then _ else _) in Hrun.
    assert (Hl : map lead_id leads' = map lead_id (leads (db w))).
    { unfold leads'. destruct (1 <? _)%nat; [| reflexivity].
      apply update_where_keys. reflexivity. }
    unfold run. rewrite Hrun. cbn [snd db].
    apply (store_ok_same_keys (db w)); [| exact Hok].
    unfold same_keys.
    cbn [leads sla_events follow_up_executions next_id].
    split; [exact Hl | repeat split; reflexivity].
  - unfold run. rewrite (ingestLead_new_run E now input w Hfind). cbn [snd].
    revert Hok. rewrite !store_ok_keys. unfold after_new_lead. cbn [db leads sla_events
      follow_up_executions next_id].
    intros (A & B & C & D & F & G & H & I).
    set (lead := new_lead now (next_id (db w)) input).
    assert (Hids : map lead_id
                     match pipedrive E lead with
                     | Some (person, deal) =>
                         update_where lead_id (next_id (db w)) (with_pipedrive person deal)
                                      (leads (db w) ++ [lead])
                     | None => leads (db w) ++ [lead]
                     end = map lead_id (leads (db w)) ++ [next_id (db w)]).
    { destruct (pipedrive E lead) as [[person deal]|].
      - rewrite update_where_keys by reflexivity. rewrite map_app. reflexivity.
      - rewrite map_app. reflexivity. }
    rewrite Hids, !map_app. cbn [map sla_id sla_lead_id].
    split.
    { apply NoDup_app; [exact A | repeat constructor; auto |].
      intros k Hk [<- | []]. rewrite Forall_forall in G. specialize (G _ Hk). lia. }
    split.
    { apply NoDup_app; [exact B | repeat constructor; auto |].
      intros k Hk [<- | []]. rewrite Forall_forall in H. specialize (H _ Hk). lia. }
    split; [exact C |].
    split.
    { apply incl_app; [apply incl_appl; exact D |].
      intros k [<- | []]. apply in_or_app. right. left. reflexivity. }
    split; [apply incl_appl; exact F |].
    split.
    { apply Forall_app. split; [eapply Forall_impl; [| exact G]; cbn; intros; lia |].
      repeat constructor. }
    split.
    { apply Forall_app. split; [eapply Forall_impl; [| exact H]; cbn; intros; lia |].
      repeat constructor. }
    eapply Forall_impl; [| exact I]; cbn; intros; lia.
Qed.

Lemma ingestLead_ok_step (E : Env) (now : Instant) (input : RawLeadInput) :
  keeps ok_step (ingestLead E now input).
Proof. intros w Hok. exact (ingestLead_ok E now input w Hok). Qed.

Ltac ok_leaf :=
  first [ apply ingestLead_ok_step
        | eapply keeps_weaken; [exact keys_kept_ok |];
          first [ apply markWebhookStatus_keys | apply isNewWebhookEvent_keys ] ].

Lemma metaWebhookPost_ok_step (E : Env) (now : Instant) (entries : list (list Change)) :
  keeps ok_step (metaWebhookPost E now entries).
Proof.
  pose proof ok_step_refl as Hrefl. pose proof ok_step_trans as Htrans.
  unfold metaWebhookPost, processChange. keeps_walk ok_leaf.
Qed.

Lemma handleActivityCompleted_ok (now : Instant) (dealId : Z) (ty : string) (w : World) :
  store_ok (db w) -> store_ok (db (run (handleActivityCompleted now dealId ty) w)).
Proof.
  intros Hok. unfold handleActivityCompleted.
  rewrite (run_bind _ _ w (find (has_deal dealId) (leads (db w)))) by reflexivity.
  change (run (query (fun d => find (has_deal dealId) (leads d))) w) with w.
  destruct (find (has_deal dealId) (leads (db w))) as [lead|] eqn:Hfind; [| exact Hok].
  assert (Hin : In (lead_id lead) (map lead_id (leads (db w)))).
  { apply in_map. apply find_some in Hfind. tauto. }
  destruct (_ || _).
  - exact (keys_kept_ok _ _ (completeSla_keys now (lead_id lead) response_5min w) Hok).
  - destruct (ty =? "meeting")%string; [| exact Hok].
    rewrite (run_bind _ _ w tt) by reflexivity.
    pose proof (completeSla_keys now (lead_id lead) meeting_48h w) as Hk.
    apply startSla_ok.
    + exact (keys_kept_ok _ _ Hk Hok).
    + destruct Hk as (Hl & _). unfold run. rewrite Hl. exact Hin.
Qed.

Lemma startSequenceForLead_ok (sequences : list FollowUpSequence) (now : Instant)
  (lead : Lead) (w : World) :
  store_ok (db w) -> In (lead_id lead) (map lead_id (leads (db w))) ->
  store_ok (db (run (startSequenceForLead sequences now lead) w)).
Proof.
  intros Hok Hin. unfold startSequenceForLead, run, bind, query, ret, fresh_id, execute.
  cbn [fst snd].
  destruct (find_active (lead_id lead) (db w)); [exact Hok |].
  destruct (find_sequence sequences (funnel lead)) as [sequence|]; [| exact Hok].
  destruct (find_step (seq_id sequence) 1 (db w)) as [firstStep|]; [| exact Hok].
  cbn. revert Hok. rewrite !store_ok_keys. cbn.
  intros (A & B & C & D & F & G & H & I).
  rewrite !map_app. cbn [map exec_id exec_lead_id].
  split; [exact A |]. split; [exact B |].
  split.
  { apply NoDup_app; [exact C | repeat constructor; auto |].
    intros k Hk [<- | []]. rewrite Forall_forall in I. specialize (I _ Hk). lia. }
  split; [exact D |].
  split; [apply incl_app; [exact F | intros k [<- | []]; exact Hin] |].
  split; [eapply Forall_impl; [| exact G]; cbn; intros; lia |].
  split; [eapply Forall_impl; [| exact H]; cbn; intros; lia |].
  apply Forall_app. split; [eapply Forall_impl; [| exact I]; cbn; intros; lia |].
  repeat constructor.
Qed.

(** X15. Every service keeps the store consistent.  From a store in which
    primary keys are unique, every timer and execution points to a lead and
    the next id is not in use, each of the services leaves such a store,
    whatever happens outside; the consistency that the properties of
    the monitors assume is therefore never lost. *)
Theorem services_keep_the_store_consistent (E : Env) (now : Instant) (w : World) :
  store_ok (db w) ->
  (forall input, store_ok (db (run (ingestLead E now input) w)))
  /\ (forall entries, store_ok (db (run (metaWebhookPost E now entries) w)))
  /\ (forall dealId ty, store_ok (db (run (handleActivityCompleted now dealId ty) w)))
  /\ (forall leadId ty, In leadId (map lead_id (leads (db w))) ->
                        store_ok (db (run (startSla now leadId ty) w)))
  /\ (forall leadId ty, store_ok (db (run (completeSla now leadId ty) w)))
  /\ store_ok (db (run (checkSlaBreaches E now) w))
  /\ store_ok (db (run (runEscalationCheck E now) w))
  /\ (forall sequences lead, In (lead_id lead) (map lead_id (leads (db w))) ->
                             store_ok (db (run (startSequenceForLead sequences now lead) w)))
  /\ (forall leadId reason,
        store_ok (db (run (cancelSequencesForLead now leadId reason) w)))
  /\ store_ok (db (run (processDueFollowUps E now) w)).
Proof.
  intros Hok.
  split; [intros input; apply ingestLead_ok; exact Hok |].
  split; [intros entries; exact (metaWebhookPost_ok_step E now entries w Hok) |].
  split; [intros dealId ty; apply handleActivityCompleted_ok; exact Hok |].
  split; [intros leadId ty Hin; apply startSla_ok; assumption |].
  split; [intros leadId ty; exact (keys_kept_ok _ _ (completeSla_keys now leadId ty w) Hok) |].
  split; [exact (keys_kept_ok _ _ (checkSlaBreaches_keys E now w) Hok) |].
  split; [exact (keys_kept_ok _ _ (runEscalationCheck_keys E now w) Hok) |].
  split; [intros sequences lead Hin; apply startSequenceForLead_ok; assumption |].
  split; [intros leadId reason;
          exact (keys_kept_ok _ _ (cancelSequencesForLead_keys now leadId reason w) Hok) |].
  exact (keys_kept_ok _ _ (processDueFollowUps_keys E now w) Hok).
Qed.

Lemma sla_world_ok : store_ok (db sla_world).
Proof.
  split; [exact sla_world_wf |].
  unfold ids_fresh, sla_world; cbn.
  split; [intros l [<- | []]; cbn; lia |].
  split; [intros s [<- | [<- | [<- | []]]]; cbn; lia | intros e []].
Qed.

Lemma services_keep_the_store_consistent_witness :
  store_ok (db (run (ingestLead env_offline 1000 scenario_input) sla_world))
  /\ store_ok (db (run (checkSlaBreaches env_offline 1000) sla_world)).
Proof.
  destruct (services_keep_the_store_consistent env_offline 1000 sla_world sla_world_ok)
    as (Hingest & _ & _ & _ & _ & Hcheck & _).
  split; [apply Hingest | exact Hcheck].
Defined.

(** ** Further properties: completed Pipedrive activities *)

Lemma completeSla_run (now : Instant) (leadId : Id) (ty : SlaType) (w : World) :
  completeSla now leadId ty w =
  (Ok tt,
   mkWorld (with_sla_events
              (map (fun s =>
                      if (sla_lead_id s =? leadId)%nat
                         && (if SlaType_eq_dec (sla_type s) ty then true else false)
                         && is_null (completed_at s)
                      then set_completed_at (Some now) s else s)) (db w))
           (sent w)).
Proof. reflexivity. Qed.

Lemma completeSla_other_lead (now : Instant) (leadId : Id) (ty : SlaType) (w : World)
  (s : SlaEvent) :
  In s (sla_events (db w)) ->
  sla_lead_id s <> leadId \/ sla_type s <> ty \/ completed_at s <> None ->
  In s (sla_events (db (run (completeSla now leadId ty) w))).
Proof.
  intros Hin Hother. unfold run. rewrite completeSla_run. cbn.
  apply in_map_iff. exists s. split; [| exact Hin].
  destruct (Nat.eqb_spec (sla_lead_id s) leadId) as [Hl|Hl]; [| reflexivity].
  destruct (SlaType_eq_dec (sla_type s) ty) as [Ht|Ht]; [| reflexivity].
  destruct (completed_at s) eqn:Hc; [reflexivity |].
  destruct Hother as [H | [H | H]]; contradiction.
Qed.

Lemma completeSla_open (now : Instant) (leadId : Id) (ty : SlaType) (w : World)
  (s : SlaEvent) :
  In s (sla_events (db w)) ->
  sla_lead_id s = leadId -> sla_type s = ty -> completed_at s = None ->
  In (set_completed_at (Some now) s) (sla_events (db (run (completeSla now leadId ty) w))).
Proof.
  intros Hin Hl Ht Hc. unfold run. rewrite completeSla_run. cbn.
  apply in_map_iff. exists s. split; [| exact Hin].
  rewrite Hl, Nat.eqb_refl, Hc.
  destruct (SlaType_eq_dec (sla_type s) ty); [reflexivity | contradiction].
Qed.

(** X16. A completed Pipedrive activity only touches the timers of the lead
    that owns the deal.  The handler returns; it never changes a lead or
    calls a connector; timers of other leads stay as they are; with no lead
    for the deal, or an activity that is not a call, an e-mail or a
    meeting, nothing changes at all.  A call or an e-mail closes the
    lead's open response timers; a meeting closes its open meeting timers
    and starts a proposal timer that is due 72 hours later. *)
Theorem handleActivityCompleted_effect
  (now : Instant) (dealId : Z) (ty : string) (w : World) :
  let w' := run (handleActivityCompleted now dealId ty) w in
  let owner := find (has_deal dealId) (leads (db w)) in
  result (handleActivityCompleted now dealId ty) w = Ok tt
  /\ leads (db w') = leads (db w) /\ sent w' = sent w
  /\ (owner = None -> w' = w)
  /\ (ty <> "call" -> ty <> "email" -> ty <> "meeting" -> w' = w)
  /\ (forall lead s, owner = Some lead -> In s (sla_events (db w)) ->
                     sla_lead_id s <> lead_id lead -> In s (sla_events (db w')))
  /\ (forall lead s, owner = Some lead -> ty = "call" \/ ty = "email" ->
                     In s (sla_events (db w)) -> sla_lead_id s = lead_id lead ->
                     sla_type s = response_5min -> completed_at s = None ->
                     In (set_completed_at (Some now) s) (sla_events (db w')))
  /\ (forall lead, owner = Some lead -> ty = "meeting" ->
                   In (mkSla (next_id (db w)) (lead_id lead) proposal_72h now
                             (now + 72 * 3600000) None false false)
                      (sla_events (db w'))
                   /\ forall s, In s (sla_events (db w)) -> sla_lead_id s = lead_id lead ->
                                sla_type s = meeting_48h -> completed_at s = None ->
                                In (set_completed_at (Some now) s) (sla_events (db w'))).
Proof.
  cbv zeta. unfold handleActivityCompleted, run, result, bind, query. cbn [fst snd].
  destruct (find (has_deal dealId) (leads (db w))) as [lead|] eqn:Hfind.
  2:{ cbn. repeat split; try reflexivity; try discriminate; intros; auto; discriminate. }
  destruct (String.eqb_spec ty "call") as [Hcall|Hcall];
    [| destruct (String.eqb_spec ty "email") as [Hmail|Hmail]]; cbn [orb].
  1, 2:
    rewrite completeSla_run; cbn [fst snd];
    (split; [reflexivity |]); (split; [reflexivity |]); (split; [reflexivity |]);
    (split; [discriminate |]);
    (split; [intros; contradiction |]);
    (split; [intros l s [= <-] Hin Hne;
             apply (completeSla_other_lead now (lead_id lead) response_5min w s Hin);
             left; exact Hne |]);
    (split; [intros l s [= <-] _ Hin Hl Ht Hc;
             apply (completeSla_open now (lead_id lead) response_5min w s Hin Hl Ht Hc) |]);
    intros l _ Hm; subst ty; discriminate.
  destruct (String.eqb_spec ty "meeting") as [Hmeet|Hmeet].
  - unfold ret, startSla, fresh_id, execute, bind. rewrite completeSla_run. cbn.
    split; [reflexivity |]. split; [reflexivity |]. split; [reflexivity |].
    split; [discriminate |].
    split; [intros; contradiction |].
    split.
    { intros l s [= <-] Hin Hne. apply in_or_app. left.
      apply (completeSla_other_lead now (lead_id lead) meeting_48h w s Hin).
      left; exact Hne. }
    split; [intros l s _ [Hc | Hc]; contradiction |].
    intros l [= <-] _. split.
    + apply in_or_app. right. left. reflexivity.
    + intros s Hin Hl Ht Hc. apply in_or_app. left.
      apply (completeSla_open now (lead_id lead) meeting_48h w s Hin Hl Ht Hc).
  - cbn. split; [reflexivity |]. split; [reflexivity |]. split; [reflexivity |].
    split; [discriminate |]. split; [reflexivity |].
    split; [intros; assumption |].
    split; [intros l s _ [Hc | Hc]; contradiction |].
    intros l _ Hm. contradiction.
Qed.

Lemma handleActivityCompleted_effect_witness :
  let w := run (ingestLead env_up 1000 scenario_input) world0 in
  In (mkSla 2%nat 0%nat proposal_72h 5000 259205000 None false false)
     (sla_events (db (run (handleActivityCompleted 5000 22 "meeting") w))).
Proof.
  cbv zeta.
  destruct (handleActivityCompleted_effect 5000 22 "meeting"
              (run (ingestLead env_up 1000 scenario_input) world0))
    as (_ & _ & _ & _ & _ & _ & _ & Hmeet).
  destruct (Hmeet (with_pipedrive 11 22 (new_lead 1000 0%nat scenario_input)))
    as (Hin & _); [reflexivity | reflexivity |].
  exact Hin.
Defined.

Lemma find_all_false {A : Type} (p : A -> bool) (l : list A) :
  (forall x, In x l -> p x = false) -> find p l = None.
Proof.
  induction l as [|x l IH]; intros H; [reflexivity |].
  cbn [find]. rewrite (H x (or_introl eq_refl)). apply IH.
  intros y Hy. apply H. right. exact Hy.
Qed.

(** X17. A lead that is answered is never flagged.  A new contact is
    ingested and synced to Pipedrive; a completed call or e-mail on its deal
    then closes its response timer.  From then on no poll cycle, at any
    clock reading and whatever the connectors do, marks the timer breached
    or sends a breach notice or an alert for it.  The instant of the answer
    plays no part: a late answer that arrives before the next breach check
    leaves no trace of the breach. *)
Theorem answered_lead_is_never_flagged
  (E : Env) (now t : Instant) (input : RawLeadInput) (w : World)
  (person dealId : Z) (ty : string) (times : list (Instant * Instant)) :
  store_ok (db w) ->
  lead_of_phone (normalizePhone (in_phone input)) (db w) = None ->
  pipedrive E (new_lead now (next_id (db w)) input) = Some (person, dealId) ->
  (forall l, In l (leads (db w)) -> has_deal dealId l = false) ->
  ty = "call" \/ ty = "email" ->
  let w1 := run (ingestLead E now input) w in
  let w2 := run (handleActivityCompleted t dealId ty) w1 in
  let w3 := cycles E times w2 in
  let timer := mkSla (S (next_id (db w))) (next_id (db w)) response_5min now
                     (now + 300000) (Some t) false false in
  In timer (sla_events (db w3))
  /\ notices (sla_id timer) w3 = notices (sla_id timer) w
  /\ (forall sev, alerts sev (sla_id timer) w3 = alerts sev (sla_id timer) w).
Proof.
  intros Hok Hfind Hsync Hdeal Hty w1 w2 w3 timer.
  assert (Hok1 : store_ok (db w1)) by (apply ingestLead_ok; exact Hok).
  assert (Hok2 : store_ok (db w2)) by (apply handleActivityCompleted_ok; exact Hok1).
  assert (Hw1 : w1 = after_new_lead E now input w).
  { unfold w1, run. rewrite (ingestLead_new_run E now input w Hfind). reflexivity. }
  assert (Hfresh : forall l, In l (leads (db w)) -> lead_id l <> next_id (db w)).
  { destruct Hok as (_ & Hl & _). intros l Hin. specialize (Hl l Hin). lia. }
  set (lead := new_lead now (next_id (db w)) input) in *.
  assert (Hleads : leads (db w1) = leads (db w) ++ [with_pipedrive person dealId lead]).
  { rewrite Hw1, (after_new_lead_leads E now input w Hfresh). cbv zeta. fold lead.
    rewrite Hsync. reflexivity. }
  assert (Howner : find (has_deal dealId) (leads (db w1))
                   = Some (with_pipedrive person dealId lead)).
  { rewrite Hleads, find_snoc_fresh by (apply find_all_false; exact Hdeal).
    unfold has_deal. cbn [pipedrive_deal_id with_pipedrive]. rewrite Z.eqb_refl.
    reflexivity. }
  assert (Hw2 : w2 = run (completeSla t (next_id (db w)) response_5min) w1).
  { unfold w2, handleActivityCompleted.
    rewrite (run_bind _ _ w1 (find (has_deal dealId) (leads (db w1)))) by reflexivity.
    change (run (query (fun d => find (has_deal dealId) (leads d))) w1) with w1.
    rewrite Howner.
    assert (Hb : (ty =? "call")%string || (ty =? "email")%string = true)
      by (destruct Hty; subst ty; reflexivity).
    rewrite Hb. reflexivity. }
  assert (Htimer : In timer (sla_events (db w2))).
  { rewrite Hw2.
    apply (completeSla_open t (next_id (db w)) response_5min w1
             (mkSla (S (next_id (db w))) (next_id (db w)) response_5min now
                    (now + 300000) None false false)); try reflexivity.
    rewrite Hw1. unfold after_new_lead. cbn [db sla_events].
    apply in_or_app. right. left. reflexivity. }
  destruct (cycles_skip_completed E times w2 timer (proj1 Hok2) Htimer ltac:(discriminate))
    as (Hin & Hn & Ha & _).
  fold w3 in Hin, Hn, Ha.
  assert (Hsent : exists tail, sent w2 = sent w ++ tail
                               /\ Forall (fun e => exists g nm ph src pt loc,
                                            call e = SendGroupMessage g
                                                       (TNewLead nm ph src pt loc)) tail).
  { rewrite Hw2, Hw1. unfold run. rewrite completeSla_run. unfold after_new_lead.
    cbn [snd sent]. eexists. split; [reflexivity |].
    destruct (configured (WHATSAPP_SDR_GROUP E)); repeat constructor.
    cbn. repeat eexists. }
  destruct Hsent as (tail & Hsent & Htail).
  split; [exact Hin |]. split.
  - rewrite Hn. unfold notices, count_sent. rewrite Hsent, filter_length_app.
    assert (Hnone : filter (is_breach_notice (sla_id timer)) tail = []).
    { clear Hsent. induction Htail as [|e tail (g & nm & ph & src & pt & loc & Hc) _ IH];
        [reflexivity |].
      cbn [filter]. rewrite IH. unfold is_breach_notice. rewrite Hc.
      rewrite andb_false_r. reflexivity. }
    rewrite Hnone. cbn [List.length]. lia.
  - intros sev. rewrite Ha. unfold alerts, count_sent. rewrite Hsent, filter_length_app.
    assert (Hnone : filter (is_alert sev (sla_id timer)) tail = []).
    { clear Hsent. induction Htail as [|e tail (g & nm & ph & src & pt & loc & Hc) _ IH];
        [reflexivity |].
      cbn [filter]. rewrite IH. unfold is_alert. rewrite Hc.
      rewrite andb_false_r. reflexivity. }
    rewrite Hnone. cbn [List.length]. lia.
Qed.

Lemma world0_ok : store_ok (db world0).
Proof.
  split.
  - unfold wf_db, world0; cbn.
    split; [constructor |]. split; [constructor |]. split; [constructor |].
    split; intros x [].
  - unfold ids_fresh, world0; cbn. split; [| split]; intros x [].
Qed.

Lemma answered_lead_is_never_flagged_witness :
  let w1 := run (ingestLead env_up 1000 scenario_input) world0 in
  let w2 := run (handleActivityCompleted 900000 22 "call") w1 in
  let w3 := cycles env_up [(3000000, 3000000); (6000000, 6000000)] w2 in
  In (mkSla 1%nat 0%nat response_5min 1000 301000 (Some 900000) false false)
     (sla_events (db w3))
  /\ notices 1%nat w3 = 0%nat.
Proof.
  destruct (answered_lead_is_never_flagged env_up 1000 900000 scenario_input world0
              11 22 "call" [(3000000, 3000000); (6000000, 6000000)])
    as (Hin & Hn & _).
  - exact world0_ok.
  - reflexivity.
  - reflexivity.
  - intros l [].
  - left; reflexivity.
  - split; [exact Hin | exact Hn].
Defined.

(** ** Further properties: one active sequence per lead *)

Lemma Forall2_same {A : Type} (R : A -> A -> Prop) (l : list A) :
  (forall a, R a a) -> Forall2 R l l.
Proof. intros H. induction l; constructor; auto. Qed.

Lemma Forall2_map_r {A : Type} (R : A -> A -> Prop) (f : A -> A) (l : list A) :
  (forall a, R a (f a)) -> Forall2 R l (map f l).
Proof. intros H. induction l; cbn; constructor; auto. Qed.

Lemma never_activates_refl (w : World) : never_activates w w.
Proof. apply Forall2_same. intros e. split; auto. Qed.

Lemma never_activates_trans (w1 w2 w3 : World) :
  never_activates w1 w2 -> never_activates w2 w3 -> never_activates w1 w3.
Proof.
  unfold never_activates. apply Forall2_compose.
  intros a b c (Hl & Ha) (Hl' & Ha'). split; [congruence | auto].
Qed.

Lemma never_activates_connector (E : Env) (o : Id) (c : Call) :
  keeps never_activates (connector E o c).
Proof.
  intros w. unfold connector, never_activates.
  destruct (connector_ok E (sent w) c); cbn; apply Forall2_same; intros e; split; auto.
Qed.

Lemma never_activates_activities (f : list Activity -> list Activity) :
  keeps never_activates (execute (with_activities f)).
Proof.
  intros w. unfold never_activates. cbn. apply Forall2_same. intros e. split; auto.
Qed.

Lemma never_activates_map (f : FollowUpExecution -> FollowUpExecution) :
  (forall e, exec_lead_id (f e) = exec_lead_id e) ->
  (forall e, is_active (exec_status (f e)) = true -> is_active (exec_status e) = true) ->
  keeps never_activates (execute (with_executions (map f))).
Proof.
  intros Hl Ha w. unfold never_activates, execute. cbn.
  apply Forall2_map_r. intros e. split; auto.
Qed.

Ltac never_activates_leaf :=
  first [ apply never_activates_connector
        | apply never_activates_activities
        | apply never_activates_map;
          [ intros e; destruct (_ =? _)%nat; reflexivity
          | intros e; destruct (_ =? _)%nat; cbn; auto; discriminate ] ].

Lemma processDueFollowUps_never_activates (E : Env) (now : Instant) :
  keeps never_activates (processDueFollowUps E now).
Proof.
  pose proof never_activates_refl as Hrefl. pose proof never_activates_trans as Htrans.
  unfold processDueFollowUps, processExecution, render, sendTextMessage, update_where.
  keeps_walk never_activates_leaf.
Qed.

Lemma cancelSequencesForLead_never_activates (now : Instant) (leadId : Id)
  (reason : ExecStatus) :
  keeps never_activates (cancelSequencesForLead now leadId reason).
Proof.
  unfold cancelSequencesForLead. apply never_activates_map.
  - intros e. destruct (_ && _); reflexivity.
  - intros e. destruct (exec_lead_id e =? leadId)%nat; cbn [andb]; [| auto].
    destruct (is_active (exec_status e)) eqn:Hact; [auto |].
    rewrite Hact. auto.
Qed.

Lemma never_activates_count (w w' : World) (leadId : Id) :
  never_activates w w' -> (active_count leadId (db w') <= active_count leadId (db w))%nat.
Proof.
  unfold never_activates, active_count.
  induction 1 as [|e e' l l' (Hl & Ha) _ IH]; [cbn; lia |].
  cbn [filter]. rewrite Hl.
  destruct (exec_lead_id e =? leadId)%nat; cbn [andb]; [| exact IH].
  destruct (is_active (exec_status e')) eqn:Hact.
  - rewrite (Ha eq_refl). cbn [List.length]. lia.
  - destruct (is_active (exec_status e)); cbn [List.length]; lia.
Qed.

Lemma find_active_none (leadId : Id) (d : Db) :
  find_active leadId d = None -> active_count leadId d = 0%nat.
Proof.
  unfold find_active, active_count. intros H.
  induction (follow_up_executions d) as [|e l IH]; [reflexivity |].
  cbn [find filter] in *. destruct (_ && _); [discriminate | exact (IH H)].
Qed.

Lemma active_count_snoc (leadId : Id) (d : Db) (e : FollowUpExecution) :
  active_count leadId (with_executions (fun rows => rows ++ [e]) d) =
  (active_count leadId d
   + if (exec_lead_id e =? leadId)%nat && is_active (exec_status e) then 1 else 0)%nat.
Proof.
  unfold active_count. cbn. rewrite filter_length_app. cbn [filter].
  destruct (_ && _); cbn [List.length]; lia.
Qed.

(** What [startSequenceForLead] does: nothing when the lead already has an
    active execution, no active sequence serves its funnel, or the sequence
    has no first step; otherwise it adds one execution. *)
Lemma startSequenceForLead_run (sequences : list FollowUpSequence) (now : Instant)
  (lead : Lead) (w : World) :
  startSequenceForLead sequences now lead w =
  (Ok tt,
   match find_active (lead_id lead) (db w), find_sequence sequences (funnel lead) with
   | None, Some sequence =>
       match find_step (seq_id sequence) 1 (db w) with
       | Some firstStep =>
           mkWorld (with_executions
                      (fun rows => rows ++
                         [mkExec (next_id (db w)) (lead_id lead) (seq_id sequence) 0 active
                                 (Some (now + delay_minutes firstStep * 60000)) None])
                      (with_next_id (S (next_id (db w))) (db w)))
                   (sent w)
       | None => w
       end
   | _, _ => w
   end).
Proof.
  unfold startSequenceForLead, bind, query, ret, fresh_id, execute. cbn [fst snd].
  destruct (find_active (lead_id lead) (db w)); [reflexivity |].
  destruct (find_sequence sequences (funnel lead)) as [sequence|]; [| reflexivity].
  destruct (find_step (seq_id sequence) 1 (db w)); reflexivity.
Qed.

(** X18. At most one active sequence per lead.  If no lead has more than
    one active execution, this is still so after [startSequenceForLead],
    after [cancelSequencesForLead] and after [processDueFollowUps],
    whatever the connectors do. *)
Theorem one_active_sequence_per_lead (E : Env) (now : Instant) (w : World) :
  one_active_per_lead (db w) ->
  (forall sequences lead,
     one_active_per_lead (db (run (startSequenceForLead sequences now lead) w)))
  /\ (forall leadId reason,
        one_active_per_lead (db (run (cancelSequencesForLead now leadId reason) w)))
  /\ one_active_per_lead (db (run (processDueFollowUps E now) w)).
Proof.
  intros Hone. split; [| split].
  - intros sequences lead k. unfold run. rewrite startSequenceForLead_run. cbn [snd].
    destruct (find_active (lead_id lead) (db w)) eqn:Hact; [apply Hone |].
    destruct (find_sequence sequences (funnel lead)) as [sequence|]; [| apply Hone].
    destruct (find_step (seq_id sequence) 1 (db w)); [| apply Hone].
    cbn [db]. rewrite active_count_snoc. cbn [exec_lead_id exec_status is_active].
    change (active_count k (with_next_id (S (next_id (db w))) (db w)))
      with (active_count k (db w)).
    destruct (Nat.eqb_spec (lead_id lead) k) as [<- | _]; cbn [andb].
    + rewrite (find_active_none _ _ Hact). lia.
    + specialize (Hone k). lia.
  - intros leadId reason k.
    pose proof (never_activates_count _ _ k
                  (cancelSequencesForLead_never_activates now leadId reason w)) as H.
    specialize (Hone k). unfold run. lia.
  - intros k.
    pose proof (never_activates_count _ _ k (processDueFollowUps_never_activates E now w))
      as H.
    specialize (Hone k). unfold run. lia.
Qed.

Lemma one_active_sequence_per_lead_witness :
  one_active_per_lead
    (db (run (startSequenceForLead seeded_sequences 2000 known_lead)
             (run (startSequenceForLead seeded_sequences 1000 known_lead) seeded_world))).
Proof.
  assert (H0 : one_active_per_lead (db seeded_world)) by (intros k; cbn; lia).
  destruct (one_active_sequence_per_lead env_up 1000 seeded_world H0) as (H1 & _).
  destruct (one_active_sequence_per_lead env_up 2000 _
              (H1 seeded_sequences known_lead)) as (H2 & _).
  apply H2.
Defined.

(** An execution is left alone by every run before its due instant. *)
Lemma run_due_skips_not_due (E : Env) (times : list Instant) (due : Instant) (w : World)
  (e : FollowUpExecution) :
  wf_db (db w) -> In e (follow_up_executions (db w)) -> next_run_at e = Some due ->
  Forall (fun t => t < due) times ->
  In e (follow_up_executions (db (run_due E times w)))
  /\ dispatched (exec_id e) (run_due E times w) = dispatched (exec_id e) w.
Proof.
  revert w. induction times as [|t rest IH]; intros w Hwf He Hnext Htimes; [split; auto |].
  cbn [run_due]. inversion Htimes as [|? ? Ht Hrest]; subst.
  destruct (processDue_seen_from E t w e Hwf He)
    as [[_ (_ & Hin & Hd)] | (_ & _ & _ & _ & _ & Hdue & _)].
  - pose proof (exec_shape_wf _ _ (processDue_shape E t w) Hwf) as Hwf1.
    destruct (IH _ Hwf1 (Hin He) Hnext Hrest) as (Hin' & Hd').
    split; [exact Hin' | congruence].
  - exfalso. unfold is_due in Hdue. rewrite Hnext in Hdue.
    apply Z.leb_le in Hdue. lia.
Qed.

(** X19. A started sequence waits for the delay of its first step.  When
    the lead has no active execution, an active sequence serves its funnel
    and that sequence has a first step, [startSequenceForLead] adds one
    active execution at step 0, due after the delay of the first step.  No
    run before that instant changes it or sends for it, whatever the
    connectors do; with working connectors and a template that renders, a
    run at or after that instant sends the first step if it is a WhatsApp
    step. *)
Theorem started_sequence_waits_for_its_delay
  (E : Env) (sequences : list FollowUpSequence) (now : Instant) (lead : Lead) (w : World)
  (sequence : FollowUpSequence) (firstStep : FollowUpStep) :
  store_ok (db w) -> In lead (leads (db w)) ->
  find_active (lead_id lead) (db w) = None ->
  find_sequence sequences (funnel lead) = Some sequence ->
  find_step (seq_id sequence) 1 (db w) = Some firstStep ->
  let due := now + delay_minutes firstStep * 60000 in
  let w1 := run (startSequenceForLead sequences now lead) w in
  let e := mkExec (next_id (db w)) (lead_id lead) (seq_id sequence) 0 active (Some due) None in
  follow_up_executions (db w1) = follow_up_executions (db w) ++ [e]
  /\ (forall times, Forall (fun t => t < due) times ->
        In e (follow_up_executions (db (run_due E times w1)))
        /\ dispatched (exec_id e) (run_due E times w1) = dispatched (exec_id e) w)
  /\ (forall t message,
        due <= t ->
        (forall h c, connector_ok E h c = true) ->
        handlebars E (template firstStep) (template_data lead) = Some message ->
        dispatched (exec_id e) (run (processDueFollowUps E t) w1) =
        (dispatched (exec_id e) w
         + match step_channel firstStep with ch_whatsapp => 1 | ch_email => 0 end)%nat).
Proof.
  intros Hok Hlead Hnone Hseq Hstep due w1 e.
  assert (Hin : In (lead_id lead) (map lead_id (leads (db w)))) by (apply in_map; exact Hlead).
  pose proof (startSequenceForLead_ok sequences now lead w Hok Hin) as Hok1. fold w1 in Hok1.
  assert (Hw1 : w1 = mkWorld (with_executions (fun rows => rows ++ [e])
                                (with_next_id (S (next_id (db w))) (db w))) (sent w)).
  { unfold w1, run. rewrite startSequenceForLead_run, Hnone, Hseq, Hstep. reflexivity. }
  assert (He : In e (follow_up_executions (db w1))).
  { rewrite Hw1. cbn. apply in_or_app. right. left. reflexivity. }
  assert (Hd : dispatched (exec_id e) w1 = dispatched (exec_id e) w)
    by (rewrite Hw1; reflexivity).
  split; [rewrite Hw1; reflexivity |].
  split.
  - intros times Htimes.
    destruct (run_due_skips_not_due E times due w1 e (proj1 Hok1) He eq_refl Htimes)
      as (Hin' & Hd').
    split; [exact Hin' | congruence].
  - intros t message Hdue Hup Hrender.
    assert (Hstep1 : find_step (exec_sequence_id e) (current_step e + 1) (db w1)
                     = Some firstStep).
    { rewrite Hw1. exact Hstep. }
    assert (Hlead1 : In lead (leads (db w1))) by (rewrite Hw1; exact Hlead).
    destruct (processDue_hit E t due w1 e lead firstStep message Hup (proj1 Hok1) He Hlead1
                eq_refl eq_refl eq_refl Hdue Hstep1 Hrender) as (_ & _ & Hsent).
    rewrite Hsent, Hd.
    rewrite (whatsapp_count E (db w1) (exec_sequence_id e) (current_step e) firstStep Hstep1).
    reflexivity.
Qed.

Lemma seeded_world_ok : store_ok (db seeded_world).
Proof.
  split.
  - unfold wf_db, seeded_world; cbn.
    split; [repeat constructor; simpl; tauto |].
    split; [constructor |]. split; [constructor |].
    split; intros x [].
  - unfold ids_fresh, seeded_world; cbn.
    split; [intros l [<- | []]; cbn; lia |]. split; intros x [].
Qed.

Lemma started_sequence_waits_for_its_delay_witness :
  let w1 := run (startSequenceForLead seeded_sequences 1000 known_lead) seeded_world in
  dispatched 1%nat (run_due env_up [2000; 3000; 3600999] w1) = 0%nat
  /\ dispatched 1%nat (run (processDueFollowUps env_up 3601000) w1) = 1%nat.
Proof.
  destruct (started_sequence_waits_for_its_delay env_up seeded_sequences 1000 known_lead
              seeded_world (mkSequence 1%nat "Cliente Final" fn_end_client true)
              (mkStep 1%nat 1 60 ch_whatsapp "Ola {{name}}!"))
    as (_ & Hwait & Hsend).
  - exact seeded_world_ok.
  - left; reflexivity.
  - reflexivity.
  - reflexivity.
  - reflexivity.
  - split.
    + apply Hwait. repeat constructor; cbn; lia.
    + apply (Hsend 3601000 "Ola {{name}}!"); [cbn; lia | reflexivity | reflexivity].
Defined.

(** ** Further properties: the Meta handler *)

Lemma ingestLead_returns (E : Env) (now : Instant) (input : RawLeadInput) :
  returns (ingestLead E now input).
Proof.
  intros w.
  destruct (lead_of_phone (normalizePhone (in_phone input)) (db w)) as [existing|] eqn:Hfind.
  - destruct (ingestLead_merge_run E now input w existing Hfind) as (updated & _ & Hrun).
    rewrite Hrun. eexists. reflexivity.
  - rewrite (ingestLead_new_run E now input w Hfind). eexists. reflexivity.
Qed.

Lemma mark_fresh_row (key : string) (st : WebhookStatus) (err : option string)
  (rows : list WebhookLog) (row : WebhookLog) :
  existsb (fun r => (wh_idempotency_key r =? key)%string) rows = false ->
  wh_idempotency_key row = key ->
  map (fun r =>
         if (wh_idempotency_key r =? key)%string
         then mkWebhookLog (wh_source r) (wh_event_type r) (wh_payload r) st
                           (wh_idempotency_key r) err
         else r) (rows ++ [row])
  = rows ++ [mkWebhookLog (wh_source row) (wh_event_type row) (wh_payload row) st key err].
Proof.
  intros Hfresh Hkey. rewrite map_app. cbn [map]. rewrite Hkey, String.eqb_refl. f_equal.
  induction rows as [|r rows IH]; [reflexivity |].
  cbn [existsb] in Hfresh. apply orb_false_elim in Hfresh. destruct Hfresh as (Hr & Hrest).
  cbn [map]. rewrite Hr, (IH Hrest). reflexivity.
Qed.

(** What the handler does with a leadgen change whose key is new. *)
Lemma processChange_fresh (E : Env) (now : Instant) (change : Change)
  (leadgenId : string) (w : World) :
  change_field change = "leadgen" ->
  leadgen_id change = Some leadgenId -> leadgenId <> "" ->
  key_logged ("meta_" ++ leadgenId) (db w) = false ->
  store_fault E (leadgen_row change leadgenId received None) (db w) = None ->
  processChange E now change w =
  match fetchLeadData E leadgenId with
  | Some leadData =>
      (Ok tt,
       run (markWebhookStatus ("meta_" ++ leadgenId) processed None)
           (run (ingestLead E now (meta_input leadgenId leadData))
                (logged change leadgenId w)))
  | None =>
      (Ok tt,
       run (markWebhookStatus ("meta_" ++ leadgenId) failed
                              (Some (err_message (ApiError "meta"))))
           (logged change leadgenId w))
  end.
Proof.
  intros Hfield Hid Hne Hfresh Hstore.
  unfold processChange. rewrite Hfield, Hid, String.eqb_refl. cbn [negb]. cbv iota.
  destruct (String.eqb_spec leadgenId "") as [|_]; [contradiction |].
  unfold bind at 1.
  unfold isNewWebhookEvent, insert_webhook_log, try_catch at 1, bind at 1.
  fold (leadgen_row change leadgenId received None). rewrite Hstore.
  unfold leadgen_row at 1. cbn [wh_idempotency_key].
  fold (key_logged ("meta_" ++ leadgenId) (db w)). rewrite Hfresh.
  cbn [ret negb fst snd]. fold (logged change leadgenId w).
  unfold try_catch, bind.
  destruct (fetchLeadData E leadgenId) as [leadData|]; cbn [ret throw].
  - fold (meta_input leadgenId leadData).
    destruct (ingestLead_returns E now (meta_input leadgenId leadData)
                (logged change leadgenId w)) as (r & Hr).
    unfold run.
    destruct (ingestLead E now (meta_input leadgenId leadData) (logged change leadgenId w))
      as [res w2]. cbn [fst snd] in Hr |- *. subst res.
    rewrite markWebhookStatus_ok. reflexivity.
  - rewrite markWebhookStatus_ok. reflexivity.
Qed.

Lemma markWebhookStatus_run (key : string) (st : WebhookStatus) (err : option string)
  (w : World) :
  run (markWebhookStatus key st err) w =
  mkWorld (with_webhook_logs
             (map (fun r =>
                     if (wh_idempotency_key r =? key)%string
                     then mkWebhookLog (wh_source r) (wh_event_type r) (wh_payload r) st
                                       (wh_idempotency_key r) err
                     else r)) (db w))
          (sent w).
Proof. reflexivity. Qed.

(** X20. The outcome of a leadgen change whose key is new.  The handler
    returns.  When the Graph API answers, the contact built from its answer
    is ingested once and the log row of the change ends [processed] with no
    error; when the Graph API throws, the row ends [failed] with an error
    text and nothing else in the store or on the trace changes.  Either
    way a redelivery of the change is dropped by the guard: a failed
    change is not retried. *)
Theorem meta_change_outcome
  (E : Env) (now : Instant) (change : Change) (leadgenId : string) (w : World) :
  change_field change = "leadgen" ->
  leadgen_id change = Some leadgenId -> leadgenId <> "" ->
  key_logged ("meta_" ++ leadgenId) (db w) = false ->
  store_fault E (leadgen_row change leadgenId received None) (db w) = None ->
  let w' := run (processChange E now change) w in
  result (processChange E now change) w = Ok tt
  /\ (forall later, run (processChange E later change) w' = w')
  /\ match fetchLeadData E leadgenId with
     | Some leadData =>
         let ingested := run (ingestLead E now (meta_input leadgenId leadData))
                             (logged change leadgenId w) in
         webhook_logs (db w') =
           webhook_logs (db w) ++ [leadgen_row change leadgenId processed None]
         /\ leads (db w') = leads (db ingested)
         /\ sla_events (db w') = sla_events (db ingested)
         /\ sent w' = sent ingested
     | None =>
         (exists message,
            webhook_logs (db w') =
              webhook_logs (db w) ++ [leadgen_row change leadgenId failed (Some message)])
         /\ leads (db w') = leads (db w)
         /\ sla_events (db w') = sla_events (db w)
         /\ activities (db w') = activities (db w)
         /\ sent w' = sent w
     end.
Proof.
  intros Hfield Hid Hne Hfresh Hstore w'.
  pose proof (processChange_fresh E now change leadgenId w Hfield Hid Hne Hfresh Hstore)
    as Hrun.
  assert (Hlogged : key_logged ("meta_" ++ leadgenId) (db w') = true).
  { apply processChange_logs_key; assumption. }
  split.
  { unfold result. rewrite Hrun. destruct (fetchLeadData E leadgenId); reflexivity. }
  split.
  { intros later. apply (processChange_on_logged_key E later change leadgenId w' Hid Hlogged). }
  assert (Hw' : w' = snd (processChange E now change w)) by reflexivity.
  rewrite Hrun in Hw'.
  destruct (fetchLeadData E leadgenId) as [leadData|]; cbn [snd] in Hw'.
  - cbv zeta.
    set (ingested := run (ingestLead E now (meta_input leadgenId leadData))
                         (logged change leadgenId w)) in *.
    assert (Hlogs : webhook_logs (db ingested) =
                    webhook_logs (db w) ++ [leadgen_row change leadgenId received None]).
    { unfold ingested. rewrite ingestLead_keeps_webhook_logs. reflexivity. }
    rewrite Hw', markWebhookStatus_run. cbn [db sent webhook_logs with_webhook_logs leads
                                             sla_events].
    split; [| repeat split; reflexivity].
    rewrite Hlogs. apply mark_fresh_row; [exact Hfresh | reflexivity].
  - rewrite Hw', markWebhookStatus_run. unfold logged.
    cbn [db sent webhook_logs with_webhook_logs leads sla_events activities].
    split; [| repeat split; reflexivity].
    eexists. apply mark_fresh_row; [exact Hfresh | reflexivity].
Qed.

Lemma meta_change_outcome_witness :
  let w' := run (processChange env_meta_down 1000 leadgen_change) world0 in
  (exists message,
     webhook_logs (db w') = [leadgen_row leadgen_change "4242" failed (Some message)])
  /\ leads (db w') = []
  /\ run (processChange env_meta_down 2000 leadgen_change) w' = w'.
Proof.
  destruct (meta_change_outcome env_meta_down 1000 leadgen_change "4242" world0)
    as (_ & Hagain & Hlogs & Hleads & _).
  - reflexivity.
  - reflexivity.
  - discriminate.
  - reflexivity.
  - reflexivity.
  - split; [exact Hlogs |]. split; [exact Hleads | apply Hagain].
Defined.

(** X21. A store failure in the guard ends the request.  When the insert
    for a leadgen change is rejected for a reason other than the unique
    index, the handler swallows the error and stops: neither that change
    nor any later change or entry of the request is handled.  A change
    whose key is already logged, in contrast, is skipped and the request
    goes on with the next change. *)
Theorem store_failure_ends_the_request
  (E : Env) (now : Instant) (change : Change) (leadgenId : string)
  (rest : list Change) (entries : list (list Change)) (w : World) :
  change_field change = "leadgen" ->
  leadgen_id change = Some leadgenId -> leadgenId <> "" ->
  (forall fault,
     store_fault E (leadgen_row change leadgenId received None) (db w) = Some fault ->
     err_code fault <> Some "23505" ->
     metaWebhookPost E now ((change :: rest) :: entries) w = (Ok tt, w))
  /\ (store_fault E (leadgen_row change leadgenId received None) (db w) = None ->
      key_logged ("meta_" ++ leadgenId) (db w) = true ->
      metaWebhookPost E now ((change :: rest) :: entries) w =
      metaWebhookPost E now (rest :: entries) w).
Proof.
  intros Hfield Hid Hne.
  assert (Hguard : forall r,
            isNewWebhookEvent E "meta_ads" "leadgen" ("meta_" ++ leadgenId)
                              (change_value change) w = (r, w) ->
            r <> Ok true ->
            processChange E now change w =
            (match r with Ok _ => (Ok tt, w) | Threw e => (Threw e, w) end)).
  { intros r Hr Hnot. unfold processChange. rewrite Hfield, Hid, String.eqb_refl.
    cbn [negb]. cbv iota. destruct (String.eqb_spec leadgenId "") as [|_]; [contradiction |].
    unfold bind at 1. rewrite Hr. destruct r as [[|]|e]; [contradiction | |]; reflexivity. }
  split.
  - intros fault Hfault Hcode.
    assert (Hr : isNewWebhookEvent E "meta_ads" "leadgen" ("meta_" ++ leadgenId)
                                   (change_value change) w = (Threw fault, w)).
    { unfold isNewWebhookEvent, insert_webhook_log, try_catch, bind.
      fold (leadgen_row change leadgenId received None). rewrite Hfault.
      unfold code_is. destruct (err_code fault) as [c|] eqn:Hc; [| reflexivity].
      destruct (String.eqb_spec c "23505") as [-> | _]; [contradiction | reflexivity]. }
    pose proof (Hguard _ Hr ltac:(discriminate)) as Hchange. cbv iota in Hchange.
    unfold metaWebhookPost, try_catch. cbn [for_each]. unfold bind at 1 2.
    rewrite Hchange. reflexivity.
  - intros Hstore Hseen.
    assert (Hr : isNewWebhookEvent E "meta_ads" "leadgen" ("meta_" ++ leadgenId)
                                   (change_value change) w = (Ok false, w)).
    { unfold isNewWebhookEvent, insert_webhook_log, try_catch, bind.
      fold (leadgen_row change leadgenId received None). rewrite Hstore.
      unfold leadgen_row at 1. cbn [wh_idempotency_key].
      fold (key_logged ("meta_" ++ leadgenId) (db w)). rewrite Hseen. reflexivity. }
    pose proof (Hguard _ Hr ltac:(discriminate)) as Hchange. cbv iota in Hchange.
    unfold metaWebhookPost, try_catch. cbn [for_each]. unfold bind at 1 2 3.
    rewrite Hchange. reflexivity.
Qed.

Lemma store_failure_ends_the_request_witness :
  metaWebhookPost env_store_down 1000 [[leadgen_change; other_change]] world0
  = (Ok tt, world0).
Proof.
  destruct (store_failure_ends_the_request env_store_down 1000 leadgen_change "4242"
              [other_change] [] world0) as (Hfault & _).
  - reflexivity.
  - reflexivity.
  - discriminate.
  - apply (Hfault (PgError "08006")); [reflexivity | discriminate].
Defined.

(** ** Further properties: form fields *)

Lemma lower_ascii_idempotent (c : ascii) : lower_ascii (lower_ascii c) = lower_ascii c.
Proof. destruct c as [[] [] [] [] [] [] [] []]; vm_compute; reflexivity. Qed.

Lemma toLowerCase_idempotent (s : string) : toLowerCase (toLowerCase s) = toLowerCase s.
Proof.
  induction s as [|c s IH]; [reflexivity |].
  cbn [toLowerCase]. rewrite lower_ascii_idempotent, IH. reflexivity.
Qed.

Lemma extractLeadFields_rev (fieldData : list (string * list string)) :
  extractLeadFields fieldData =
  rev (map (fun field => (toLowerCase (fst field),
                          match snd field with v :: _ => v | [] => "" end)) fieldData).
Proof.
  unfold extractLeadFields.
  set (g := fun field : string * list string =>
              (toLowerCase (fst field), match snd field with v :: _ => v | [] => "" end)).
  assert (H : forall acc, fold_left (fun fields field => g field :: fields) fieldData acc
                          = rev (map g fieldData) ++ acc).
  { induction fieldData as [|x l IH]; intros acc; [reflexivity |].
    cbn [fold_left map rev]. rewrite IH, <- app_assoc. reflexivity. }
  specialize (H []). rewrite app_nil_r in H. exact H.
Qed.

(** X22. Form fields are read by lower-cased name and the last one wins.
    For field names in ASCII and a key that a plain object does not
    inherit: a field appended to the form data overrides every earlier
    field whose name differs from it at most in case, and leaves the other
    names as they were; a field without values reads as the empty string;
    and a key under which something is found is in lower case. *)
Theorem extractLeadFields_last_wins
  (fieldData : list (string * list string)) (nm : string) (values : list string)
  (k : string) :
  Forall (fun field => ascii_only (fst field) = true) (fieldData ++ [(nm, values)]) ->
  own_key k = true ->
  lookup_field k (extractLeadFields (fieldData ++ [(nm, values)])) =
    (if (toLowerCase nm =? k)%string
     then Some match values with v :: _ => v | [] => "" end
     else lookup_field k (extractLeadFields fieldData))
  /\ (forall v, lookup_field k (extractLeadFields fieldData) = Some v -> toLowerCase k = k).
Proof.
  intros _ _. split.
  - rewrite !extractLeadFields_rev, map_app, rev_app_distr. reflexivity.
  - rewrite extractLeadFields_rev.
    induction fieldData as [|x l IH] using rev_ind; [discriminate |].
    rewrite map_app, rev_app_distr. cbn [map rev app lookup_field fst].
    destruct (String.eqb_spec (toLowerCase (fst x)) k) as [<- | _].
    + intros _ _. apply toLowerCase_idempotent.
    + exact IH.
Qed.

Lemma extractLeadFields_last_wins_witness :
  lookup_field "phone_number"
    (extractLeadFields ([("Phone_Number", ["11999998888"])] ++ [("PHONE_NUMBER", [])]))
  = Some ""
  /\ toLowerCase "phone_number" = "phone_number".
Proof.
  destruct (extractLeadFields_last_wins
              [("Phone_Number", ["11999998888"])] "PHONE_NUMBER" [] "phone_number")
    as (Hlast & Hlower).
  - repeat constructor.
  - reflexivity.
  - split; [exact Hlast |].
    apply (Hlower "11999998888"). reflexivity.
Defined.

(** ** Further properties: started timers *)

(** X23. A started timer breaches after its duration and not before.
    [startSla] for an existing lead appends one open timer whose deadline
    lies strictly after the clock reading, by the duration of its type.
    Breach checks at or before the deadline never select it and leave it
    as it is; as soon as one check runs after the deadline, the timer is
    selected by exactly one check of the sequence and ends breached,
    whatever the connectors do. *)
Theorem started_timer_breaches_after_its_duration
  (E : Env) (now : Instant) (leadId : Id) (ty : SlaType) (w : World)
  (times : list Instant) :
  store_ok (db w) -> In leadId (map lead_id (leads (db w))) ->
  let w1 := run (startSla now leadId ty) w in
  let timer := mkSla (next_id (db w)) leadId ty now (now + SLA_DURATIONS ty)
                     None false false in
  let selections := List.concat (fst (poll E times w1)) in
  let after := sla_events (db (snd (poll E times w1))) in
  now < deadline_at timer
  /\ sla_events (db w1) = sla_events (db w) ++ [timer]
  /\ (Forall (fun t => t <= deadline_at timer) times ->
      ~ In (sla_id timer) selections /\ In timer after)
  /\ (Exists (fun t => deadline_at timer < t) times ->
      occurrences (sla_id timer) selections = 1%nat
      /\ exists s', In s' after /\ sla_id s' = sla_id timer /\ breached s' = true).
Proof.
  intros Hok Hlead w1 timer selections after.
  pose proof (startSla_ok now leadId ty w Hok Hlead) as Hok1. fold w1 in Hok1.
  assert (Hin : In timer (sla_events (db w1))).
  { unfold w1, startSla, run, bind, fresh_id, execute. cbn.
    apply in_or_app. right. left. reflexivity. }
  split; [cbn [deadline_at timer]; destruct ty; cbn; lia |].
  split; [reflexivity |].
  split.
  - intros Htimes. exact (poll_before_deadline E times w1 timer (proj1 Hok1) Hin Htimes).
  - intros Htimes.
    exact (poll_after_deadline E times w1 timer (proj1 Hok1) Hin eq_refl eq_refl Htimes).
Qed.

Lemma started_timer_breaches_after_its_duration_witness :
  let w1 := run (startSla 1000 0%nat response_5min) known_world in
  ~ In 1%nat (List.concat (fst (poll env_down [2000; 301000] w1)))
  /\ occurrences 1%nat (List.concat (fst (poll env_down [2000; 301001; 400000] w1))) = 1%nat.
Proof.
  assert (Hok : store_ok (db known_world)).
  { split.
    - unfold wf_db, known_world; cbn.
      split; [repeat constructor; simpl; tauto |].
      split; [constructor |]. split; [constructor |]. split; intros x [].
    - unfold ids_fresh, known_world; cbn.
      split; [intros l [<- | []]; cbn; lia |]. split; intros x []. }
  split.
  - destruct (started_timer_breaches_after_its_duration env_down 1000 0%nat response_5min
                known_world [2000; 301000] Hok) as (_ & _ & Hbefore & _);
      [left; reflexivity |].
    apply Hbefore. repeat constructor; cbn; lia.
  - destruct (started_timer_breaches_after_its_duration env_down 1000 0%nat response_5min
                known_world [2000; 301001; 400000] Hok) as (_ & _ & _ & Hafter);
      [left; reflexivity |].
    apply Hafter. right. left. cbn. lia.
Defined.

(** ** Further properties: what a breach check reports *)

Lemma for_each_markBreached_log (E : Env) (rows : list (SlaEvent * Lead)) (w : World) :
  let w' := run (for_each rows (markBreached E)) w in
  activities (db w') = activities (db w) ++ map breach_activity rows
  /\ (List.length (sent w') <= List.length (sent w) + List.length rows)%nat.
Proof.
  revert w. induction rows as [|row rows IH]; intros w.
  - cbn. rewrite app_nil_r. split; [reflexivity | lia].
  - cbv zeta. rewrite for_each_markBreached_cons.
    set (w1 := run (markBreached E row) w).
    assert (H1 : activities (db w1) = activities (db w) ++ [breach_activity row]
                 /\ (List.length (sent w1) <= List.length (sent w) + 1)%nat).
    { unfold w1, run. rewrite markBreached_run. cbn [snd db sent activities with_activities
        with_sla_events]. split; [reflexivity |].
      rewrite length_app. destruct (breach_notice E row); cbn [List.length]; lia. }
    destruct H1 as (Hacts1 & Hsent1).
    destruct (IH w1) as (Hacts & Hsent).
    split.
    + rewrite Hacts, Hacts1. cbn [map]. rewrite <- app_assoc. reflexivity.
    + cbn [List.length]. lia.
Qed.

(** X24. A breach check reports what it marked.  [checkSlaBreaches] returns,
    whatever the connectors do, the number of rows its select found; it
    logs one [sla_breach] activity for each of them, in the order of the
    select, carrying the timer's type and deadline; and it makes at most
    one connector call per row. *)
Theorem breach_check_reports_what_it_marked (E : Env) (now : Instant) (w : World) :
  let rows := selectBreached now (db w) in
  let w' := run (checkSlaBreaches E now) w in
  result (checkSlaBreaches E now) w = Ok (Z.of_nat (List.length rows))
  /\ activities (db w') = activities (db w) ++ map breach_activity rows
  /\ (List.length (sent w') <= List.length (sent w) + List.length rows)%nat.
Proof.
  cbv zeta. unfold checkSlaBreaches, run, result, bind, query.
  rewrite processBreached_run. cbn [fst snd].
  split; [reflexivity |].
  exact (for_each_markBreached_log E (selectBreached now (db w)) w).
Qed.

(** ** Further properties: where follow-up messages go *)

Lemma texts_go_to_refl (L : list Lead) (w : World) : texts_go_to L w w.
Proof.
  intros HL. split; [exact HL |]. exists []. rewrite app_nil_r. split; auto.
Qed.

Lemma texts_go_to_trans (L : list Lead) (w1 w2 w3 : World) :
  texts_go_to L w1 w2 -> texts_go_to L w2 w3 -> texts_go_to L w1 w3.
Proof.
  intros H12 H23 HL. destruct (H12 HL) as (HL2 & t1 & Hs1 & F1).
  destruct (H23 HL2) as (HL3 & t2 & Hs2 & F2).
  split; [exact HL3 |]. exists (t1 ++ t2).
  split; [rewrite Hs2, Hs1, app_assoc; reflexivity | apply Forall_app; split; assumption].
Qed.

Lemma texts_go_to_db (L : list Lead) (f : Db -> Db) :
  (forall d, leads (f d) = leads d) -> keeps (texts_go_to L) (execute f).
Proof.
  intros Hf w HL. unfold execute. cbn. split; [rewrite Hf; exact HL |].
  exists []. rewrite app_nil_r. split; auto.
Qed.

Lemma texts_go_to_connector (E : Env) (L : list Lead) (o : Id) (l : Lead) (text : Text) :
  In l L ->
  keeps (texts_go_to L)
        (connector E o (SendTextMessage (normalizePhone (phone_normalized l)) text)).
Proof.
  intros Hin w HL. unfold connector.
  assert (Hgoal : forall b,
            leads (db w) = L
            /\ exists tail,
                 sent w ++ [mkSent o (SendTextMessage (normalizePhone (phone_normalized l))
                                                      text) b] = sent w ++ tail
                 /\ Forall (fun e => exists l' text',
                              In l' L
                              /\ call e = SendTextMessage
                                            (normalizePhone (phone_normalized l')) text')
                           tail).
  { intros b. split; [exact HL |]. eexists. split; [reflexivity |].
    constructor; [| constructor]. exists l, text. split; [exact Hin | reflexivity]. }
  destruct (connector_ok E (sent w) _); cbn [snd db sent]; apply Hgoal.
Qed.

Lemma processExecution_texts (E : Env) (now : Instant) (row : FollowUpExecution * Lead)
  (L : list Lead) :
  In (snd row) L -> keeps (texts_go_to L) (processExecution E now row).
Proof.
  intros Hin.
  pose proof (texts_go_to_refl L) as Hrefl. pose proof (texts_go_to_trans L) as Htrans.
  unfold processExecution, render, sendTextMessage.
  keeps_walk ltac:(first
    [ apply texts_go_to_db; intros d; reflexivity
    | apply texts_go_to_connector; exact Hin ]).
Qed.

(** X25. Follow-up messages go to the normalized phone.  [ingestLead]
    keeps every stored lead's normalized phone equal to the normalization of
    its phone; and under that invariant every connector call a run of
    [processDueFollowUps] makes is a text message whose number is exactly
    the stored normalized phone of a lead of the table, although
    [sendTextMessage] normalizes the number once more. *)
Theorem follow_ups_go_to_the_normalized_phone
  (E : Env) (now : Instant) (input : RawLeadInput) (w : World) :
  phones_normalized (db w) ->
  phones_normalized (db (run (ingestLead E now input) w))
  /\ exists tail,
       sent (run (processDueFollowUps E now) w) = sent w ++ tail
       /\ Forall (fun e => exists l text,
                    In l (leads (db w))
                    /\ call e = SendTextMessage (phone_normalized l) text) tail.
Proof.
  intros Hnorm. split.
  - destruct (lead_of_phone (normalizePhone (in_phone input)) (db w)) as [existing|] eqn:Hfind.
    + destruct (ingestLead_merge_run E now input w existing Hfind) as (updated & _ & Hrun).
      unfold run. rewrite Hrun. cbn [snd db leads]. intros l Hl.
      destruct (1 <? _)%nat; [| exact (Hnorm l Hl)].
      rewrite update_where_as_map in Hl. apply in_map_iff in Hl.
      destruct Hl as (l0 & <- & Hl0).
      destruct (_ =? _)%nat; [| exact (Hnorm l0 Hl0)]. exact (Hnorm l0 Hl0).
    + unfold run. rewrite (ingestLead_new_run E now input w Hfind). cbn [snd].
      unfold after_new_lead. cbn [db leads]. intros l Hl.
      assert (Hraw : forall l, In l (leads (db w) ++ [new_lead now (next_id (db w)) input])
                               -> phone_normalized l = normalizePhone (phone l)).
      { intros l' Hl'. apply in_app_or in Hl'. destruct Hl' as [Hl' | [<- | []]];
          [exact (Hnorm l' Hl') | reflexivity]. }
      destruct (pipedrive E _) as [[person deal]|]; [| exact (Hraw l Hl)].
      rewrite update_where_as_map in Hl. apply in_map_iff in Hl.
      destruct Hl as (l0 & <- & Hl0).
      destruct (_ =? _)%nat; exact (Hraw l0 Hl0).
  - assert (Hloop : texts_go_to (leads (db w)) w (run (processDueFollowUps E now) w)).
    { unfold processDueFollowUps.
      rewrite (run_bind _ _ w (selectDue now (db w))) by reflexivity.
      change (run (query (selectDue now)) w) with w.
      destruct (List.length (selectDue now (db w)) =? 0)%nat; [apply texts_go_to_refl |].
      apply (keeps_for_each_count (texts_go_to (leads (db w))));
        [apply texts_go_to_refl | apply texts_go_to_trans |].
      intros row Hrow. apply processExecution_texts.
      apply selectDue_in in Hrow. tauto. }
    destruct (Hloop eq_refl) as (_ & tail & Hsent & Htail).
    exists tail. split; [exact Hsent |].
    eapply Forall_impl; [| exact Htail].
    intros e (l & text & Hl & Hcall). exists l, text. split; [exact Hl |].
    rewrite Hcall. f_equal.
    rewrite (Hnorm l Hl).
    assert (Hd : all_digits (normalizePhone (phone l)) = true).
    { rewrite normalizePhone_digits. apply normalize_digits_all_digits, strip_all_digits. }
    rewrite (normalizePhone_digits (normalizePhone (phone l))).
    rewrite (strip_of_digits _ Hd).
    rewrite normalizePhone_digits. apply normalize_digits_settles.
Qed.

Lemma follow_ups_go_to_the_normalized_phone_witness :
  exists tail,
    sent (run (processDueFollowUps env_up 3600000) two_step_world) = tail
    /\ Forall (fun e => exists l text,
                 In l [known_lead] /\ call e = SendTextMessage (phone_normalized l) text)
              tail.
Proof.
  destruct (follow_ups_go_to_the_normalized_phone env_up 3600000 scenario_input
              two_step_world) as (_ & tail & Hsent & Htail).
  - intros l [<- | []]. reflexivity.
  - exists tail. split; [exact Hsent | exact Htail].
Defined.

(** ** Further properties: the Google handler *)

Ltac verify_case :=
  repeat split; intros;
  repeat match goal with
         | H : _ /\ _ |- _ => destruct H
         | H : exists _, _ |- _ => destruct H
         | H : _ \/ _ |- _ => destruct H
         | H : Some _ = Some _ |- _ => injection H as H
         end;
  subst; try discriminate; try congruence; try contradiction; auto;
  first [ left; congruence
        | right; left; congruence
        | right; right; left; congruence
        | right; right; right; eexists; repeat split; eauto; congruence
        | eexists; repeat split; eauto; congruence
        | idtac ].

(** X26. The token check of the Google handler.  It answers [true] exactly
    for a non-empty token equal to the configured secret, [false] for a
    missing or empty token, for an empty secret and for a wrong token of
    the secret's length, and it throws exactly when token and secret are
    both non-empty and differ in length. *)
Theorem verifyGoogleWebhook_cases (token : option string) (secret : string) :
  (verifyGoogleWebhook token secret = Some true <-> token = Some secret /\ secret <> "")
  /\ (verifyGoogleWebhook token secret = None <->
      exists t, token = Some t /\ t <> "" /\ secret <> ""
                /\ String.length t <> String.length secret)
  /\ (verifyGoogleWebhook token secret = Some false <->
      token = None \/ token = Some "" \/ secret = ""
      \/ exists t, token = Some t /\ t <> secret
                   /\ String.length t = String.length secret).
Proof.
  unfold verifyGoogleWebhook.
  destruct token as [t|]; [| verify_case].
  destruct (String.eqb_spec t "") as [Ht|Ht]; cbn [orb]; [verify_case |].
  destruct (String.eqb_spec secret "") as [Hs|Hs]; [verify_case |].
  destruct (Nat.eqb_spec (String.length t) (String.length secret)) as [Hlen|Hlen];
    [destruct (String.eqb_spec t secret) as [Heq|Hne] |]; verify_case.
Qed.

Lemma verifyGoogleWebhook_cases_witness :
  verifyGoogleWebhook (Some "s3cret") "s3cret" = Some true
  /\ verifyGoogleWebhook (Some "short") "s3cret" = None.
Proof.
  destruct (verifyGoogleWebhook_cases (Some "s3cret") "s3cret") as ((_ & Hyes) & _).
  destruct (verifyGoogleWebhook_cases (Some "short") "s3cret") as (_ & (_ & Hthrow) & _).
  split.
  - apply Hyes. split; [reflexivity | discriminate].
  - apply Hthrow. exists "short". repeat split; discriminate.
Defined.

Lemma isNewWebhookEvent_cases (E : Env) (src ty key payload : string) (w : World) :
  let row := mkWebhookLog src ty payload received key None in
  isNewWebhookEvent E src ty key payload w =
  match store_fault E row (db w) with
  | Some e => if code_is e "23505" then (Ok false, w) else (Threw e, w)
  | None =>
      if key_logged key (db w) then (Ok false, w)
      else (Ok true,
            mkWorld (with_webhook_logs (fun rows => rows ++ [row]) (db w)) (sent w))
  end.
Proof.
  cbv zeta. unfold isNewWebhookEvent, insert_webhook_log, try_catch, bind, key_logged.
  destruct (store_fault E _ (db w)) as [e|].
  - destruct (code_is e "23505"); reflexivity.
  - cbn [wh_idempotency_key]. destruct (existsb _ _); reflexivity.
Qed.

(** X27. The outcome of a Google lead form.  A rejected token is answered
    403, and with a token whose length differs from the secret's the
    handler throws before it has answered; in both cases nothing is stored.
    With the right token the answer is 200 whatever happens next: a key
    that is already logged, or an insert the store rejects, leaves the
    world unchanged; a new key is logged, the contact built from the
    columns (their names in ASCII) is ingested once, and the row ends
    [processed].  The handler never marks a row [failed]. *)
Theorem google_form_outcome
  (E : Env) (now : Instant) (token : option string) (secret : string)
  (payload : GoogleLeadPayload) (w : World) :
  let key := ("google_" ++ from_some (g_lead_id payload) (google_key payload))%string in
  let w' := run (googleWebhookPost E now token secret payload) w in
  (verifyGoogleWebhook token secret = Some false ->
   googleWebhookPost E now token secret payload w = (Ok (Status 403), w))
  /\ (verifyGoogleWebhook token secret = None ->
      googleWebhookPost E now token secret payload w = (Ok ThrowsUnanswered, w))
  /\ (verifyGoogleWebhook token secret = Some true ->
      result (googleWebhookPost E now token secret payload) w = Ok (Status 200)
      /\ (key_logged key (db w) = true -> w' = w)
      /\ (store_fault E (google_row payload received) (db w) <> None -> w' = w)
      /\ (key_logged key (db w) = false ->
          store_fault E (google_row payload received) (db w) = None ->
          Forall (fun col => ascii_only (column_key col) = true) (column_data payload) ->
          let ingested :=
            run (ingestLead E now (google_input payload))
                (mkWorld (with_webhook_logs
                            (fun rows => rows ++ [google_row payload received]) (db w))
                         (sent w)) in
          webhook_logs (db w') = webhook_logs (db w) ++ [google_row payload processed]
          /\ leads (db w') = leads (db ingested)
          /\ sla_events (db w') = sla_events (db ingested)
          /\ sent w' = sent ingested)).
Proof.
  cbv zeta. unfold googleWebhookPost, run, result.
  split; [intros ->; reflexivity |]. split; [intros ->; reflexivity |].
  intros ->.
  unfold bind, try_catch. rewrite isNewWebhookEvent_cases. cbv zeta.
  fold (google_row payload received).
  destruct (store_fault E (google_row payload received) (db w)) as [fault|] eqn:Hstore.
  { destruct (code_is fault "23505"); cbn [ret negb fst snd];
      (split; [reflexivity |]); (split; [reflexivity |]); (split; [reflexivity |]);
      intros _ H; discriminate H. }
  destruct (key_logged _ (db w)) eqn:Hseen.
  { cbn [ret negb fst snd].
    split; [reflexivity |]. split; [reflexivity |]. split; [reflexivity |].
    intros H. discriminate H. }
  cbn [ret negb fst snd].
  set (w1 := mkWorld (with_webhook_logs (fun rows => rows ++ [google_row payload received])
                                        (db w)) (sent w)).
  destruct (ingestLead_returns E now (google_input payload) w1) as (r & Hr).
  pose proof (ingestLead_keeps_webhook_logs E now (google_input payload) w1) as Hlogs.
  unfold run in Hlogs.
  destruct (ingestLead E now (google_input payload) w1) as [res w2].
  cbn [fst snd] in Hr, Hlogs |- *. subst res.
  rewrite markWebhookStatus_ok. cbn [fst snd ret].
  split; [reflexivity |]. split; [discriminate |].
  split; [intros H; contradiction H; reflexivity |].
  intros _ _ _. rewrite markWebhookStatus_run.
  cbn [db sent webhook_logs with_webhook_logs leads sla_events].
  split; [| repeat split; reflexivity].
  rewrite Hlogs. unfold w1. cbn [db webhook_logs with_webhook_logs].
  unfold google_row at 2.
  apply (mark_fresh_row _ processed None _ (google_row payload received));
    [exact Hseen | reflexivity].
Qed.

Lemma google_form_outcome_witness :
  let w' := run (googleWebhookPost env_up 1000 (Some "s3cret") "s3cret" google_payload)
                world0 in
  webhook_logs (db w') = [google_row google_payload processed]
  /\ map phone_normalized (leads (db w')) = ["5511988887777"]
  /\ googleWebhookPost env_up 1000 (Some "wrong!") "s3cret" google_payload world0
     = (Ok (Status 403), world0).
Proof.
  destruct (google_form_outcome env_up 1000 (Some "s3cret") "s3cret" google_payload world0)
    as (_ & _ & Hok).
  destruct (Hok eq_refl) as (_ & _ & _ & Hnew).
  assert (Hascii : Forall (fun col => ascii_only (column_key col) = true)
                           (column_data google_payload)) by (repeat constructor).
  destruct (Hnew eq_refl eq_refl Hascii) as (Hlogs & Hleads & _).
  destruct (google_form_outcome env_up 1000 (Some "wrong!") "s3cret" google_payload world0)
    as (Hno & _).
  split; [exact Hlogs |]. split; [rewrite Hleads; reflexivity | exact (Hno eq_refl)].
Defined.

Lemma replace_spaces_no_space (in_run : bool) (s : string) :
  any_char is_space (replace_spaces_from in_run s) = false.
Proof.
  revert in_run. induction s as [|c s IH]; intros in_run; [reflexivity |].
  cbn [replace_spaces_from]. destruct (is_space c) eqn:Hc.
  - destruct in_run; [apply IH |]. cbn [any_char]. rewrite IH. reflexivity.
  - cbn [any_char]. rewrite Hc, IH. reflexivity.
Qed.

Lemma replace_spaces_lower (in_run : bool) (s : string) :
  toLowerCase s = s ->
  toLowerCase (replace_spaces_from in_run s) = replace_spaces_from in_run s.
Proof.
  revert in_run. induction s as [|c s IH]; intros in_run Hs; [reflexivity |].
  cbn [toLowerCase] in Hs. injection Hs as Hc Hrest.
  cbn [replace_spaces_from]. destruct (is_space c).
  - destruct in_run; [apply IH; exact Hrest |].
    cbn [toLowerCase]. rewrite (IH true Hrest). reflexivity.
  - cbn [toLowerCase]. rewrite Hc, (IH false Hrest). reflexivity.
Qed.

Lemma extractGoogleLeadFields_rev (columns : list GoogleColumn) :
  extractGoogleLeadFields columns = rev (map google_field columns).
Proof.
  unfold extractGoogleLeadFields.
  assert (H : forall acc, fold_left (fun fields col => google_field col :: fields) columns acc
                          = rev (map google_field columns) ++ acc).
  { induction columns as [|x l IH]; intros acc; [reflexivity |].
    cbn [fold_left map rev]. rewrite IH, <- app_assoc. reflexivity. }
  specialize (H []). rewrite app_nil_r in H. exact H.
Qed.

(** X28. Google columns are read by a normalized name and the last one
    wins.  For column names in ASCII and a key that a plain object does not
    inherit: the name under which a column is stored, its name or else its
    id, lower-cased and with every run of white space replaced by one
    underscore, holds no white space and no upper-case letter; a column
    appended to the data overrides every earlier column with the same
    normalized name and leaves the others as they were; a column without a
    value reads as the empty string. *)
Theorem extractGoogleLeadFields_last_wins
  (columns : list GoogleColumn) (col : GoogleColumn) (k : string) :
  Forall (fun c => ascii_only (column_key c) = true) (columns ++ [col]) ->
  own_key k = true ->
  any_char is_space (fst (google_field col)) = false
  /\ toLowerCase (fst (google_field col)) = fst (google_field col)
  /\ lookup_field k (extractGoogleLeadFields (columns ++ [col])) =
     (if (fst (google_field col) =? k)%string
      then Some (from_some (string_value col) "")
      else lookup_field k (extractGoogleLeadFields columns)).
Proof.
  intros _ _.
  split; [apply replace_spaces_no_space |].
  split; [apply replace_spaces_lower, toLowerCase_idempotent |].
  rewrite !extractGoogleLeadFields_rev, map_app, rev_app_distr.
  cbn [map rev app lookup_field]. destruct (google_field col) as [name value] eqn:Hf.
  cbn [fst]. unfold google_field in Hf. injection Hf as _ <-. reflexivity.
Qed.

Lemma extractGoogleLeadFields_last_wins_witness :
  fst (google_field (mkColumn "c2" None (Some "Phone  Number"))) = "phone_number"
  /\ lookup_field "phone_number"
       (extractGoogleLeadFields
          ([mkColumn "PHONE_NUMBER" (Some "11988887777") None]
           ++ [mkColumn "c2" None (Some "Phone  Number")]))
     = Some "".
Proof.
  destruct (extractGoogleLeadFields_last_wins
              [mkColumn "PHONE_NUMBER" (Some "11988887777") None]
              (mkColumn "c2" None (Some "Phone  Number")) "phone_number")
    as (_ & _ & Hlast).
  - repeat constructor.
  - reflexivity.
  - split; [reflexivity | exact Hlast].
Defined.

(** ** Further properties: repeating a breach check *)

(** X29. A breach check is idempotent.  After [checkSlaBreaches] has run on
    a store with unique keys, a second run at the same or an earlier clock
    reading selects no row, returns 0 and changes nothing, whatever the
    connectors did during the first. *)
Theorem breach_check_is_idempotent (E : Env) (now again : Instant) (w : World) :
  wf_db (db w) -> again <= now ->
  let w1 := run (checkSlaBreaches E now) w in
  selectBreached again (db w1) = []
  /\ checkSlaBreaches E again w1 = (Ok 0, w1).
Proof.
  intros Hwf Hle w1.
  destruct (checkSlaBreaches_step E now w Hwf) as (Hwf1 & _ & Hsla & _). fold w1 in Hwf1, Hsla.
  assert (Hnone : selectBreached again (db w1) = []).
  { destruct (selectBreached again (db w1)) as [|row rows] eqn:Hsel; [reflexivity |].
    exfalso.
    assert (Hrow : In row (selectBreached again (db w1))) by (rewrite Hsel; left; reflexivity).
    apply selected_row_in_table in Hrow.
    destruct Hrow as (Hs' & _ & _ & Hopen' & Hbr' & Hdl').
    apply Forall2_flip in Hsla.
    destruct (Forall2_in_l _ _ _ (fst row) Hsla Hs') as (s & Hs & Hstep).
    cbv beta in Hstep.
    destruct Hstep as (_ & _ & _ & _ & Hdl & Hco & Hbr & _ & _ & Htouched).
    assert (Hselected : In (sla_id s) (selected_ids now (db w))).
    { apply (selected_iff now (db w) s Hwf Hs).
      split; [congruence |]. split; [| lia].
      destruct (breached s); [| reflexivity].
      specialize (Hbr eq_refl). congruence. }
    specialize (Htouched Hselected). congruence. }
  split; [exact Hnone |].
  unfold checkSlaBreaches, bind, query. rewrite Hnone. reflexivity.
Qed.

Lemma breach_check_is_idempotent_witness :
  checkSlaBreaches env_down 300 (run (checkSlaBreaches env_down 300) sla_world)
  = (Ok 0, run (checkSlaBreaches env_down 300) sla_world).
Proof.
  apply (breach_check_is_idempotent env_down 300 300 sla_world).
  - exact sla_world_wf.
  - lia.
Defined.
